(** * AiPodcast: the webhook stage pipeline and its artifact store

    A shallow embedding of the four webhook stage handlers of the
    repository
      - [src/app/api/webhook/transcript/route.ts]   (receive),
      - [src/app/api/webhook/process/route.ts]      (process, download),
      - [src/app/api/webhook/approve/route.ts]      (approve, MinIO upload),
    and the properties of the specification that concern them.

    Conventions of the embedding.
      - A JavaScript string is the list of its UTF-16 code units
        ([jsstring]); [lit] turns an ASCII literal into one.
      - A request field that may be absent (or [null]) is an [option].
      - Everything outside the handlers (file system, MinIO client, the
        dialogue action, the text generator, the clock, the platform's
        URL and JSON parsers) is a field of a record of answers, the
        [World] of the handler; a handler is a function of its world
        and its request.
      - A handler runs in the monad [M]: it returns either a value or a
        thrown exception, together with the list of the outside
        operations it performed, in order.  [try_catch] is the source's
        [try { } catch { }].
      - [path.join] is the platform's on POSIX ([Path]), and a
        response header is checked as the platform's [Headers] checks
        it ([Headers]).
      - [console.log], [console.warn] and [console.error] are not
        modelled. *)

From Stdlib Require Import String Ascii DecimalString.
From Stdlib Require Import ZArith NArith Bool Lia List.
Import ListNotations.

Set Implicit Arguments.
Set Warnings "-register-all".
Local Open Scope N_scope.

(* ================================================================== *)
(** * Part I: definitions                                              *)
(* ================================================================== *)

(** ** JavaScript values used by the handlers *)

Module JS.

(** A string is a sequence of UTF-16 code units. *)
Definition jsstring : Type := list N.

Definition lit (s : string) : jsstring :=
  map N_of_ascii (list_ascii_of_string s).

Fixpoint str_eqb (a b : jsstring) : bool :=
  match a, b with
  | [], [] => true
  | x :: a', y :: b' => N.eqb x y && str_eqb a' b'
  | _, _ => false
  end.

(** [s.startsWith(p)], [s.includes(t)], [s.endsWith(t)]. *)
Fixpoint startsWith (s p : jsstring) {struct p} : bool :=
  match p with
  | [] => true
  | c :: p' =>
      match s with
      | [] => false
      | d :: s' => N.eqb c d && startsWith s' p'
      end
  end.

Fixpoint includes (s t : jsstring) : bool :=
  startsWith s t ||
  match s with
  | [] => false
  | _ :: s' => includes s' t
  end.

Definition endsWith (s t : jsstring) : bool :=
  (length t <=? length s)%nat &&
  str_eqb (skipn (length s - length t) s) t.

(** [s.substring(from)] and [s.substring(0, to)] for in-range literals. *)
Definition substring_from (from : nat) (s : jsstring) : jsstring := skipn from s.
Definition substring_to (to : nat) (s : jsstring) : jsstring := firstn to s.

(** Truthiness of an optional string: [undefined], [null] and the empty
    string are falsy. *)
Definition truthy (x : option jsstring) : bool :=
  match x with
  | Some (_ :: _) => true
  | _ => false
  end.

(** [x || d] on an optional string. *)
Definition or_default (x : option jsstring) (d : jsstring) : jsstring :=
  match x with
  | Some (c :: s) => c :: s
  | _ => d
  end.

(** [x ?? d]. *)
Definition nullish_default (x : option jsstring) (d : jsstring) : jsstring :=
  match x with
  | Some s => s
  | None => d
  end.

(** Character classes. *)
Definition is_digit (c : N) : bool := (48 <=? c) && (c <=? 57).
Definition is_lower (c : N) : bool := (97 <=? c) && (c <=? 122).
Definition is_upper (c : N) : bool := (65 <=? c) && (c <=? 90).
Definition is_alpha (c : N) : bool := is_lower c || is_upper c.
Definition is_alnum (c : N) : bool := is_alpha c || is_digit c.
Definition underscore : N := 95.

(** An integral Number, or NaN.  The embedding keeps the mathematical
    integer; it agrees with the platform's double below 2^53.  Above,
    where the platform rounds and, from 10^21 on, prints an exponent,
    [parseInt] and [Number_toString] below differ from the platform's;
    the ports and the clock values they are applied to lie far below
    that bound. *)
Inductive number : Type :=
| NaN
| Int (z : Z).

Definition number_eqb (a b : number) : bool :=
  match a, b with
  | Int x, Int y => Z.eqb x y
  | _, _ => false
  end.

(** Template-literal conversion of a Number, [`${n}`]. *)
Definition Number_toString (n : number) : jsstring :=
  match n with
  | NaN => lit "NaN"
  | Int z => lit (NilZero.string_of_int (Z.to_int z))
  end.

(** [parseInt(s)] with no radix argument: leading white space is
    skipped, a sign is read, a [0x] prefix selects base sixteen, and the
    longest run of digits is the value; no digit gives NaN. *)
Definition is_white (c : N) : bool :=
  existsb (N.eqb c)
    [9; 10; 11; 12; 13; 32; 160; 5760; 8232; 8233; 8239; 8287; 12288; 65279]
  || ((8192 <=? c) && (c <=? 8202)).

Fixpoint dropWhile (p : N -> bool) (s : jsstring) : jsstring :=
  match s with
  | [] => []
  | c :: s' => if p c then dropWhile p s' else s
  end.

Fixpoint takeWhile (p : N -> bool) (s : jsstring) : jsstring :=
  match s with
  | [] => []
  | c :: s' => if p c then c :: takeWhile p s' else []
  end.

Definition digit_value (c : N) : option Z :=
  if is_digit c then Some (Z.of_N c - 48)%Z
  else if is_lower c then Some (Z.of_N c - 87)%Z
  else if is_upper c then Some (Z.of_N c - 55)%Z
  else None.

Definition digit_in (radix : Z) (c : N) : bool :=
  match digit_value c with
  | Some v => (v <? radix)%Z
  | None => false
  end.

Definition digits_value (radix : Z) (ds : jsstring) : Z :=
  fold_left
    (fun acc c => (acc * radix + match digit_value c with Some v => v | None => 0 end)%Z)
    ds 0%Z.

Definition parseInt (s : jsstring) : number :=
  let s1 := dropWhile is_white s in
  let '(sign, s2) :=
    match s1 with
    | 45 :: r => ((-1)%Z, r)
    | 43 :: r => (1%Z, r)
    | _ => (1%Z, s1)
    end in
  let '(radix, s3) :=
    match s2 with
    | 48 :: 120 :: r => (16%Z, r)
    | 48 :: 88 :: r => (16%Z, r)
    | _ => (10%Z, s2)
    end in
  match takeWhile (digit_in radix) s3 with
  | [] => NaN
  | ds => Int (sign * digits_value radix ds)
  end.

End JS.
Import JS.

(** ** Paths: [path.normalize] and [path.join] of the platform (POSIX) *)

Module Path.

Definition slash : N := 47.

(** The segments of a path: the runs between slashes, empty runs
    included. *)
Fixpoint segments (path : jsstring) : list jsstring :=
  match path with
  | [] => [[]]
  | c :: rest =>
      if N.eqb c slash then [] :: segments rest
      else match segments rest with
           | seg :: segs => (c :: seg) :: segs
           | [] => [[c]]
           end
  end.

(** One step of the platform's [normalizeString]; [res] holds the
    segments kept so far, the last one first.  An empty segment and
    ["."] are dropped; [".."] removes the last segment kept, and is
    itself kept only where there is none to remove and the path is
    relative. *)
Definition step (allowAboveRoot : bool) (res : list jsstring) (seg : jsstring)
  : list jsstring :=
  if str_eqb seg [] || str_eqb seg (lit ".") then res
  else if str_eqb seg (lit "..") then
    match res with
    | last :: res' =>
        if str_eqb last (lit "..") then (if allowAboveRoot then seg :: res else res)
        else res'
    | [] => if allowAboveRoot then [seg] else []
    end
  else seg :: res.

Fixpoint intercalate (segs : list jsstring) : jsstring :=
  match segs with
  | [] => []
  | seg :: rest =>
      match rest with
      | [] => seg
      | _ :: _ => seg ++ slash :: intercalate rest
      end
  end.

(** [path.normalize(path)].  No segment kept is empty, so that the text
    of the segments kept is empty exactly when none is kept. *)
Definition normalize (path : jsstring) : jsstring :=
  match path with
  | [] => lit "."
  | _ :: _ =>
      let isAbsolute := startsWith path (lit "/") in
      let trailingSeparator := endsWith path (lit "/") in
      let kept := rev (fold_left (step (negb isAbsolute)) (segments path) []) in
      match kept with
      | [] => if isAbsolute then lit "/" else if trailingSeparator then lit "./" else lit "."
      | _ :: _ =>
          (if isAbsolute then lit "/" else [])
            ++ intercalate kept
            ++ (if trailingSeparator then lit "/" else [])
      end
  end.

(** [path.join(a, b)]: the arguments that are not empty, joined by a
    slash and normalized. *)
Definition join (a b : jsstring) : jsstring :=
  match a, b with
  | [], [] => lit "."
  | [], _ :: _ => normalize b
  | _ :: _, [] => normalize a
  | _ :: _, _ :: _ => normalize (a ++ slash :: b)
  end.

(** The absolute normalized path of the given segments: [/] for none,
    [/a/b] for [a] and [b]. *)
Definition absolute (segs : list jsstring) : jsstring := slash :: intercalate segs.

(** A segment that normalization keeps as it is. *)
Definition proper (seg : jsstring) : bool :=
  negb (str_eqb seg []) && negb (str_eqb seg (lit ".")) && negb (str_eqb seg (lit ".."))
  && forallb (fun c => negb (N.eqb c slash)) seg.

End Path.

(** ** Filename derivation (approve/route.ts, lines 66-69 and 186-188) *)

Module Filename.

(** [s.replace(/[^a-z0-9]/gi, '_')]: the class is matched one code unit
    at a time and, without the [u] flag, ignoring case adds exactly the
    ASCII capitals; every other code unit becomes an underscore. *)
Definition replace_non_alnum (s : jsstring) : jsstring :=
  map (fun c => if is_alnum c then c else underscore) s.

(** [t.replace(/[^a-z0-9]/gi, '_').substring(0, 50)] *)
Definition sanitize (t : jsstring) : jsstring :=
  substring_to 50 (replace_non_alnum t).

(** Line 68: [(title || 'podcast').replace(...).substring(0, 50)]. *)
Definition safeTitle (title : option jsstring) : jsstring :=
  sanitize (or_default title (lit "podcast")).

(** Lines 77 and 187: the upload helper receives [title ?? 'podcast']
    and sanitizes it the same way. *)
Definition safeTitle_upload (title : option jsstring) : jsstring :=
  sanitize (nullish_default title (lit "podcast")).

(** Lines 69 and 188: [`${safeTitle}_${jobId}.mp3`]. *)
Definition filename_of (slug jobId : jsstring) : jsstring :=
  slug ++ lit "_" ++ jobId ++ lit ".mp3".

Definition filename (title : option jsstring) (jobId : jsstring) : jsstring :=
  filename_of (safeTitle title) jobId.

Definition filename_upload (title : option jsstring) (jobId : jsstring) : jsstring :=
  filename_of (safeTitle_upload title) jobId.

(** The characters a slug may contain. *)
Definition slug_char (c : N) : bool := is_alnum c || N.eqb c underscore.

End Filename.

(** ** Exceptions, outside operations and the handler monad *)

Module Effects.

(** A thrown value; only its message is ever read (line 227). *)
Inductive exn : Type :=
| Error (message : jsstring).

Definition message_of (e : exn) : jsstring :=
  match e with Error m => m end.

(** The exception of a failed property access or method call on a
    value that has none; the text of its message is not modelled. *)
Definition TypeError : exn := Error (lit "TypeError").

Definition outcome (A : Type) : Type := (exn + A)%type.

Definition bytes : Type := list N.

Section Monad.

Variable Event : Type.

(** A computation: the operations performed, then a value or a throw. *)
Definition M (A : Type) : Type := (list Event * outcome A)%type.

Definition ret {A} (a : A) : M A := ([], inr a).

Definition throw {A} (e : exn) : M A := ([], inl e).

Definition bind {A B} (m : M A) (k : A -> M B) : M B :=
  match m with
  | (t, inl e) => (t, inl e)
  | (t, inr a) => let (t', r) := k a in (t ++ t', r)
  end.

(** [try { m } catch (e) { h e }] *)
Definition try_catch {A} (m : M A) (h : exn -> M A) : M A :=
  match m with
  | (t, inl e) => let (t', r) := h e in (t ++ t', r)
  | (t, inr a) => (t, inr a)
  end.

(** One outside operation [ev] whose answer in this world is [r]. *)
Definition call {A} (ev : Event) (r : outcome A) : M A := ([ev], r).

(** A platform function that may throw but touches nothing outside. *)
Definition pure_call {A} (r : outcome A) : M A := ([], r).

Definition trace {A} (m : M A) : list Event := fst m.
Definition result {A} (m : M A) : outcome A := snd m.

End Monad.

Arguments ret {Event A} a.
Arguments throw {Event A} e.
Arguments bind {Event A B} m k.
Arguments try_catch {Event A} m h.
Arguments call {Event A} ev r.
Arguments pure_call {Event A} r.
Arguments trace {Event A} m.
Arguments result {Event A} m.

End Effects.
Import Effects.

(** ** Response headers *)

Module Headers.

(** A header value the platform's [Headers] accepts: a byte string, no
    code unit above 255, without NUL, line feed and carriage return.
    (Leading and trailing white space would be removed first; the values
    below begin with a letter and end with a double quote.) *)
Definition value_unit (c : N) : bool :=
  (c <=? 255) && negb (N.eqb c 0) && negb (N.eqb c 10) && negb (N.eqb c 13).

Definition valid_value (v : jsstring) : bool := forallb value_unit v.

(** [new NextResponse(body, { headers })] with that value among the
    headers: the constructor throws a [TypeError] on a value it does
    not accept. *)
Definition check {Event : Type} (v : jsstring) : M Event unit :=
  if valid_value v then ret tt else throw TypeError.

End Headers.

Declare Scope js_scope.
Delimit Scope js_scope with js.
Notation "x <- m ;; k" := (bind m (fun x => k))
  (at level 61, m at next level, right associativity) : js_scope.
Notation "m ;; k" := (bind m (fun _ => k))
  (at level 61, right associativity) : js_scope.
Local Open Scope js_scope.

(** An HTTP error reply, [NextResponse.json({ error }, { status })]. *)
Record ErrorReply : Type := mkError {
  status : Z;
  error : jsstring
}.

(** ** JSON documents and the public-bucket test (approve/route.ts, 199-203) *)

Module Policy.

(** The value [JSON.parse] returns.  The value of a JSON number is never
    read by the handlers.  An object lists each key once. *)
Inductive JSON : Type :=
| JNull
| JBool (b : bool)
| JNumber
| JString (s : jsstring)
| JArray (items : list JSON)
| JObject (fields : list (jsstring * JSON)).

Fixpoint assoc (k : jsstring) (fields : list (jsstring * JSON)) : option JSON :=
  match fields with
  | [] => None
  | (k', v) :: rest => if str_eqb k k' then Some v else assoc k rest
  end.

(** [v.k] for a key [k] that no prototype defines: reading it from
    [null] throws, from an object gives the field or [undefined], from
    any other value gives [undefined] ([None]). *)
Definition get (v : JSON) (k : jsstring) : outcome (option JSON) :=
  match v with
  | JNull => inl TypeError
  | JObject fields => inr (assoc k fields)
  | _ => inr None
  end.

(** [x === 'Allow'] and the like, for a value that may be undefined. *)
Definition is_string (x : option JSON) (s : jsstring) : bool :=
  match x with
  | Some (JString s') => str_eqb s' s
  | _ => false
  end.

(** [aws?.includes('*')]: short-circuits on [undefined] and [null], is
    the substring test on a string and the membership test on an array,
    and is a call of a non-function on anything else. *)
Definition includes_star (aws : option JSON) : outcome bool :=
  match aws with
  | None | Some JNull => inr false
  | Some (JString s) => inr (includes s (lit "*"))
  | Some (JArray items) => inr (existsb (fun v => is_string (Some v) (lit "*")) items)
  | Some _ => inl TypeError
  end.

(** [stmt.Principal?.AWS?.includes('*')] *)
Definition principal_includes_star (principal : option JSON) : outcome bool :=
  match principal with
  | None | Some JNull => inr false
  | Some p =>
      match get p (lit "AWS") with
      | inl e => inl e
      | inr aws => includes_star aws
      end
  end.

(** The callback of [some]:
    [stmt.Effect === 'Allow' && stmt.Principal?.AWS?.includes('*')]. *)
Definition allows_everyone (stmt : JSON) : outcome bool :=
  match get stmt (lit "Effect") with
  | inl e => inl e
  | inr effect =>
      if is_string effect (lit "Allow") then
        match get stmt (lit "Principal") with
        | inl e => inl e
        | inr principal => principal_includes_star principal
        end
      else inr false
  end.

(** [items.some(f)]: stops at the first element [f] accepts; a throw of
    [f] before that ends the scan. *)
Fixpoint some (f : JSON -> outcome bool) (items : list JSON) : outcome bool :=
  match items with
  | [] => inr false
  | x :: rest =>
      match f x with
      | inl e => inl e
      | inr true => inr true
      | inr false => some f rest
      end
  end.

(** Lines 201-203, with the truthiness test of line 205:
    [policyObj.Statement?.some(stmt => ...)]. *)
Definition isPublic (policyObj : JSON) : outcome bool :=
  match get policyObj (lit "Statement") with
  | inl e => inl e
  | inr None | inr (Some JNull) => inr false
  | inr (Some (JArray items)) => some allows_everyone items
  | inr (Some _) => inl TypeError
  end.

(** Lines 164-174: the policy document the helper tries to install. *)
Definition publicPolicy (bucketName : jsstring) : JSON :=
  JObject
    [ (lit "Version", JString (lit "2012-10-17"));
      (lit "Statement",
       JArray
         [ JObject
             [ (lit "Effect", JString (lit "Allow"));
               (lit "Principal", JObject [ (lit "AWS", JArray [ JString (lit "*") ]) ]);
               (lit "Action", JArray [ JString (lit "s3:GetObject") ]);
               (lit "Resource",
                JArray [ JString (lit "arn:aws:s3:::" ++ bucketName ++ lit "/*") ]) ] ]) ].

End Policy.
Import Policy.

(** ** The approve stage (approve/route.ts) *)

Module Approve.

(** [process.env], the variables the stage reads. *)
Record Env : Type := mkEnv {
  NEXT_PUBLIC_APP_URL : option jsstring;
  MINIO_ACCESS_KEY : option jsstring;
  MINIO_SECRET_KEY : option jsstring;
  MINIO_ENDPOINT : option jsstring;
  MINIO_PORT : option jsstring;
  MINIO_USE_SSL : option jsstring;
  MINIO_BUCKET_NAME : option jsstring
}.

(** The fields of a parsed [URL] the helper reads. *)
Record URL : Type := mkURL {
  protocol : jsstring;
  hostname : jsstring;
  port : jsstring
}.

(** The connection parameters handed to [new MinIO.Client]. *)
Record Target : Type := mkTarget {
  endPoint : jsstring;
  targetPort : number;
  useSSL : bool
}.

Record ClientParams : Type := mkClientParams {
  target : Target;
  accessKey : jsstring;
  secretKey : jsstring
}.

(** One conversation turn, [{ speaker: string; text: string }] (line 42),
    and one synthesis input, [{ text, voiceId }]. *)
Record Turn : Type := mkTurn {
  speaker : jsstring;
  text : jsstring
}.

Record DialogueInput : Type := mkInput {
  input_text : jsstring;
  voiceId : jsstring
}.

(** The [Result] of the dialogue action: [{ ok: true, value }] or
    [{ ok: false, error }]. *)
Inductive DialogueResult : Type :=
| DialogueOk (audioBase64 : jsstring)
| DialogueFailed (error : jsstring).

(** The operations the stage performs outside itself. *)
Inductive Event : Type :=
| CreateDialogue (inputs : list DialogueInput)
| FsAccess
| FsMkdir
| FsWriteFile (path : jsstring) (data : bytes)
| MinioImport
| MinioClient (params : ClientParams)
| BucketExists (bucket : jsstring)
| MakeBucket (bucket region : jsstring)
| SetBucketPolicy (bucket : jsstring) (policy : JSON)
| PutObject (bucket filename : jsstring) (data : bytes) (size : nat)
    (* with the metadata [Content-Type: audio/mpeg] *)
| GetBucketPolicy (bucket : jsstring)
| PresignedGetObject (bucket filename : jsstring) (expiry : Z).

(** The operations on the remote store, from the import of its client. *)
Definition is_remote (ev : Event) : bool :=
  match ev with
  | CreateDialogue _ | FsAccess | FsMkdir | FsWriteFile _ _ => false
  | _ => true
  end.

(** The answers of everything outside the stage.  [cwd] is
    [process.cwd()], an absolute normalized path; [fs_access] and
    [fs_mkdir] are the operations on the archive directory, and
    [fs_writeFile path] writes the file at that path. *)
Record World : Type := mkWorld {
  env : Env;
  cwd : jsstring;
  new_URL : jsstring -> outcome URL;
  JSON_parse : jsstring -> outcome JSON;
  base64_decode : jsstring -> bytes;
  createDialogue : list DialogueInput -> outcome DialogueResult;
    (* the action of [@/actions/dialogue], which is not among the sources *)
  fs_access : outcome unit;
  fs_mkdir : outcome unit;
  fs_writeFile : jsstring -> bytes -> outcome unit;
  import_minio : outcome unit;
  new_Client : ClientParams -> outcome unit;
  bucketExists : jsstring -> outcome bool;
  makeBucket : jsstring -> jsstring -> outcome unit;
  setBucketPolicy : jsstring -> JSON -> outcome unit;
  putObject : jsstring -> jsstring -> bytes -> nat -> outcome unit;
  getBucketPolicy : jsstring -> outcome jsstring;
  presignedGetObject : jsstring -> jsstring -> Z -> outcome jsstring
}.

(** The request body, [await req.json()] (line 21). *)
Record Request : Type := mkRequest {
  jobId : option jsstring;
  conversation : option (list Turn);
  title : option jsstring;
  voice1 : option jsstring;
  voice2 : option jsstring;
  uploadToMinIO : option bool
}.

(** The success body (lines 91-98). *)
Record Approved : Type := mkApproved {
  success : bool;
  approved_jobId : jsstring;
  downloadUrl : jsstring;
  minioUrl : option jsstring;
  approved_filename : jsstring;
  message : jsstring
}.

Inductive Response : Type :=
| Ok200 (body : Approved)
| Failed (reply : ErrorReply).

(** The helper's result, [{ success; url?; error? }] (line 113). *)
Record UploadResult : Type := mkUpload {
  upload_success : bool;
  url : option jsstring;
  upload_error : option jsstring
}.

Definition default_voice1 : jsstring := lit "FF7KdobWPaiR0vkcALHF".
Definition default_voice2 : jsstring := lit "BpjGufoPiobT79j2vtj4".

(** Lines 38-45: the synthesis inputs of a conversation. *)
Definition dialogueInputs (voice1 voice2 : option jsstring) (conversation : list Turn)
  : list DialogueInput :=
  let voice1Id := or_default voice1 default_voice1 in
  let voice2Id := or_default voice2 default_voice2 in
  map (fun item =>
         {| input_text := text item;
            voiceId := if str_eqb (speaker item) (lit "Speaker1") then voice1Id else voice2Id |})
      conversation.

(** Line 7: [ARCHIVE_DIR = path.join(process.cwd(), 'archive')]. *)
Definition ARCHIVE_DIR (w : World) : jsstring := Path.join (cwd w) (lit "archive").

(** Line 70: [filePath = path.join(ARCHIVE_DIR, filename)]. *)
Definition filePath (w : World) (title : option jsstring) (jobId : jsstring) : jsstring :=
  Path.join (ARCHIVE_DIR w) (Filename.filename title jobId).

(** Lines 10-16: [ensureArchiveDir]. *)
Definition ensureArchiveDir (w : World) : M Event unit :=
  try_catch (call FsAccess (fs_access w))
            (fun _ => call FsMkdir (fs_mkdir w)).

(** Lines 66 and 183:
    [audioBase64.includes(',') ? audioBase64.split(',')[1] : audioBase64]. *)
Definition comma : N := 44.

Fixpoint after_first_comma (s : jsstring) : jsstring :=
  match s with
  | [] => []
  | c :: s' =>
      if N.eqb c comma then takeWhile (fun d => negb (N.eqb d comma)) s'
      else after_first_comma s'
  end.

Definition base64Data (audioBase64 : jsstring) : jsstring :=
  if includes audioBase64 (lit ",") then after_first_comma audioBase64
  else audioBase64.

(** Lines 127-144: the storage target, from the environment. *)
Definition parseEndpoint (w : World) : Target :=
  let endPoint0 := or_default (MINIO_ENDPOINT (env w)) (lit "minio2-api.aihub.ovh") in
  let port0 := parseInt (or_default (MINIO_PORT (env w)) (lit "443")) in
  let useSSL0 :=
    match MINIO_USE_SSL (env w) with
    | Some v => str_eqb v (lit "true")
    | None => false
    end in
  if includes endPoint0 (lit "://") then
    match new_URL w endPoint0 with
    | inr u =>
        {| endPoint := hostname u;
           targetPort :=
             match port u with
             | _ :: _ => parseInt (port u)
             | [] => if str_eqb (protocol u) (lit "https:") then Int 443 else Int 80
             end;
           useSSL := str_eqb (protocol u) (lit "https:") |}
    | inl _ =>
        {| endPoint := endPoint0; targetPort := port0; useSSL := useSSL0 |}
    end
  else if number_eqb port0 (Int 443) then
    {| endPoint := endPoint0; targetPort := port0; useSSL := true |}
  else
    {| endPoint := endPoint0; targetPort := port0; useSSL := useSSL0 |}.

(** Lines 207-208 and 215-216: the direct URL of the stored object. *)
Definition publicUrl (t : Target) (bucketName filename : jsstring) : jsstring :=
  (if useSSL t then lit "https" else lit "http")
    ++ lit "://" ++ endPoint t ++ lit ":" ++ Number_toString (targetPort t)
    ++ lit "/" ++ bucketName ++ lit "/" ++ filename.

(** Line 211: [7 * 24 * 60 * 60]. *)
Definition presign_expiry : Z := (7 * 24 * 60 * 60)%Z.

(** Lines 195-217: the URL issued for the stored object. *)
Definition generateUrl (w : World) (t : Target) (bucketName filename : jsstring)
  : M Event jsstring :=
  try_catch
    (policy <- call (GetBucketPolicy bucketName) (getBucketPolicy w bucketName) ;;
     policyObj <- pure_call (JSON_parse w policy) ;;
     public <- pure_call (isPublic policyObj) ;;
     if (public : bool) then ret (publicUrl t bucketName filename)
     else call (PresignedGetObject bucketName filename presign_expiry)
               (presignedGetObject w bucketName filename presign_expiry))
    (fun _ => ret (publicUrl t bucketName filename)).

(** Lines 109-230: [uploadToMinIOStorage]. *)
Definition uploadToMinIOStorage (w : World) (audioBase64 title jobId : jsstring)
  : M Event UploadResult :=
  try_catch
    (call MinioImport (import_minio w) ;;
     if negb (truthy (MINIO_ACCESS_KEY (env w))) || negb (truthy (MINIO_SECRET_KEY (env w)))
     then
       ret {| upload_success := false; url := None;
              upload_error :=
                Some (lit "MinIO not configured. Set MINIO_ACCESS_KEY and MINIO_SECRET_KEY environment variables.") |}
     else
       let t := parseEndpoint w in
       call (MinioClient
               {| target := t;
                  accessKey := or_default (MINIO_ACCESS_KEY (env w)) [];
                  secretKey := or_default (MINIO_SECRET_KEY (env w)) [] |})
            (new_Client w
               {| target := t;
                  accessKey := or_default (MINIO_ACCESS_KEY (env w)) [];
                  secretKey := or_default (MINIO_SECRET_KEY (env w)) [] |}) ;;
       let bucketName := or_default (MINIO_BUCKET_NAME (env w)) (lit "podcast") in
       exists_ <- call (BucketExists bucketName) (bucketExists w bucketName) ;;
       (if (exists_ : bool) then ret tt
        else call (MakeBucket bucketName (lit "us-east-1"))
                  (makeBucket w bucketName (lit "us-east-1"))) ;;
       try_catch
         (call (SetBucketPolicy bucketName (publicPolicy bucketName))
               (setBucketPolicy w bucketName (publicPolicy bucketName)))
         (fun _ => ret tt) ;;
       let audioBuffer := base64_decode w (base64Data audioBase64) in
       let filename := Filename.filename_of (Filename.sanitize title) jobId in
       call (PutObject bucketName filename audioBuffer (length audioBuffer))
            (putObject w bucketName filename audioBuffer (length audioBuffer)) ;;
       u <- generateUrl w t bucketName filename ;;
       ret {| upload_success := true; url := Some u; upload_error := None |})
    (fun e =>
       ret {| upload_success := false; url := None;
              upload_error :=
                Some (or_default (Some (message_of e)) (lit "Failed to upload to MinIO")) |}).

(** Line 89: the URL of the local download stage for a job. *)
Definition localDownloadUrl (w : World) (jobId : jsstring) : jsstring :=
  or_default (NEXT_PUBLIC_APP_URL (env w)) (lit "http://localhost:3000")
    ++ lit "/api/webhook/download/" ++ jobId.

(** Lines 74-85: the optional mirror to the remote store. *)
Definition mirror (w : World) (req : Request) (audioBase64 jobId : jsstring)
  : M Event (option jsstring) :=
  match uploadToMinIO req with
  | Some true =>
      try_catch
        (minioResult <- uploadToMinIOStorage w audioBase64
                          (nullish_default (title req) (lit "podcast")) jobId ;;
         if upload_success minioResult then ret (url minioResult) else ret None)
        (fun _ => ret None)
  | _ => ret None
  end.

(** Lines 19-106: [POST]. *)
Definition POST (w : World) (req : Request) : M Event Response :=
  try_catch
    (match conversation req with
     | None | Some [] =>
         ret (Failed (mkError 400 (lit "Valid conversation is required")))
     | Some conv =>
         if negb (truthy (jobId req)) then
           ret (Failed (mkError 400 (lit "Job ID is required")))
         else
           let jobId := or_default (jobId req) [] in
           let inputs := dialogueInputs (voice1 req) (voice2 req) conv in
           result <- call (CreateDialogue inputs) (createDialogue w inputs) ;;
           match result with
           | DialogueFailed err => ret (Failed (mkError 500 err))
           | DialogueOk audioBase64 =>
               ensureArchiveDir w ;;
               let audioBuffer := base64_decode w (base64Data audioBase64) in
               let filename := Filename.filename (title req) jobId in
               let filePath := filePath w (title req) jobId in
               call (FsWriteFile filePath audioBuffer)
                    (fs_writeFile w filePath audioBuffer) ;;
               minioUrl <- mirror w req audioBase64 jobId ;;
               let downloadUrl := or_default minioUrl (localDownloadUrl w jobId) in
               ret (Ok200
                      {| success := true;
                         approved_jobId := jobId;
                         downloadUrl := downloadUrl;
                         minioUrl := minioUrl;
                         approved_filename := filename;
                         message := lit "Audio generated successfully" |})
           end
     end)
    (fun _ => ret (Failed (mkError 500 (lit "Failed to generate audio")))).

(** *** Vocabulary of the properties of the approve stage *)

(** The bucket the helper uses (line 154). *)
Definition bucketName (w : World) : jsstring :=
  or_default (MINIO_BUCKET_NAME (env w)) (lit "podcast").

(** The parameters of the client the helper builds (lines 146-152). *)
Definition clientParams (w : World) : ClientParams :=
  {| target := parseEndpoint w;
     accessKey := or_default (MINIO_ACCESS_KEY (env w)) [];
     secretKey := or_default (MINIO_SECRET_KEY (env w)) [] |}.

(** The request passes validation with conversation [conv] and job id
    [j], the synthesis answers with [audio], the archive directory is
    there or is made, and the local artifact is written. *)
Definition local_ok (w : World) (req : Request)
           (conv : list Turn) (j audio : jsstring) : Prop :=
  conversation req = Some conv /\ conv <> [] /\
  jobId req = Some j /\ j <> [] /\
  createDialogue w (dialogueInputs (voice1 req) (voice2 req) conv)
    = inr (DialogueOk audio) /\
  (fs_access w = inr tt \/
   (exists e, fs_access w = inl e) /\ fs_mkdir w = inr tt) /\
  fs_writeFile w (filePath w (title req) j)
    (base64_decode w (base64Data audio)) = inr tt.

(** The helper stores the object: the client is loaded, configured and
    built, the bucket exists or is made, and the object is put. *)
Definition stored (w : World) (audio title jobId : jsstring) : Prop :=
  import_minio w = inr tt /\
  truthy (MINIO_ACCESS_KEY (env w)) = true /\
  truthy (MINIO_SECRET_KEY (env w)) = true /\
  new_Client w (clientParams w) = inr tt /\
  (bucketExists w (bucketName w) = inr true \/
   bucketExists w (bucketName w) = inr false /\
   makeBucket w (bucketName w) (lit "us-east-1") = inr tt) /\
  putObject w (bucketName w)
    (Filename.filename_of (Filename.sanitize title) jobId)
    (base64_decode w (base64Data audio))
    (length (base64_decode w (base64Data audio))) = inr tt.

(** One of the steps the helper does not guard fails: the import, the
    credentials, the client, the bucket check, the bucket creation when
    the bucket is absent, or the upload. *)
Definition upload_step_fails (w : World) (audio title jobId : jsstring) : Prop :=
  (exists e, import_minio w = inl e) \/
  truthy (MINIO_ACCESS_KEY (env w)) = false \/
  truthy (MINIO_SECRET_KEY (env w)) = false \/
  (exists e, new_Client w (clientParams w) = inl e) \/
  (exists e, bucketExists w (bucketName w) = inl e) \/
  (bucketExists w (bucketName w) = inr false /\
   exists e, makeBucket w (bucketName w) (lit "us-east-1") = inl e) \/
  (exists e, putObject w (bucketName w)
               (Filename.filename_of (Filename.sanitize title) jobId)
               (base64_decode w (base64Data audio))
               (length (base64_decode w (base64Data audio))) = inl e).

(** What re-reading the bucket policy tells: the policy marks the bucket
    public, or does not, or the read fails ([getBucketPolicy] throws, the
    text is not JSON, or its inspection throws). *)
Inductive PolicyReading : Type :=
| PolicyPublic
| PolicyPrivate
| PolicyUnreadable.

Definition readPolicy (w : World) (bucket : jsstring) : PolicyReading :=
  match getBucketPolicy w bucket with
  | inl _ => PolicyUnreadable
  | inr policy =>
      match JSON_parse w policy with
      | inl _ => PolicyUnreadable
      | inr policyObj =>
          match isPublic policyObj with
          | inl _ => PolicyUnreadable
          | inr true => PolicyPublic
          | inr false => PolicyPrivate
          end
      end
  end.

Definition is_presign (ev : Event) : bool :=
  match ev with
  | PresignedGetObject _ _ _ => true
  | _ => false
  end.

(** The URL issuance policy in the words of the specification: a direct
    URL for a public bucket, and a URL signed for seven days for a
    private bucket and for a policy that cannot be read. *)
Definition url_issuance_as_specified (w : World) (audio title jobId : jsstring) : Prop :=
  forall r u,
    result (uploadToMinIOStorage w audio title jobId) = inr r ->
    upload_success r = true -> url r = Some u ->
    match readPolicy w (bucketName w) with
    | PolicyPublic =>
        u = publicUrl (parseEndpoint w) (bucketName w)
              (Filename.filename_of (Filename.sanitize title) jobId)
    | PolicyPrivate | PolicyUnreadable =>
        presignedGetObject w (bucketName w)
          (Filename.filename_of (Filename.sanitize title) jobId) 604800 = inr u
    end.

(** The target the discrete configuration gives, with TLS forced on for
    port 443. *)
Definition discreteTarget (w : World) : Target :=
  let port0 := parseInt (or_default (MINIO_PORT (env w)) (lit "443")) in
  {| endPoint := or_default (MINIO_ENDPOINT (env w)) (lit "minio2-api.aihub.ovh");
     targetPort := port0;
     useSSL :=
       match MINIO_USE_SSL (env w) with
       | Some v => str_eqb v (lit "true")
       | None => false
       end || number_eqb port0 (Int 443) |}.

(** The target a parsed URL gives. *)
Definition urlTarget (u : URL) : Target :=
  {| endPoint := hostname u;
     targetPort :=
       match port u with
       | _ :: _ => parseInt (port u)
       | [] => if str_eqb (protocol u) (lit "https:") then Int 443 else Int 80
       end;
     useSSL := str_eqb (protocol u) (lit "https:") |}.

(** The precedence rule in the words of the specification: an endpoint
    with a scheme is parsed and gives the target; any other endpoint
    gives the discrete target. *)
Definition precedence_as_specified (w : World) : Prop :=
  (exists u,
      new_URL w (or_default (MINIO_ENDPOINT (env w)) (lit "minio2-api.aihub.ovh")) = inr u /\
      parseEndpoint w = urlTarget u) \/
  parseEndpoint w = discreteTarget w.

(** The operations of a successful call before the mirror step. *)
Definition local_trace (w : World) (req : Request) (conv : list Turn) (j audio : jsstring)
  : list Event :=
  [CreateDialogue (dialogueInputs (voice1 req) (voice2 req) conv); FsAccess]
    ++ match fs_access w with
       | inr _ => []
       | inl _ => [FsMkdir]
       end
    ++ [FsWriteFile (filePath w (title req) j)
          (base64_decode w (base64Data audio))].

(** The same request with another upload flag. *)
Definition with_upload (req : Request) (upload : option bool) : Request :=
  {| jobId := jobId req;
     conversation := conversation req;
     title := title req;
     voice1 := voice1 req;
     voice2 := voice2 req;
     uploadToMinIO := upload |}.

End Approve.

(** ** Supported language tags (transcript/route.ts 17-18, process/route.ts 30-31) *)

Module Language.

Definition validLanguages : list jsstring :=
  map lit ["en"; "pl"; "es"; "fr"; "de"; "it"; "pt"; "ru"; "ja"; "ko"; "zh"]%string.

(** [validLanguages.includes(language)] *)
Definition is_valid (language : jsstring) : bool :=
  existsb (str_eqb language) validLanguages.

(** process/route.ts, lines 20 and 31: the destructuring default
    [language = 'en'] followed by
    [validLanguages.includes(language) ? language : 'en']. *)
Definition selectedLanguage (language : option jsstring) : jsstring :=
  let language := nullish_default language (lit "en") in
  if is_valid language then language else lit "en".

(** transcript/route.ts, line 18:
    [language && validLanguages.includes(language) ? language : 'en']. *)
Definition selectedLanguage_receive (language : option jsstring) : jsstring :=
  match language with
  | Some (c :: l) => if is_valid (c :: l) then c :: l else lit "en"
  | _ => lit "en"
  end.

(** process/route.ts, lines 64-78: [languageNames[selectedLanguage] || 'English']. *)
Definition languageNames : list (jsstring * jsstring) :=
  map (fun p => (lit (fst p), lit (snd p)))
    [ ("en", "English"); ("pl", "Polish"); ("es", "Spanish"); ("fr", "French");
      ("de", "German"); ("it", "Italian"); ("pt", "Portuguese"); ("ru", "Russian");
      ("ja", "Japanese"); ("ko", "Korean"); ("zh", "Chinese") ]%string.

Fixpoint lookup (k : jsstring) (table : list (jsstring * jsstring)) : option jsstring :=
  match table with
  | [] => None
  | (k', v) :: rest => if str_eqb k k' then Some v else lookup k rest
  end.

Definition languageName (selected : jsstring) : jsstring :=
  or_default (lookup selected languageNames) (lit "English").

End Language.

(** ** The receive stage (transcript/route.ts) *)

Module Transcript.

Record Request : Type := mkRequest {
  transcript : option jsstring;
  title : option jsstring;
  language : option jsstring;
  metadata : option (list (jsstring * JSON))
}.

(** The clock and the random source.  [Date_now] is [Date.now()];
    [random_base36] is the text of [Math.random().toString(36)], which
    the embedding takes from the world instead of computing it from a
    double. *)
Record World : Type := mkWorld {
  NEXT_PUBLIC_APP_URL : option jsstring;
  Date_now : Z;
  random_base36 : jsstring
}.

Inductive Event : Type :=
| DateNow
| MathRandom.

Record NextBody : Type := mkBody {
  body_jobId : jsstring;
  body_transcript : jsstring;
  body_title : jsstring;
  body_language : jsstring;
  body_metadata : list (jsstring * JSON)
}.

Record NextStep : Type := mkNext {
  next_url : jsstring;
  method : jsstring;
  body : NextBody
}.

Record Received : Type := mkReceived {
  success : bool;
  jobId : jsstring;
  message : jsstring;
  received_language : jsstring;
  nextStep : NextStep
}.

Inductive Response : Type :=
| Ok200 (reply : Received)
| Failed (reply : ErrorReply).

(** Line 21: [`job_${Date.now()}_${Math.random().toString(36).substring(7)}`]. *)
Definition mintJobId (now : Z) (random36 : jsstring) : jsstring :=
  lit "job_" ++ Number_toString (Int now) ++ lit "_" ++ substring_from 7 random36.

(** Lines 4-51: [POST]. *)
Definition POST (w : World) (req : Request) : M Event Response :=
  try_catch
    (if negb (truthy (transcript req)) then
       ret (Failed (mkError 400 (lit "Transcript is required")))
     else
       let selected := Language.selectedLanguage_receive (language req) in
       now <- call DateNow (inr (Date_now w)) ;;
       rnd <- call MathRandom (inr (random_base36 w)) ;;
       let jobId := mintJobId now rnd in
       ret (Ok200
              {| success := true;
                 jobId := jobId;
                 message := lit "Transcript received successfully";
                 received_language := selected;
                 nextStep :=
                   {| next_url :=
                        or_default (NEXT_PUBLIC_APP_URL w) (lit "http://localhost:3000")
                          ++ lit "/api/webhook/process";
                      method := lit "POST";
                      body :=
                        {| body_jobId := jobId;
                           body_transcript := or_default (transcript req) [];
                           body_title := or_default (title req) (lit "Untitled Podcast");
                           body_language := selected;
                           body_metadata :=
                             match metadata req with
                             | Some m => m
                             | None => []
                             end |} |} |}))
    (fun _ => ret (Failed (mkError 500 (lit "Failed to process webhook")))).

(** The pattern [job_<digits>_<alnum>]: the prefix, a non-empty run of
    decimal digits, an underscore, and a non-empty run of letters and
    digits. *)
Definition job_pattern (s : jsstring) : Prop :=
  exists ds suffix,
    s = lit "job_" ++ ds ++ lit "_" ++ suffix /\
    ds <> [] /\
    forallb is_digit ds = true /\
    suffix <> [] /\
    forallb is_alnum suffix = true.

(** The receive stage in the words of the specification: every request
    with a non-empty transcript gets the success reply, with a job id
    that is not empty and matches the pattern, the transcript passed
    on unchanged, and the language ["pl"] passed on when it was
    supplied. *)
Definition receive_as_specified (w : World) (req : Request) : Prop :=
  forall t,
    transcript req = Some t -> t <> [] ->
    exists reply,
      result (POST w req) = inr (Ok200 reply) /\
      jobId reply <> [] /\
      job_pattern (jobId reply) /\
      body_transcript (body (nextStep reply)) = t /\
      (language req = Some (lit "pl") ->
       body_language (body (nextStep reply)) = lit "pl").

(** The text [Number.prototype.toString(36)] gives for a double in
    [0, 1): ["0"], or ["0."] followed by lower-case base-36 digits. *)
Definition base36_fraction (s : jsstring) : Prop :=
  s = lit "0" \/
  exists ds, s = lit "0." ++ ds /\ forallb (fun c => is_digit c || is_lower c) ds = true.

End Transcript.

(** ** The process stage (process/route.ts, lines 1-126) *)

Module Process.

Record Env : Type := mkEnv {
  NEXT_PUBLIC_APP_URL : option jsstring;
  OPENROUTER_API_KEY : option jsstring;
  OPENAI_API_KEY : option jsstring;
  OPENROUTER_MODEL : option jsstring
}.

Record Request : Type := mkRequest {
  jobId : option jsstring;
  transcript : option jsstring;
  title : option jsstring;
  language : option jsstring;
  metadata : option (list (jsstring * JSON))
}.

(** One element of a partial conversation, fields possibly missing. *)
Record PartialTurn : Type := mkPartial {
  partial_speaker : option jsstring;
  partial_text : option jsstring
}.

(** One element of [partialObjectStream]; [None] when
    [chunk.conversation] is missing or not an array. *)
Record Chunk : Type := mkChunk {
  chunk_conversation : option (list PartialTurn)
}.

Record Turn : Type := mkTurn {
  speaker : jsstring;
  text : jsstring
}.

(** What [streamObject] is called with: the client configuration, the
    model name, and the values substituted in the prompt template. *)
Record Generation : Type := mkGeneration {
  apiKey : jsstring;
  baseURL : option jsstring;
  modelName : jsstring;
  prompt_languageName : jsstring;
  prompt_transcript : jsstring;
  prompt_title : jsstring;
  prompt_language : jsstring
}.

Inductive Event : Type :=
| StreamObject (g : Generation)
| NextChunk.

(** The generator's answer: a throw of the call, or the finite stream of
    chunks, ended normally or by a throw. *)
Record World : Type := mkWorld {
  env : Env;
  streamObject : Generation -> outcome (list Chunk * option exn)
}.

Record Processed : Type := mkProcessed {
  success : bool;
  processed_jobId : jsstring;
  conversation : list Turn;
  processed_title : jsstring;
  processed_language : jsstring;
  approvalUrl : jsstring;
  message : jsstring
}.

Inductive Response : Type :=
| Ok200 (reply : Processed)
| Failed (reply : ErrorReply).

(** Lines 97-105: the last chunk with a conversation wins. *)
Definition fromPartial (items : list PartialTurn) : list Turn :=
  map (fun item =>
         {| speaker := or_default (partial_speaker item) [];
            text := or_default (partial_text item) [] |})
      items.

Fixpoint collect (full : list Turn) (chunks : list Chunk) (ending : option exn)
  : M Event (list Turn) :=
  match chunks with
  | [] =>
      match ending with
      | Some e => call NextChunk (inl e)
      | None => ret full
      end
  | chunk :: rest =>
      call NextChunk (inr tt) ;;
      collect (match chunk_conversation chunk with
               | Some items => fromPartial items
               | None => full
               end) rest ending
  end.

(** Lines 33-94: the call of the generator: the client (OpenRouter when
    its key is set, OpenAI otherwise), the model and the prompt. *)
Definition generation (w : World) (req : Request) : Generation :=
  let selected := Language.selectedLanguage (language req) in
  let useOpenRouter := truthy (OPENROUTER_API_KEY (env w)) in
  {| apiKey :=
       if useOpenRouter then or_default (OPENROUTER_API_KEY (env w)) []
       else or_default (OPENAI_API_KEY (env w)) [];
     baseURL :=
       if useOpenRouter then Some (lit "https://openrouter.ai/api/v1") else None;
     modelName :=
       if useOpenRouter
       then or_default (OPENROUTER_MODEL (env w)) (lit "openai/gpt-4o-mini")
       else lit "gpt-4o-mini";
     prompt_languageName := Language.languageName selected;
     prompt_transcript := or_default (transcript req) [];
     prompt_title := or_default (title req) (lit "Untitled Podcast");
     prompt_language := selected |}.

(** Lines 18-126: [POST]. *)
Definition POST (w : World) (req : Request) : M Event Response :=
  try_catch
    (if negb (truthy (transcript req)) || negb (truthy (jobId req)) then
       ret (Failed (mkError 400 (lit "Transcript and jobId are required")))
     else
       let selected := Language.selectedLanguage (language req) in
       if negb (truthy (OPENROUTER_API_KEY (env w))) && negb (truthy (OPENAI_API_KEY (env w)))
       then
         ret (Failed (mkError 500
                (lit "Either OPENROUTER_API_KEY or OPENAI_API_KEY must be configured")))
       else
         stream <- call (StreamObject (generation w req)) (streamObject w (generation w req)) ;;
         fullConversation <- collect [] (fst stream) (snd stream) ;;
         ret (Ok200
                {| success := true;
                   processed_jobId := or_default (jobId req) [];
                   conversation := fullConversation;
                   processed_title := or_default (title req) (lit "Untitled Podcast");
                   processed_language := selected;
                   approvalUrl :=
                     or_default (NEXT_PUBLIC_APP_URL (env w)) (lit "http://localhost:3000")
                       ++ lit "/api/webhook/approve";
                   message := lit "Conversation generated. Please review and approve." |}))
    (fun _ => ret (Failed (mkError 500 (lit "Failed to process transcript")))).

(** The request is valid, a generator is configured, and the generator
    streams [chunks] to the end. *)
Definition generation_ok (w : World) (req : Request) (chunks : list Chunk) : Prop :=
  truthy (transcript req) = true /\
  truthy (jobId req) = true /\
  (truthy (OPENROUTER_API_KEY (env w)) = true \/
   truthy (OPENAI_API_KEY (env w)) = true) /\
  streamObject w (generation w req) = inr (chunks, None).

End Process.

(** ** The download stage (process/route.ts, lines 128-181) *)

Module Download.

(** The archive directory: its listing, and the content of a file of it. *)
Record World : Type := mkWorld {
  readdir : outcome (list jsstring);
  readFile : jsstring -> outcome bytes
}.

Inductive Event : Type :=
| Readdir
| ReadFile (name : jsstring).

Record FileReply : Type := mkFile {
  content : bytes;
  contentType : jsstring;
  contentDisposition : jsstring;
  contentLength : jsstring
}.

Inductive Response : Type :=
| Ok200 (reply : FileReply)
| Failed (reply : ErrorReply).

(** Line 152: the predicate of [files.find]. *)
Definition matches (jobId file : jsstring) : bool :=
  includes file jobId && endsWith file (lit ".mp3").

(** Line 170: the value of the header [Content-Disposition]. *)
Definition disposition (file : jsstring) : jsstring :=
  lit "attachment; filename=" ++ [34] ++ file ++ [34].

(** Lines 135-181: [GET].  A name accepted by [matches] is never empty,
    so [!matchingFile] holds exactly when [find] found nothing.  The
    other two headers, [audio/mpeg] and a decimal number, are always
    accepted. *)
Definition GET (w : World) (jobId : jsstring) : M Event Response :=
  try_catch
    (match jobId with
     | [] => ret (Failed (mkError 400 (lit "Job ID is required")))
     | _ :: _ =>
         files <- call Readdir (readdir w) ;;
         match find (matches jobId) files with
         | None => ret (Failed (mkError 404 (lit "File not found for this job ID")))
         | Some matchingFile =>
             fileBuffer <- call (ReadFile matchingFile) (readFile w matchingFile) ;;
             Headers.check (disposition matchingFile) ;;
             ret (Ok200
                    {| content := fileBuffer;
                       contentType := lit "audio/mpeg";
                       contentDisposition := disposition matchingFile;
                       contentLength :=
                         Number_toString (Int (Z.of_nat (length fileBuffer))) |})
         end
     end)
    (fun _ => ret (Failed (mkError 500 (lit "Failed to serve file")))).

(** The download stage in the words of the specification: the content
    of the first file of the directory, in the order of its listing,
    whose name matches is served as [audio/mpeg] with its length; and
    the reply is 404 when no file of the directory matches. *)
Definition download_as_specified (w : World) (jobId : jsstring) : Prop :=
  (forall files pre file post data,
      readdir w = inr files ->
      files = pre ++ file :: post ->
      (forall other, In other pre -> matches jobId other = false) ->
      matches jobId file = true ->
      readFile w file = inr data ->
      exists reply,
        result (GET w jobId) = inr (Ok200 reply) /\
        content reply = data /\
        contentType reply = lit "audio/mpeg" /\
        contentLength reply = Number_toString (Int (Z.of_nat (length data)))) /\
  ((forall files file, readdir w = inr files -> In file files -> matches jobId file = false) ->
   result (GET w jobId)
     = inr (Failed (mkError 404 (lit "File not found for this job ID")))).

End Download.

(** ** Concrete worlds and requests *)

Module Examples.

Import Approve.

(** [q s] is [s] between double quotes. *)
Definition q (s : string) : jsstring := [34] ++ lit s ++ [34].

(** A policy text that allows everyone to read, and one that allows a
    single user. *)
Definition public_policy_text : jsstring :=
  lit "{" ++ q "Statement" ++ lit ":[{" ++ q "Effect" ++ lit ":" ++ q "Allow" ++ lit ","
    ++ q "Principal" ++ lit ":{" ++ q "AWS" ++ lit ":[" ++ q "*" ++ lit "]}}]}".

Definition private_policy_text : jsstring :=
  lit "{" ++ q "Statement" ++ lit ":[{" ++ q "Effect" ++ lit ":" ++ q "Allow" ++ lit ","
    ++ q "Principal" ++ lit ":{" ++ q "AWS" ++ lit ":[" ++ q "arn:aws:iam::1:user/u"
    ++ lit "]}}]}".

Definition statement_for (principal : string) : JSON :=
  JObject
    [ (lit "Statement",
       JArray
         [ JObject
             [ (lit "Effect", JString (lit "Allow"));
               (lit "Principal", JObject [ (lit "AWS", JArray [ JString (lit principal) ]) ]) ] ]) ].

(** [JSON.parse] on the two policy texts; another text is not needed
    below and is answered with a syntax error. *)
Definition JSON_parse (s : jsstring) : outcome JSON :=
  if str_eqb s public_policy_text then inr (statement_for "*")
  else if str_eqb s private_policy_text then inr (statement_for "arn:aws:iam::1:user/u")
  else inl (Error (lit "SyntaxError")).

(** [new URL] on the endpoints used below: [https://host:9443] has
    scheme [https], host [host] and port [9443]; [://x] has no scheme
    and is refused, [https://host:99999] has a port above 65535 and is
    refused, and so is every other string here. *)
Definition new_URL (s : jsstring) : outcome URL :=
  if str_eqb s (lit "https://host:9443") then
    inr {| protocol := lit "https:"; hostname := lit "host"; port := lit "9443" |}
  else inl TypeError.

(** The audio of the examples: the base64 text of the three bytes of
    [ABC]. *)
Definition audio : jsstring := lit "QUJD".

Definition base64_decode (s : jsstring) : bytes :=
  if str_eqb s audio then [65; 66; 67] else [].

(** The endpoint as a full URL, beside a port and a TLS flag that the
    URL overrides. *)
Definition env_url : Env :=
  {| NEXT_PUBLIC_APP_URL := None;
     MINIO_ACCESS_KEY := Some (lit "access");
     MINIO_SECRET_KEY := Some (lit "secret");
     MINIO_ENDPOINT := Some (lit "https://host:9443");
     MINIO_PORT := Some (lit "9000");
     MINIO_USE_SSL := Some (lit "false");
     MINIO_BUCKET_NAME := None |}.

(** An endpoint with a scheme and a port that no URL can have, and
    nothing else about the target. *)
Definition env_port_out_of_range : Env :=
  {| NEXT_PUBLIC_APP_URL := None;
     MINIO_ACCESS_KEY := Some (lit "access");
     MINIO_SECRET_KEY := Some (lit "secret");
     MINIO_ENDPOINT := Some (lit "https://host:99999");
     MINIO_PORT := None;
     MINIO_USE_SSL := None;
     MINIO_BUCKET_NAME := None |}.

(** An endpoint with [://] that is not a URL, beside port 443. *)
Definition env_not_a_url : Env :=
  {| NEXT_PUBLIC_APP_URL := None;
     MINIO_ACCESS_KEY := Some (lit "access");
     MINIO_SECRET_KEY := Some (lit "secret");
     MINIO_ENDPOINT := Some (lit "://x");
     MINIO_PORT := Some (lit "443");
     MINIO_USE_SSL := None;
     MINIO_BUCKET_NAME := None |}.

(** A bare host name beside port 443. *)
Definition env_discrete : Env :=
  {| NEXT_PUBLIC_APP_URL := None;
     MINIO_ACCESS_KEY := Some (lit "access");
     MINIO_SECRET_KEY := Some (lit "secret");
     MINIO_ENDPOINT := Some (lit "minio.local");
     MINIO_PORT := Some (lit "443");
     MINIO_USE_SSL := None;
     MINIO_BUCKET_NAME := None |}.

(** A world in which synthesis and the local disk work, the bucket
    exists and the upload works; the environment, the answer to
    [setBucketPolicy] and the answer to [getBucketPolicy] are chosen by
    the example. *)
Definition world (e : Env) (setPolicy : outcome unit) (policy : outcome jsstring) : World :=
  {| env := e;
     cwd := lit "/app";
     Approve.new_URL := new_URL;
     Approve.JSON_parse := JSON_parse;
     Approve.base64_decode := base64_decode;
     createDialogue := fun _ => inr (DialogueOk audio);
     fs_access := inr tt;
     fs_mkdir := inr tt;
     fs_writeFile := fun _ _ => inr tt;
     import_minio := inr tt;
     new_Client := fun _ => inr tt;
     bucketExists := fun _ => inr true;
     makeBucket := fun _ _ => inr tt;
     setBucketPolicy := fun _ _ => setPolicy;
     putObject := fun _ _ _ _ => inr tt;
     getBucketPolicy := fun _ => policy;
     presignedGetObject := fun _ _ _ => inr (lit "https://host:9443/signed") |}.

Definition world_public : World := world env_url (inr tt) (inr public_policy_text).

(** A private bucket whose policy the user may read but not change. *)
Definition world_private : World :=
  world env_url (inl (Error (lit "AccessDenied"))) (inr private_policy_text).

(** A bucket whose policy the user may neither change nor read. *)
Definition world_unreadable : World :=
  world env_url (inl (Error (lit "AccessDenied"))) (inl (Error (lit "AccessDenied"))).

(** The store refuses the policy change and nothing else. *)
Definition world_policy_denied : World :=
  world env_url (inl (Error (lit "AccessDenied"))) (inr public_policy_text).

(** The store cannot be reached: every operation on it throws. *)
Definition world_unreachable : World :=
  {| env := env_url;
     cwd := lit "/app";
     Approve.new_URL := new_URL;
     Approve.JSON_parse := JSON_parse;
     Approve.base64_decode := base64_decode;
     createDialogue := fun _ => inr (DialogueOk audio);
     fs_access := inr tt;
     fs_mkdir := inr tt;
     fs_writeFile := fun _ _ => inr tt;
     import_minio := inr tt;
     new_Client := fun _ => inr tt;
     bucketExists := fun _ => inl (Error (lit "ECONNREFUSED"));
     makeBucket := fun _ _ => inl (Error (lit "ECONNREFUSED"));
     setBucketPolicy := fun _ _ => inl (Error (lit "ECONNREFUSED"));
     putObject := fun _ _ _ _ => inl (Error (lit "ECONNREFUSED"));
     getBucketPolicy := fun _ => inl (Error (lit "ECONNREFUSED"));
     presignedGetObject := fun _ _ _ => inl (Error (lit "ECONNREFUSED")) |}.

Definition world_not_a_url : World := world env_not_a_url (inr tt) (inr public_policy_text).

Definition world_discrete : World := world env_discrete (inr tt) (inr public_policy_text).

Definition world_port_out_of_range : World :=
  world env_port_out_of_range (inr tt) (inr public_policy_text).

(** A three-turn conversation, the last turn with a tag that is neither
    of the two speakers. *)
Definition turns : list Turn :=
  [ {| speaker := lit "Speaker1"; text := lit "Hi" |};
    {| speaker := lit "Speaker2"; text := lit "Hello" |};
    {| speaker := lit "speaker1"; text := lit "Bye" |} ].

Definition job : jsstring := lit "job_1_a".

(** The title [My Podcast!]. *)
Definition request (upload : option bool) : Request :=
  {| jobId := Some job;
     conversation := Some turns;
     title := Some (lit "My Podcast!");
     voice1 := None;
     voice2 := Some (lit "voiceB");
     uploadToMinIO := upload |}.


(** A process world with an OpenAI key whose generator streams two
    chunks, and a request in Polish. *)
Definition process_world : Process.World :=
  {| Process.env :=
       {| Process.NEXT_PUBLIC_APP_URL := None;
          Process.OPENROUTER_API_KEY := None;
          Process.OPENAI_API_KEY := Some (lit "sk-test");
          Process.OPENROUTER_MODEL := None |};
     Process.streamObject := fun _ =>
       inr ([ {| Process.chunk_conversation := None |};
              {| Process.chunk_conversation :=
                   Some [ {| Process.partial_speaker := Some (lit "Speaker1");
                             Process.partial_text := Some (lit "Hi") |} ] |} ],
            None) |}.

Definition process_request (language : option jsstring) : Process.Request :=
  {| Process.jobId := Some job;
     Process.transcript := Some (lit "Hello world");
     Process.title := None;
     Process.language := language;
     Process.metadata := None |}.

(** A receive world: the clock at 1700000000000 and the random text
    [0.4fzyo82mvyr]. *)
Definition receive_world : Transcript.World :=
  {| Transcript.NEXT_PUBLIC_APP_URL := None;
     Transcript.Date_now := 1700000000000;
     Transcript.random_base36 := lit "0.4fzyo82mvyr" |}.

Definition receive_request : Transcript.Request :=
  {| Transcript.transcript := Some (lit "Hello world");
     Transcript.title := None;
     Transcript.language := Some (lit "pl");
     Transcript.metadata := None |}.

(** An archive directory with two artifacts of the job [job_1_a] and
    one of another job. *)
Definition archive : list (jsstring * bytes) :=
  [ (lit "Other_job_2_b.mp3", [1; 2]);
    (lit "My_Podcast__job_1_a.mp3", [65; 66; 67]);
    (lit "Retry_job_1_a.mp3", [68]);
    (lit "job_1_a.txt", [0]) ].

Fixpoint file_content (name : jsstring) (dir : list (jsstring * bytes)) : outcome bytes :=
  match dir with
  | [] => inl (Error (lit "ENOENT"))
  | (n, data) :: rest => if str_eqb name n then inr data else file_content name rest
  end.

Definition download_world : Download.World :=
  {| Download.readdir := inr (map fst archive);
     Download.readFile := fun name => file_content name archive |}.

(** No archive directory yet: the listing fails. *)
Definition download_world_no_directory : Download.World :=
  {| Download.readdir := inl (Error (lit "ENOENT"));
     Download.readFile := fun _ => inl (Error (lit "ENOENT")) |}.

(** The job id [zadanie_] followed by the letter U+0142, and an archive
    directory with the artifact the approve stage names for it. *)
Definition job_l_stroke : jsstring := lit "zadanie_" ++ [322].

Definition archive_l_stroke : list (jsstring * bytes) :=
  [ (Filename.filename None job_l_stroke, [65; 66; 67]) ].

Definition download_world_l_stroke : Download.World :=
  {| Download.readdir := inr (map fst archive_l_stroke);
     Download.readFile := fun name => file_content name archive_l_stroke |}.

(** The random text of [Math.random() = 0.5], at the same clock. *)
Definition receive_world_half : Transcript.World :=
  {| Transcript.NEXT_PUBLIC_APP_URL := None;
     Transcript.Date_now := 1700000000000;
     Transcript.random_base36 := lit "0.i" |}.

End Examples.

From Stdlib Require DecimalPos DecimalZ Sorted Permutation.

(** ** Vocabulary of the further properties of the approve stage *)

Module ApprovePlan.

Import Approve.

Definition is_put (ev : Event) : bool :=
  match ev with
  | PutObject _ _ _ _ => true
  | _ => false
  end.

(** The operations of a complete upload, in the order of the helper:
    the bucket is made only when the check answered that it is absent,
    and a URL is signed only when the policy read back is private. *)
Definition upload_plan (w : World) (audio title jobId : jsstring) : list Event :=
  let b := bucketName w in
  let f := Filename.filename_of (Filename.sanitize title) jobId in
  let data := base64_decode w (base64Data audio) in
  [MinioImport; MinioClient (clientParams w); BucketExists b]
    ++ match bucketExists w b with
       | inr false => [MakeBucket b (lit "us-east-1")]
       | _ => []
       end
    ++ [SetBucketPolicy b (publicPolicy b); PutObject b f data (length data);
        GetBucketPolicy b]
    ++ match readPolicy w b with
       | PolicyPrivate => [PresignedGetObject b f 604800]
       | _ => []
       end.

(** A text without comma. *)
Definition comma_free (s : jsstring) : Prop := ~ In comma s.

End ApprovePlan.

(** A text without underscore. *)
Definition no_underscore (s : jsstring) : Prop := ~ In underscore s.

(** ** The stages in sequence *)

Module Pipeline.

(** The request the caller sends to the process stage when it follows
    the [nextStep] of a receive reply: the [body], as it is. *)
Definition process_request (b : Transcript.NextBody) : Process.Request :=
  {| Process.jobId := Some (Transcript.body_jobId b);
     Process.transcript := Some (Transcript.body_transcript b);
     Process.title := Some (Transcript.body_title b);
     Process.language := Some (Transcript.body_language b);
     Process.metadata := Some (Transcript.body_metadata b) |}.

(** The request the caller sends to the approve stage from a process
    reply: its job id, conversation and title, with the caller's choice
    of voices and of the upload. *)
Definition approve_request (r : Process.Processed)
           (voice1 voice2 : option jsstring) (upload : option bool) : Approve.Request :=
  {| Approve.jobId := Some (Process.processed_jobId r);
     Approve.conversation :=
       Some (map (fun t => {| Approve.speaker := Process.speaker t;
                              Approve.text := Process.text t |})
                 (Process.conversation r));
     Approve.title := Some (Process.processed_title r);
     Approve.voice1 := voice1;
     Approve.voice2 := voice2;
     Approve.uploadToMinIO := upload |}.

End Pipeline.

(** ** The archive routes (scrape/route.ts, lines 71-233, and
       archive/[filename]/route.ts) *)

Module Archive.

(** [fs.stat]: the size and the two times, in milliseconds. *)
Record Stats : Type := mkStats {
  size : Z;
  birthtime : Z;
  mtime : Z
}.

(** One entry of the listing (scrape/route.ts, lines 98-103). *)
Record Entry : Type := mkEntry {
  name : jsstring;
  entry_size : Z;
  createdAt : Z;
  modifiedAt : Z
}.

(** The metadata document written beside the audio (lines 156-161),
    before [JSON.stringify]. *)
Record Metadata : Type := mkMetadata {
  meta_title : jsstring;
  meta_conversation : option JSON;
  meta_createdAt : jsstring;
  audioFile : jsstring
}.

Inductive Content : Type :=
| Audio (data : bytes)
| Document (m : Metadata).

Inductive Event : Type :=
| Access (path : jsstring)
| Mkdir (path : jsstring)
| Readdir (path : jsstring)
| Stat (path : jsstring)
| ReadFile (path : jsstring)
| WriteFile (path : jsstring) (content : Content)
| Unlink (path : jsstring)
| DateNow
| NewDate.

(** The file system and the clock.  [archiveDir] is [ARCHIVE_DIR], the
    normalized path [path.join(process.cwd(), 'archive')]. *)
Record World : Type := mkWorld {
  archiveDir : jsstring;
  base64_decode : jsstring -> bytes;
  Date_now : Z;
  Date_toISOString : jsstring;
  fs_access : jsstring -> outcome unit;
  fs_mkdir : jsstring -> outcome unit;
  fs_readdir : jsstring -> outcome (list jsstring);
  fs_stat : jsstring -> outcome Stats;
  fs_readFile : jsstring -> outcome bytes;
  fs_writeFile : jsstring -> Content -> outcome unit;
  fs_unlink : jsstring -> outcome unit
}.

(** [path.join(dir, name)] on a POSIX platform, for a normalized [dir]
    and a [name] without separator and without [".."]: the empty name
    and ["."] give [dir] itself. *)
Definition path_join (dir name : jsstring) : jsstring :=
  if str_eqb name [] || str_eqb name (lit ".") then dir
  else dir ++ lit "/" ++ name.

(** [s.replace(pat, rep)] with a string pattern: the first occurrence. *)
Fixpoint replace_first (pat rep s : jsstring) : jsstring :=
  if startsWith s pat then rep ++ skipn (length pat) s
  else match s with
       | [] => []
       | c :: s' => c :: replace_first pat rep s'
       end.

(** Lines 16 and 192 of the two files: the path-traversal test,
    [filename.includes('..') || filename.includes('/') || filename.includes('\\')]. *)
Definition traversal (filename : jsstring) : bool :=
  includes filename (lit "..") || includes filename (lit "/") || includes filename [92].

(** scrape/route.ts, lines 78-84: [ensureArchiveDir]. *)
Definition ensureArchiveDir (w : World) : M Event unit :=
  try_catch (call (Access (archiveDir w)) (fs_access w (archiveDir w)))
            (fun _ => call (Mkdir (archiveDir w)) (fs_mkdir w (archiveDir w))).

(** *** GET: the listing (lines 87-118) *)

Inductive ListReply : Type :=
| Listing (files : list Entry)
| ListFailed (reply : ErrorReply).

(** [Promise.all(names.map(async file => ... await fs.stat ...))]: every
    [stat] is started, in the order of the names; the whole fails when
    one of them fails.  Which failure is reported does not matter to the
    caller, who replaces it; the first in the order of the names is
    kept here. *)
Fixpoint stat_all (w : World) (names : list jsstring) : M Event (list Entry) :=
  match names with
  | [] => ret []
  | file :: rest =>
      let r := call (Stat (path_join (archiveDir w) file))
                    (fs_stat w (path_join (archiveDir w) file)) in
      let rs := stat_all w rest in
      (fst r ++ fst rs,
       match snd r, snd rs with
       | inl e, _ => inl e
       | inr _, inl e => inl e
       | inr stats, inr entries =>
           inr ({| name := file; entry_size := size stats;
                   createdAt := birthtime stats; modifiedAt := mtime stats |} :: entries)
       end)
  end.

(** [fileList.sort((a, b) => b.createdAt.getTime() - a.createdAt.getTime())]:
    the sort of the platform is stable, so that the result is the one
    of this insertion sort. *)
Fixpoint insert_newest (x : Entry) (l : list Entry) : list Entry :=
  match l with
  | [] => [x]
  | y :: l' =>
      if (createdAt y <=? createdAt x)%Z then x :: y :: l'
      else y :: insert_newest x l'
  end.

Definition sort_newest_first (l : list Entry) : list Entry :=
  fold_right insert_newest [] l.

Definition GET_list (w : World) : M Event ListReply :=
  try_catch
    (ensureArchiveDir w ;;
     files <- call (Readdir (archiveDir w)) (fs_readdir w (archiveDir w)) ;;
     fileList <- stat_all w (filter (fun file => endsWith file (lit ".mp3")) files) ;;
     ret (Listing (sort_newest_first fileList)))
    (fun _ => ret (ListFailed (mkError 500 (lit "Failed to list archive files")))).

(** *** POST: saving a file (lines 121-176) *)

Record SaveRequest : Type := mkSave {
  audioBase64 : option jsstring;
  title : option jsstring;
  conversation : option JSON
}.

Record Saved : Type := mkSaved {
  saved_success : bool;
  saved_filename : jsstring;
  saved_message : jsstring
}.

Inductive SaveReply : Type :=
| SaveOk (reply : Saved)
| SaveFailed (reply : ErrorReply).

(** Lines 143-145: [title ? title.replace(...).substring(0, 50) : 'podcast']. *)
Definition safeTitle (title : option jsstring) : jsstring :=
  if truthy title then Filename.sanitize (or_default title []) else lit "podcast".

(** Lines 146 and 153: the stem [`${safeTitle}_${timestamp}`]. *)
Definition stem (title : option jsstring) (timestamp : Z) : jsstring :=
  safeTitle title ++ lit "_" ++ Number_toString (Int timestamp).

Definition POST (w : World) (req : SaveRequest) : M Event SaveReply :=
  try_catch
    (ensureArchiveDir w ;;
     if negb (truthy (audioBase64 req)) then
       ret (SaveFailed (mkError 400 (lit "Audio data is required")))
     else
       let audioBuffer :=
         base64_decode w (Approve.base64Data (or_default (audioBase64 req) [])) in
       timestamp <- call DateNow (inr (Date_now w)) ;;
       let filename := stem (title req) timestamp ++ lit ".mp3" in
       let filePath := path_join (archiveDir w) filename in
       call (WriteFile filePath (Audio audioBuffer))
            (fs_writeFile w filePath (Audio audioBuffer)) ;;
       let metadataPath := path_join (archiveDir w) (stem (title req) timestamp ++ lit ".json") in
       createdAt <- call NewDate (inr (Date_toISOString w)) ;;
       let document :=
         Document {| meta_title := or_default (title req) (lit "Untitled Podcast");
                     meta_conversation := conversation req;
                     meta_createdAt := createdAt;
                     audioFile := filename |} in
       call (WriteFile metadataPath document) (fs_writeFile w metadataPath document) ;;
       ret (SaveOk {| saved_success := true;
                      saved_filename := filename;
                      saved_message := lit "File archived successfully" |}))
    (fun _ => ret (SaveFailed (mkError 500 (lit "Failed to archive file")))).

(** *** DELETE (lines 179-233) *)

Inductive DeleteReply : Type :=
| Deleted (message : jsstring)
| DeleteFailed (reply : ErrorReply).

(** [filename] is [searchParams.get('filename')], [None] when the
    parameter is absent. *)
Definition DELETE (w : World) (filename : option jsstring) : M Event DeleteReply :=
  try_catch
    (if negb (truthy filename) then
       ret (DeleteFailed (mkError 400 (lit "Filename is required")))
     else
       let filename := or_default filename [] in
       if traversal filename then
         ret (DeleteFailed (mkError 400 (lit "Invalid filename")))
       else
         let filePath := path_join (archiveDir w) filename in
         found <- try_catch (call (Access filePath) (fs_access w filePath) ;; ret true)
                            (fun _ => ret false) ;;
         if (found : bool) then
           call (Unlink filePath) (fs_unlink w filePath) ;;
           let metadataPath := replace_first (lit ".mp3") (lit ".json") filePath in
           try_catch (call (Unlink metadataPath) (fs_unlink w metadataPath))
                     (fun _ => ret tt) ;;
           ret (Deleted (lit "File deleted successfully"))
         else
           ret (DeleteFailed (mkError 404 (lit "File not found"))))
    (fun _ => ret (DeleteFailed (mkError 500 (lit "Failed to delete file")))).

(** *** GET of one file (archive/[filename]/route.ts, lines 8-53) *)

Record FileReply : Type := mkFile {
  content : bytes;
  contentType : jsstring;
  contentDisposition : jsstring;
  contentLength : jsstring
}.

Inductive FileResponse : Type :=
| FileOk (reply : FileReply)
| FileFailed (reply : ErrorReply).

Definition GET_file (w : World) (filename : jsstring) : M Event FileResponse :=
  try_catch
    (if traversal filename then
       ret (FileFailed (mkError 400 (lit "Invalid filename")))
     else
       let filePath := path_join (archiveDir w) filename in
       found <- try_catch (call (Access filePath) (fs_access w filePath) ;; ret true)
                          (fun _ => ret false) ;;
       if (found : bool) then
         fileBuffer <- call (ReadFile filePath) (fs_readFile w filePath) ;;
         Headers.check (lit "attachment; filename=" ++ [34] ++ filename ++ [34]) ;;
         ret (FileOk {| content := fileBuffer;
                        contentType := lit "audio/mpeg";
                        contentDisposition :=
                          lit "attachment; filename=" ++ [34] ++ filename ++ [34];
                        contentLength :=
                          Number_toString (Int (Z.of_nat (length fileBuffer))) |})
       else
         ret (FileFailed (mkError 404 (lit "File not found"))))
    (fun _ => ret (FileFailed (mkError 500 (lit "Failed to serve file")))).

(** A code unit that is neither a dot nor a separator. *)
Definition plain (c : N) : bool :=
  negb (N.eqb c 46) && negb (N.eqb c 47) && negb (N.eqb c 92).

(** Newest first. *)
Definition not_older (a b : Entry) : Prop := (createdAt b <= createdAt a)%Z.

(** The path an event touches, if any. *)
Definition path_of (ev : Event) : option jsstring :=
  match ev with
  | Access p | Mkdir p | Readdir p | Stat p | ReadFile p | WriteFile p _ | Unlink p => Some p
  | DateNow | NewDate => None
  end.

End Archive.

(** ** The connection test (webhook/test-minio/route.ts) *)

Module TestMinio.

(** [req.nextUrl.searchParams.get(...)]: [None] for an absent parameter. *)
Record Request : Type := mkRequest {
  query_accessKey : option jsstring;
  query_secretKey : option jsstring
}.

Inductive Event : Type :=
| MinioImport
| MinioClient (params : Approve.ClientParams)
| ListBuckets
| BucketExists (bucket : jsstring)
| MakeBucket (bucket region : jsstring)
| DateNow
| PutObject (bucket name : jsstring) (data : bytes) (size : nat)
    (* with the metadata [Content-Type: text/plain] *)
| PresignedGetObject (bucket name : jsstring) (expiry : Z)
| RemoveObject (bucket name : jsstring).

(** The answers of the store, of the clock and of the URL parser;
    [listBuckets] answers with the names of the buckets. *)
Record World : Type := mkWorld {
  env : Approve.Env;
  new_URL : jsstring -> outcome Approve.URL;
  import_minio : outcome unit;
  new_Client : Approve.ClientParams -> outcome unit;
  listBuckets : outcome (list jsstring);
  bucketExists : jsstring -> outcome bool;
  makeBucket : jsstring -> jsstring -> outcome unit;
  Date_now : Z;
  putObject : jsstring -> jsstring -> bytes -> nat -> outcome unit;
  presignedGetObject : jsstring -> jsstring -> Z -> outcome jsstring;
  removeObject : jsstring -> jsstring -> outcome unit
}.

(** The success body (lines 113-127). *)
Record Report : Type := mkReport {
  report_message : jsstring;
  connection : Approve.Target;
  report_bucketName : jsstring;
  buckets : list jsstring;
  report_bucketExists : bool;
  uploadSuccess : bool;
  presignedUrlGenerated : bool
}.

(** The bodies of the four 500 replies; a member a reply does not carry
    is [None].  The [stack] of the last one is not modelled. *)
Record Failure : Type := mkFailure {
  failure_error : jsstring;
  details : jsstring;
  failure_connection : option Approve.Target;
  failure_buckets : option (list jsstring);
  failure_bucketExists : option bool
}.

Inductive Response : Type :=
| Ok200 (body : Report)
| Failed500 (body : Failure).

(** Lines 11-25: the target. *)
Definition parseEndpoint (w : World) : Approve.Target :=
  let endPoint0 :=
    or_default (Approve.MINIO_ENDPOINT (env w)) (lit "minio2-api.aihub.ovh") in
  let port0 := parseInt (or_default (Approve.MINIO_PORT (env w)) (lit "443")) in
  let useSSL0 :=
    match Approve.MINIO_USE_SSL (env w) with
    | Some v => str_eqb v (lit "true")
    | None => false
    end
    || includes endPoint0 (lit "https://")
    || number_eqb port0 (Int 443) in
  if includes endPoint0 (lit "://") then
    match new_URL w endPoint0 with
    | inr u =>
        {| Approve.endPoint := Approve.hostname u;
           Approve.targetPort :=
             match Approve.port u with
             | _ :: _ => parseInt (Approve.port u)
             | [] => if str_eqb (Approve.protocol u) (lit "https:") then Int 443 else Int 80
             end;
           Approve.useSSL := str_eqb (Approve.protocol u) (lit "https:") |}
    | inl _ =>
        {| Approve.endPoint := endPoint0; Approve.targetPort := port0;
           Approve.useSSL := useSSL0 |}
    end
  else
    {| Approve.endPoint := endPoint0; Approve.targetPort := port0;
       Approve.useSSL := useSSL0 |}.

(** Lines 28-30: the credentials and the bucket. *)
Definition clientParams (w : World) (req : Request) : Approve.ClientParams :=
  {| Approve.target := parseEndpoint w;
     Approve.accessKey :=
       or_default (query_accessKey req)
         (or_default (Approve.MINIO_ACCESS_KEY (env w)) (lit "login"));
     Approve.secretKey :=
       or_default (query_secretKey req)
         (or_default (Approve.MINIO_SECRET_KEY (env w)) (lit "Swiat1976")) |}.

Definition bucketName (w : World) : jsstring :=
  or_default (Approve.MINIO_BUCKET_NAME (env w)) (lit "podcast").

(** Lines 85-86: [Buffer.from('test file content')] and
    [`test_${Date.now()}.txt`]. *)
Definition testContent : bytes := lit "test file content".

Definition testFileName (now : Z) : jsstring :=
  lit "test_" ++ Number_toString (Int now) ++ lit ".txt".

(** A [try] whose [catch] returns from the handler: the value of the
    block, or the exception caught. *)
Definition attempt {A} (m : M Event A) : M Event (exn + A) :=
  try_catch (a <- m ;; ret (inr a)) (fun e => ret (inl e)).

(** Lines 4-137: [GET]. *)
Definition GET (w : World) (req : Request) : M Event Response :=
  try_catch
    (call MinioImport (import_minio w) ;;
     let t := parseEndpoint w in
     let b := bucketName w in
     call (MinioClient (clientParams w req)) (new_Client w (clientParams w req)) ;;
     listed <- attempt (call ListBuckets (listBuckets w)) ;;
     match listed with
     | inl error =>
         ret (Failed500 {| failure_error := lit "Failed to list buckets";
                           details := message_of error;
                           failure_connection := Some t;
                           failure_buckets := None;
                           failure_bucketExists := None |})
     | inr names =>
         checked <- attempt
           (found <- call (BucketExists b) (bucketExists w b) ;;
            if negb found then
              call (MakeBucket b (lit "us-east-1")) (makeBucket w b (lit "us-east-1")) ;;
              ret true
            else ret found) ;;
         match checked with
         | inl error =>
             ret (Failed500 {| failure_error := lit "Failed to check/create bucket: " ++ b;
                               details := message_of error;
                               failure_connection := None;
                               failure_buckets := Some names;
                               failure_bucketExists := None |})
         | inr found =>
             now <- call DateNow (inr (Date_now w)) ;;
             let name := testFileName now in
             uploaded <- attempt
               (call (PutObject b name testContent (length testContent))
                     (putObject w b name testContent (length testContent)) ;;
                presignedUrl <- call (PresignedGetObject b name 3600)
                                     (presignedGetObject w b name 3600) ;;
                call (RemoveObject b name) (removeObject w b name) ;;
                ret presignedUrl) ;;
             match uploaded with
             | inl error =>
                 ret (Failed500 {| failure_error := lit "Failed to upload test file";
                                   details := message_of error;
                                   failure_connection := None;
                                   failure_buckets := Some names;
                                   failure_bucketExists := Some found |})
             | inr presignedUrl =>
                 ret (Ok200 {| report_message := lit "MinIO connection successful!";
                               connection := t;
                               report_bucketName := b;
                               buckets := names;
                               report_bucketExists := found;
                               uploadSuccess := true;
                               presignedUrlGenerated := truthy (Some presignedUrl) |})
             end
         end
     end)
    (fun error =>
       ret (Failed500 {| failure_error := lit "Failed to connect to MinIO";
                         details := message_of error;
                         failure_connection := None;
                         failure_buckets := None;
                         failure_bucketExists := None |})).

(** The operations of a complete run, in order. *)
Definition test_plan (w : World) (req : Request) : list Event :=
  let b := bucketName w in
  let name := testFileName (Date_now w) in
  [MinioImport; MinioClient (clientParams w req); ListBuckets; BucketExists b]
    ++ match bucketExists w b with
       | inr false => [MakeBucket b (lit "us-east-1")]
       | _ => []
       end
    ++ [DateNow; PutObject b name testContent (length testContent);
        PresignedGetObject b name 3600; RemoveObject b name].

Definition is_remove (ev : Event) : bool :=
  match ev with
  | RemoveObject _ _ => true
  | _ => false
  end.

End TestMinio.

(** ** The direct generation route (generate-podcast/route.ts) *)

Module GeneratePodcast.

Record Env : Type := mkEnv {
  OPENROUTER_API_KEY : option jsstring;
  OPENAI_API_KEY : option jsstring;
  OPENROUTER_MODEL : option jsstring
}.

Record Request : Type := mkRequest {
  content : option jsstring;
  title : option jsstring;
  language : option jsstring
}.

(** What the handler reads of a thrown value (lines 208-215):
    [e?.cause?.error?.code], [e?.cause?.error?.message], [e?.message]. *)
Record ApiError : Type := mkApiError {
  cause_code : option jsstring;
  cause_message : option jsstring;
  error_message : option jsstring
}.

(** What [streamObject] is called with: the client, the model, and the
    values substituted in the prompt template. *)
Record Generation : Type := mkGeneration {
  apiKey : jsstring;
  baseURL : option jsstring;
  modelName : jsstring;
  prompt_language : jsstring;
  prompt_title : jsstring;
  prompt_content : jsstring
}.

(** The result of [streamObject]: the partial objects of
    [partialObjectStream], how that stream ends, and the promise
    [object]. *)
Record Streamed : Type := mkStreamed {
  partialObjectStream : list JSON;
  stream_end : option ApiError;
  object : ApiError + JSON
}.

Record World : Type := mkWorld {
  env : Env;
  streamObject : Generation -> ApiError + Streamed
}.

(** One line of the response body, [JSON.stringify({ type, ... }) + '\n']. *)
Inductive Line : Type :=
| Partial (data : JSON)
| Complete (data : JSON)
| ErrorLine (error : jsstring).

Inductive Response : Type :=
| Json (reply : ErrorReply)
| Stream (lines : list Line).

(** Line 77: the name of the language in the prompt. *)
Definition languageLabel (language : jsstring) : jsstring :=
  if str_eqb language (lit "en") then lit "English"
  else if str_eqb language (lit "pl") then lit "Polish"
  else if str_eqb language (lit "es") then lit "Spanish"
  else if str_eqb language (lit "fr") then lit "French"
  else if str_eqb language (lit "de") then lit "German"
  else if str_eqb language (lit "it") then lit "Italian"
  else if str_eqb language (lit "pt") then lit "Portuguese"
  else if str_eqb language (lit "ru") then lit "Russian"
  else if str_eqb language (lit "ja") then lit "Japanese"
  else if str_eqb language (lit "ko") then lit "Korean"
  else if str_eqb language (lit "zh") then lit "Chinese"
  else lit "English".

Definition is_code (code : string) (x : option jsstring) : bool :=
  match x with
  | Some c => str_eqb c (lit code)
  | None => false
  end.

(** Lines 205-216 and 264-276: the message of the error line. *)
Definition errorMessage (useOpenRouter : bool) (e : ApiError) : jsstring :=
  let provider := if useOpenRouter then lit "OpenRouter" else lit "OpenAI" in
  if is_code "insufficient_quota" (cause_code e) then
    provider ++ lit " API quota exceeded. Please check your billing and plan details."
  else if is_code "invalid_api_key" (cause_code e) then
    lit "Invalid " ++ provider ++ lit " API key. Please check your API key configuration."
  else if truthy (cause_message e) then
    provider ++ lit " API error: " ++ or_default (cause_message e) []
  else if truthy (error_message e) then
    lit "Error: " ++ or_default (error_message e) []
  else lit "Failed to generate podcast conversation".

(** Lines 35-199: the call of the generator. *)
Definition generation (w : World) (req : Request) : Generation :=
  let useOpenRouter := truthy (OPENROUTER_API_KEY (env w)) in
  {| apiKey :=
       if useOpenRouter then or_default (OPENROUTER_API_KEY (env w)) []
       else or_default (OPENAI_API_KEY (env w)) [];
     baseURL :=
       if useOpenRouter then Some (lit "https://openrouter.ai/api/v1") else None;
     modelName :=
       if useOpenRouter
       then or_default (OPENROUTER_MODEL (env w)) (lit "openai/gpt-4o-mini")
       else lit "gpt-4o-mini";
     prompt_language := languageLabel (nullish_default (language req) (lit "en"));
     prompt_title := or_default (title req) (lit "Article");
     prompt_content := or_default (content req) [] |}.

(** Lines 239-287: the lines enqueued by [start]. *)
Definition streamLines (useOpenRouter : bool) (r : Streamed) : list Line :=
  map Partial (partialObjectStream r)
    ++ match stream_end r with
       | Some error => [ErrorLine (errorMessage useOpenRouter error)]
       | None =>
           match object r with
           | inr finalObject => [Complete finalObject]
           | inl error => [ErrorLine (errorMessage useOpenRouter error)]
           end
       end.

(** Lines 23-302: [POST].  The 500 reply of the outer [catch] answers a
    body that is not JSON, which is outside this embedding. *)
Definition POST (w : World) (req : Request) : Response :=
  if negb (truthy (content req)) then
    Json (mkError 400 (lit "Content is required"))
  else if negb (truthy (OPENROUTER_API_KEY (env w))) && negb (truthy (OPENAI_API_KEY (env w)))
  then
    Json (mkError 500
            (lit "Either OPENROUTER_API_KEY or OPENAI_API_KEY must be configured"))
  else
    let useOpenRouter := truthy (OPENROUTER_API_KEY (env w)) in
    match streamObject w (generation w req) with
    | inl apiError => Stream [ErrorLine (errorMessage useOpenRouter apiError)]
    | inr result => Stream (streamLines useOpenRouter result)
    end.

Definition is_partial (l : Line) : bool :=
  match l with
  | Partial _ => true
  | _ => false
  end.

End GeneratePodcast.

(** ** The scrape route (scrape/route.ts, lines 1-71) *)

Module Scrape.

Record Request : Type := mkRequest {
  url : option jsstring
}.

(** The members the handler reads of the scraped document. *)
Record Metadata : Type := mkMetadata {
  meta_title : option jsstring;
  sourceURL : option jsstring
}.

Record Document : Type := mkDocument {
  markdown : option jsstring;
  metadata : option Metadata
}.

(** [new Firecrawl({ apiKey }).scrape(url, ...)]. *)
Inductive Event : Type :=
| FirecrawlScrape (apiKey url : jsstring).

Record World : Type := mkWorld {
  FIRECRAWL_API_KEY : option jsstring;
  scrape : jsstring -> jsstring -> outcome Document
}.

Record Scraped : Type := mkScraped {
  scraped_content : jsstring;
  scraped_title : jsstring;
  scraped_url : jsstring
}.

Inductive Response : Type :=
| Ok200 (body : Scraped)
| Failed (reply : ErrorReply).

Definition member {A} (f : Metadata -> option A) (m : option Metadata) : option A :=
  match m with
  | Some m => f m
  | None => None
  end.

(** Lines 4-71: [POST]. *)
Definition POST (w : World) (req : Request) : M Event Response :=
  try_catch
    (if negb (truthy (url req)) then
       ret (Failed (mkError 400 (lit "URL is required")))
     else if negb (truthy (FIRECRAWL_API_KEY w)) then
       ret (Failed (mkError 500 (lit "Firecrawl API key not configured")))
     else
       let url := or_default (url req) [] in
       let apiKey := or_default (FIRECRAWL_API_KEY w) [] in
       result <- call (FirecrawlScrape apiKey url) (scrape w apiKey url) ;;
       let markdown := or_default (markdown result) [] in
       if negb (truthy (Some markdown)) || (length markdown <? 10)%nat then
         ret (Failed (mkError 500
                (lit "Failed to extract content from URL. Error: No meaningful content found")))
       else
         ret (Ok200 {| scraped_content := markdown;
                       scraped_title :=
                         or_default (member meta_title (metadata result)) (lit "Untitled");
                       scraped_url :=
                         or_default (member sourceURL (metadata result)) url |}))
    (fun error =>
       ret (Failed (mkError 500 (lit "Failed to scrape URL: " ++ message_of error)))).

End Scrape.

(** ** The history kept by the page (the client page, lines 55-121) *)

Module History.

Record HistoryItem : Type := mkItem {
  id : jsstring;
  item_title : jsstring;
  item_filename : jsstring;
  createdAt : jsstring;
  item_size : option Z;
  audioBase64 : option jsstring;
  item_conversation : option (list Approve.Turn)
}.

(** What [localStorage] holds under the history key: nothing (or the
    empty text), a text that is not JSON, the JSON text of a value that
    is not an array, or the JSON text of a list of items, which is
    represented by that list. *)
Inductive Stored : Type :=
| Absent
| Garbage
| NotArray
| Items (history : list HistoryItem).

(** The browser: whether the code runs in one, and whether
    [localStorage.setItem] accepts the text of a list. *)
Record World : Type := mkWorld {
  has_window : bool;
  setItem_accepts : list HistoryItem -> bool
}.

(** [a.slice(-n)]: the last [n] elements. *)
Definition slice_last {A} (n : nat) (a : list A) : list A :=
  skipn (length a - n) a.

(** Lines 85-94: [loadHistory]; [None] is a value that is not an array,
    which [JSON.parse] hands over as it is. *)
Definition loadHistory (w : World) (st : Stored) : option (list HistoryItem) :=
  if negb (has_window w) then Some []
  else match st with
       | Items history => Some history
       | NotArray => None
       | Absent | Garbage => Some []
       end.

(** [{ ...item, audioBase64: undefined }] *)
Definition withoutAudio (item : HistoryItem) : HistoryItem :=
  {| id := id item; item_title := item_title item; item_filename := item_filename item;
     createdAt := createdAt item; item_size := item_size item; audioBase64 := None;
     item_conversation := item_conversation item |}.

(** Lines 96-115: the store after [saveHistory(history)]. *)
Definition saveHistory (w : World) (history : list HistoryItem) (st : Stored) : Stored :=
  if negb (has_window w) then st
  else
    let limitedHistory := slice_last 50 history in
    if setItem_accepts w limitedHistory then Items limitedHistory
    else
      let historyWithoutAudio := map withoutAudio (slice_last 50 history) in
      if setItem_accepts w historyWithoutAudio then Items historyWithoutAudio
      else st.

(** Lines 117-121: [history.unshift(item)] puts the item first, and
    throws on a value that has no such method. *)
Definition addToHistory (w : World) (item : HistoryItem) (st : Stored) : outcome Stored :=
  match loadHistory w st with
  | Some history => inr (saveHistory w (item :: history) st)
  | None => inl TypeError
  end.

End History.

(** ** Scenarios of the further properties *)

Module Scenarios.

Import Examples.

(** A disk that refuses every write. *)
Definition world_disk_full : Approve.World :=
  {| Approve.env := env_url;
     Approve.cwd := lit "/app";
     Approve.new_URL := new_URL;
     Approve.JSON_parse := JSON_parse;
     Approve.base64_decode := base64_decode;
     Approve.createDialogue := fun _ => inr (Approve.DialogueOk audio);
     Approve.fs_access := inr tt;
     Approve.fs_mkdir := inr tt;
     Approve.fs_writeFile := fun _ _ => inl (Error (lit "ENOSPC"));
     Approve.import_minio := inr tt;
     Approve.new_Client := fun _ => inr tt;
     Approve.bucketExists := fun _ => inr true;
     Approve.makeBucket := fun _ _ => inr tt;
     Approve.setBucketPolicy := fun _ _ => inr tt;
     Approve.putObject := fun _ _ _ _ => inr tt;
     Approve.getBucketPolicy := fun _ => inr public_policy_text;
     Approve.presignedGetObject := fun _ _ _ => inr (lit "https://host:9443/signed") |}.

(** The request of the examples with the empty title. *)
Definition request_untitled : Approve.Request :=
  {| Approve.jobId := Some job;
     Approve.conversation := Some turns;
     Approve.title := Some [];
     Approve.voice1 := None;
     Approve.voice2 := None;
     Approve.uploadToMinIO := Some true |}.

(** A request whose job id climbs out of the archive directory. *)
Definition request_escape : Approve.Request :=
  {| Approve.jobId := Some (lit "/../../evil");
     Approve.conversation := Some turns;
     Approve.title := Some (lit "My Podcast!");
     Approve.voice1 := None;
     Approve.voice2 := None;
     Approve.uploadToMinIO := None |}.

(** A store that hands back the policy the helper installed: the text
    stands for [JSON.stringify] of that policy, and parses to it. *)
Definition installed_policy_text : jsstring := lit "installed".

Definition world_echo : Approve.World :=
  {| Approve.env := env_url;
     Approve.cwd := lit "/app";
     Approve.new_URL := new_URL;
     Approve.JSON_parse := fun s =>
       if str_eqb s installed_policy_text then inr (publicPolicy (lit "podcast"))
       else inl (Error (lit "SyntaxError"));
     Approve.base64_decode := base64_decode;
     Approve.createDialogue := fun _ => inr (Approve.DialogueOk audio);
     Approve.fs_access := inr tt;
     Approve.fs_mkdir := inr tt;
     Approve.fs_writeFile := fun _ _ => inr tt;
     Approve.import_minio := inr tt;
     Approve.new_Client := fun _ => inr tt;
     Approve.bucketExists := fun _ => inr true;
     Approve.makeBucket := fun _ _ => inr tt;
     Approve.setBucketPolicy := fun _ _ => inr tt;
     Approve.putObject := fun _ _ _ _ => inr tt;
     Approve.getBucketPolicy := fun _ => inr installed_policy_text;
     Approve.presignedGetObject := fun _ _ _ => inr (lit "https://host:9443/signed") |}.

(** A policy whose only statement allows the bare wildcard. *)
Definition wildcard_statement : JSON :=
  JObject [ (lit "Effect", JString (lit "Allow"));
            (lit "Principal", JString (lit "*")) ].

(** An archive directory in which the artifact of job [job_12] is
    listed before that of job [job_1]. *)
Definition collision_archive : list (jsstring * bytes) :=
  [ (lit "My_Podcast__job_12.mp3", [65; 66; 67]);
    (lit "Other_job_1.mp3", [1; 2]) ].

Definition collision_world : Download.World :=
  {| Download.readdir := inr (map fst collision_archive);
     Download.readFile := fun name => file_content name collision_archive |}.

(** The archive directory [/app/archive] with two audio files and the
    metadata of one of them; the clock at 1700000000000. *)
Definition archive_stats : list (jsstring * Archive.Stats) :=
  [ (lit "/app/archive/old_1.mp3",
     {| Archive.size := 3; Archive.birthtime := 1000; Archive.mtime := 1500 |});
    (lit "/app/archive/new_2.mp3",
     {| Archive.size := 4; Archive.birthtime := 2000; Archive.mtime := 2000 |}) ].

Fixpoint stat_of (path : jsstring) (table : list (jsstring * Archive.Stats))
  : outcome Archive.Stats :=
  match table with
  | [] => inl (Error (lit "ENOENT"))
  | (p, st) :: rest => if str_eqb path p then inr st else stat_of path rest
  end.

Definition archive_world : Archive.World :=
  {| Archive.archiveDir := lit "/app/archive";
     Archive.base64_decode := base64_decode;
     Archive.Date_now := 1700000000000;
     Archive.Date_toISOString := lit "2023-11-14T22:13:20.000Z";
     Archive.fs_access := fun _ => inr tt;
     Archive.fs_mkdir := fun _ => inr tt;
     Archive.fs_readdir := fun _ =>
       inr [lit "old_1.mp3"; lit "new_2.json"; lit "new_2.mp3"];
     Archive.fs_stat := fun path => stat_of path archive_stats;
     Archive.fs_readFile := fun _ => inr [65; 66; 67];
     Archive.fs_writeFile := fun _ _ => inr tt;
     Archive.fs_unlink := fun _ => inr tt |}.

Definition save_request : Archive.SaveRequest :=
  {| Archive.audioBase64 := Some (lit "data:audio/mpeg;base64,QUJD");
     Archive.title := Some (lit "My Podcast!");
     Archive.conversation := None |}.

(** The connection test in the environment of [world_not_a_url]. *)
Definition test_world : TestMinio.World :=
  {| TestMinio.env := env_not_a_url;
     TestMinio.new_URL := new_URL;
     TestMinio.import_minio := inr tt;
     TestMinio.new_Client := fun _ => inr tt;
     TestMinio.listBuckets := inr [lit "podcast"];
     TestMinio.bucketExists := fun _ => inr true;
     TestMinio.makeBucket := fun _ _ => inr tt;
     TestMinio.Date_now := 1700000000000;
     TestMinio.putObject := fun _ _ _ _ => inr tt;
     TestMinio.presignedGetObject := fun _ _ _ => inr (lit "https://x/signed");
     TestMinio.removeObject := fun _ _ => inr tt |}.

(** A browser whose storage accepts everything, and a history of fifty
    items. *)
Definition browser : History.World :=
  {| History.has_window := true;
     History.setItem_accepts := fun _ => true |}.

Definition history_item (id : string) : History.HistoryItem :=
  {| History.id := lit id;
     History.item_title := lit "My Podcast!";
     History.item_filename := lit "My_Podcast__1.mp3";
     History.createdAt := lit "2023-11-14T22:13:20.000Z";
     History.item_size := Some 3%Z;
     History.audioBase64 := None;
     History.item_conversation := None |}.

Definition full_history : list History.HistoryItem := repeat (history_item "old") 50.

End Scenarios.

(* ================================================================== *)
(** * Part II: properties                                              *)
(* ================================================================== *)

(** ** Strings *)

Section StringFacts.

Lemma str_eqb_eq (a b : jsstring) : str_eqb a b = true <-> a = b.
Proof.
  revert b; induction a as [|x a IH]; intros [|y b]; simpl; split; intro H;
    try reflexivity; try discriminate.
  - apply andb_true_iff in H as [Hx Hr].
    apply N.eqb_eq in Hx. apply IH in Hr. now subst.
  - injection H as -> ->. rewrite N.eqb_refl. simpl. now apply IH.
Qed.

Lemma str_eqb_refl (a : jsstring) : str_eqb a a = true.
Proof. now apply str_eqb_eq. Qed.

Lemma startsWith_app (s p : jsstring) :
  startsWith s p = true <-> exists r, s = p ++ r.
Proof.
  revert s; induction p as [|c p IH]; intros s; simpl.
  - split; [intros _; now exists s | reflexivity].
  - destruct s as [|d s].
    + split; [discriminate | intros [r Hr]; discriminate].
    + rewrite andb_true_iff, N.eqb_eq, IH. split.
      * intros [-> [r ->]]. now exists r.
      * intros [r Hr]. injection Hr as -> ->. split; [reflexivity | now exists r].
Qed.

(** [includes] is the substring relation. *)
Lemma includes_app (s t : jsstring) :
  includes s t = true <-> exists a b, s = a ++ t ++ b.
Proof.
  induction s as [|c s IH].
  - simpl. rewrite orb_false_r, startsWith_app. split.
    + intros [r Hr]. now exists [], r.
    + intros [a [b H]]. destruct a; simpl in H.
      * now exists b.
      * discriminate.
  - cbn [includes]. rewrite orb_true_iff, IH, startsWith_app. split.
    + intros [[r Hr] | [a [b H]]].
      * now exists [], r.
      * exists (c :: a), b. simpl. now rewrite H.
    + intros [[|x a] [b H]]; simpl in H.
      * left. now exists b.
      * right. injection H as _ ->. now exists a, b.
Qed.

Lemma endsWith_app (s t : jsstring) :
  endsWith s t = true <-> exists a, s = a ++ t.
Proof.
  unfold endsWith. rewrite andb_true_iff, Nat.leb_le, str_eqb_eq. split.
  - intros [Hle Hs]. exists (firstn (length s - length t) s).
    transitivity (firstn (length s - length t) s ++ skipn (length s - length t) s).
    + symmetry. apply firstn_skipn.
    + now rewrite Hs.
  - intros [a ->]. rewrite length_app. split; [lia|].
    replace (length a + length t - length t)%nat with (length a + 0)%nat by lia.
    rewrite skipn_app, Nat.add_0_r, skipn_all.
    replace (length a - length a)%nat with 0%nat by lia. reflexivity.
Qed.

Lemma forallb_firstn {A} (p : A -> bool) (n : nat) (l : list A) :
  forallb p l = true -> forallb p (firstn n l) = true.
Proof.
  revert n; induction l as [|x l IH]; intros [|n] H; simpl in *; try reflexivity.
  apply andb_true_iff in H as [Hx Hl]. rewrite Hx. simpl. now apply IH.
Qed.

Lemma forallb_skipn {A} (p : A -> bool) (n : nat) (l : list A) :
  forallb p l = true -> forallb p (skipn n l) = true.
Proof.
  revert n; induction l as [|x l IH]; intros [|n] H; simpl in *; try reflexivity.
  - exact H.
  - apply andb_true_iff in H as [_ Hl]. now apply IH.
Qed.

Lemma forallb_weaken {A} (p q : A -> bool) (l : list A) :
  (forall x, p x = true -> q x = true) -> forallb p l = true -> forallb q l = true.
Proof.
  intros Hpq. induction l as [|x l IH]; [reflexivity|]. cbn [forallb].
  intros H. apply andb_true_iff in H as [Hx Hl]. now rewrite (Hpq x Hx), IH.
Qed.

End StringFacts.

(** ** Filename derivation *)

Section FilenameFacts.

Import Filename.

Lemma replace_non_alnum_chars (s : jsstring) :
  forallb slug_char (replace_non_alnum s) = true.
Proof.
  induction s as [|c s IH]; simpl; [reflexivity|].
  rewrite IH, andb_true_r. unfold slug_char.
  destruct (is_alnum c) eqn:E; [now rewrite E | now rewrite N.eqb_refl, orb_true_r].
Qed.

Lemma sanitize_chars (t : jsstring) : forallb slug_char (sanitize t) = true.
Proof. apply forallb_firstn, replace_non_alnum_chars. Qed.

Lemma sanitize_length (t : jsstring) : (length (sanitize t) <= 50)%nat.
Proof. apply firstn_le_length. Qed.

Lemma replace_non_alnum_fixed (s : jsstring) :
  forallb slug_char s = true -> replace_non_alnum s = s.
Proof.
  induction s as [|c s IH]; simpl; [reflexivity|].
  intros H. apply andb_true_iff in H as [Hc Hs]. rewrite (IH Hs). f_equal.
  destruct (is_alnum c) eqn:E; [reflexivity|].
  unfold slug_char in Hc. rewrite E in Hc. simpl in Hc.
  apply N.eqb_eq in Hc. now subst.
Qed.

(** Sanitizing a slug changes nothing. *)
Lemma sanitize_fixed (s : jsstring) :
  forallb slug_char s = true -> (length s <= 50)%nat -> sanitize s = s.
Proof.
  intros Hc Hl. unfold sanitize, substring_to.
  rewrite (replace_non_alnum_fixed s Hc). now apply firstn_all2.
Qed.

Lemma sanitize_idempotent (t : jsstring) : sanitize (sanitize t) = sanitize t.
Proof. apply sanitize_fixed; [apply sanitize_chars | apply sanitize_length]. Qed.

Lemma sanitize_nonempty (c : N) (t : jsstring) : sanitize (c :: t) <> [].
Proof. discriminate. Qed.

Lemma or_default_nonempty (s d : jsstring) : s <> [] -> or_default (Some s) d = s.
Proof. destruct s; [congruence | reflexivity]. Qed.

Lemma safeTitle_nonempty (title : option jsstring) : safeTitle title <> [].
Proof.
  unfold safeTitle. destruct title as [[|c t]|]; simpl or_default;
    try apply sanitize_nonempty; discriminate.
Qed.

(** C5. The title sanitization is a total function, and for every title
    (absent, empty or any string) and every job id: the slug consists of
    ASCII letters, digits and underscores only; it has at most 50 code
    units; sanitizing the slug again gives the slug; and the filename is
    the slug followed by ["_"], the job id and [".mp3"].  This holds for
    the local write (line 68) and for the upload helper (line 187). *)
Theorem C5_sanitize_total_idempotent :
  forall (title : option jsstring) (jobId : jsstring),
    (forallb slug_char (safeTitle title) = true /\
     (length (safeTitle title) <= 50)%nat /\
     safeTitle (Some (safeTitle title)) = safeTitle title /\
     filename title jobId = safeTitle title ++ lit "_" ++ jobId ++ lit ".mp3") /\
    (forallb slug_char (safeTitle_upload title) = true /\
     (length (safeTitle_upload title) <= 50)%nat /\
     safeTitle_upload (Some (safeTitle_upload title)) = safeTitle_upload title /\
     filename_upload title jobId = safeTitle_upload title ++ lit "_" ++ jobId ++ lit ".mp3").
Proof.
  intros title jobId. split.
  - repeat split.
    + apply sanitize_chars.
    + apply sanitize_length.
    + unfold safeTitle at 1.
      rewrite (or_default_nonempty _ (safeTitle_nonempty title)).
      apply sanitize_idempotent.
  - repeat split.
    + apply sanitize_chars.
    + apply sanitize_length.
    + unfold safeTitle_upload at 1. simpl nullish_default.
      apply sanitize_idempotent.
Qed.

End FilenameFacts.

(** ** The handler monad *)

Section MonadFacts.

Context {Event : Type}.

Lemma result_ret {A} (a : A) : result (@ret Event A a) = inr a.
Proof. reflexivity. Qed.

Lemma bind_ok {A B} (m : M Event A) (k : A -> M Event B) (t : list Event) (a : A) :
  m = (t, inr a) -> bind m k = (t ++ trace (k a), result (k a)).
Proof. intros ->. simpl. now destruct (k a). Qed.

Lemma bind_throw {A B} (m : M Event A) (k : A -> M Event B) (t : list Event) (e : exn) :
  m = (t, inl e) -> bind m k = (t, inl e).
Proof. now intros ->. Qed.

Lemma try_catch_ok {A} (m : M Event A) (h : exn -> M Event A) (t : list Event) (a : A) :
  m = (t, inr a) -> try_catch m h = (t, inr a).
Proof. now intros ->. Qed.

Lemma try_catch_throw {A} (m : M Event A) (h : exn -> M Event A) (t : list Event) (e : exn) :
  m = (t, inl e) -> try_catch m h = (t ++ trace (h e), result (h e)).
Proof. intros ->. simpl. now destruct (h e). Qed.

(** A handler that only returns makes [try_catch] total. *)
Lemma try_catch_ret_total {A} (m : M Event A) (d : exn -> A) :
  exists a, result (try_catch m (fun e => ret (d e))) = inr a.
Proof. destruct m as [t [e|a]]; simpl; eauto. Qed.

Lemma surjective_run {A} (m : M Event A) : m = (trace m, result m).
Proof. now destruct m. Qed.

End MonadFacts.

(** ** The approve stage *)

Section ApproveFacts.

Import Approve.

Arguments lit : simpl never.
Arguments Filename.filename_of : simpl never.
Arguments Filename.sanitize : simpl never.
Arguments publicUrl : simpl never.
Arguments publicPolicy : simpl never.
Arguments base64Data : simpl never.
Arguments parseEndpoint : simpl never.
Arguments dialogueInputs : simpl never.
Arguments or_default : simpl never.
Arguments nullish_default : simpl never.
Arguments truthy : simpl never.

Variable w : World.

Lemma outcome_unit (r : outcome unit) : (exists e, r = inl e) \/ r = inr tt.
Proof. destruct r as [e|[]]; eauto. Qed.

(** *** The URL issued for a stored object *)

Lemma generateUrl_public (t : Target) (b f : jsstring) :
  readPolicy w b = PolicyPublic ->
  generateUrl w t b f = ([GetBucketPolicy b], inr (publicUrl t b f)).
Proof.
  unfold readPolicy, generateUrl. intros H.
  destruct (getBucketPolicy w b) as [e|p]; [discriminate|]. simpl.
  destruct (JSON_parse w p) as [e|o]; [discriminate|]. simpl.
  destruct (isPublic o) as [e|[|]]; try discriminate. reflexivity.
Qed.

Lemma generateUrl_unreadable (t : Target) (b f : jsstring) :
  readPolicy w b = PolicyUnreadable ->
  generateUrl w t b f = ([GetBucketPolicy b], inr (publicUrl t b f)).
Proof.
  unfold readPolicy, generateUrl. intros H.
  destruct (getBucketPolicy w b) as [e|p]; [reflexivity|]. simpl.
  destruct (JSON_parse w p) as [e|o]; [reflexivity|]. simpl.
  destruct (isPublic o) as [e|[|]]; try discriminate. reflexivity.
Qed.

Lemma generateUrl_private (t : Target) (b f : jsstring) :
  readPolicy w b = PolicyPrivate ->
  generateUrl w t b f =
    ([GetBucketPolicy b; PresignedGetObject b f 604800],
     inr match presignedGetObject w b f 604800 with
         | inr signed => signed
         | inl _ => publicUrl t b f
         end).
Proof.
  unfold readPolicy, generateUrl. intros H.
  destruct (getBucketPolicy w b) as [e|p]; [discriminate|]. simpl.
  destruct (JSON_parse w p) as [e|o]; [discriminate|]. simpl.
  destruct (isPublic o) as [e|[|]]; try discriminate. simpl.
  change presign_expiry with 604800%Z.
  destruct (presignedGetObject w b f 604800) as [e|s]; reflexivity.
Qed.

Lemma generateUrl_total (t : Target) (b f : jsstring) :
  exists u, result (generateUrl w t b f) = inr u.
Proof.
  destruct (readPolicy w b) eqn:E.
  - rewrite generateUrl_public by exact E. eexists; reflexivity.
  - rewrite generateUrl_private by exact E. eexists; reflexivity.
  - rewrite generateUrl_unreadable by exact E. eexists; reflexivity.
Qed.

(** *** The upload helper *)

Lemma upload_total (audio title jobId : jsstring) :
  exists r, result (uploadToMinIOStorage w audio title jobId) = inr r.
Proof. unfold uploadToMinIOStorage. apply try_catch_ret_total. Qed.

(** When the object is stored the helper succeeds with the issued URL. *)
Ltac run := cbn [bind try_catch call ret pure_call negb orb andb fst snd app trace result].

Lemma upload_stored (audio title jobId : jsstring) :
  stored w audio title jobId ->
  let b := bucketName w in
  let f := Filename.filename_of (Filename.sanitize title) jobId in
  let data := base64_decode w (base64Data audio) in
  exists u,
    result (generateUrl w (parseEndpoint w) b f) = inr u /\
    uploadToMinIOStorage w audio title jobId =
      ([MinioImport; MinioClient (clientParams w); BucketExists b]
         ++ match bucketExists w b with
            | inr true => []
            | _ => [MakeBucket b (lit "us-east-1")]
            end
         ++ [SetBucketPolicy b (publicPolicy b); PutObject b f data (length data)]
         ++ trace (generateUrl w (parseEndpoint w) b f),
       inr {| upload_success := true; url := Some u; upload_error := None |}).
Proof.
  intros (Hi & Hak & Hsk & Hc & Hb & Hp). cbv zeta.
  destruct (generateUrl_total (parseEndpoint w) (bucketName w)
              (Filename.filename_of (Filename.sanitize title) jobId)) as [u Hu].
  exists u. split; [exact Hu|].
  unfold uploadToMinIOStorage, clientParams, bucketName in *.
  rewrite Hi, Hak, Hsk. run. rewrite Hc. run.
  destruct (generateUrl w (parseEndpoint w)
              (or_default (MINIO_BUCKET_NAME (env w)) (lit "podcast"))
              (Filename.filename_of (Filename.sanitize title) jobId)) as [tr r].
  cbn [result snd] in Hu. subst r.
  destruct Hb as [Hb | [Hb Hm]]; rewrite Hb; run; try (rewrite Hm; run).
  all: destruct (setBucketPolicy w _ _) as [e'|[]]; run; rewrite Hp; run.
  all: rewrite ?app_nil_r; reflexivity.
Qed.

(** When an unguarded step fails the helper reports failure, without a URL. *)
Lemma upload_fails (audio title jobId : jsstring) :
  upload_step_fails w audio title jobId ->
  exists r,
    result (uploadToMinIOStorage w audio title jobId) = inr r /\
    upload_success r = false /\
    forallb (fun ev => negb (is_presign ev))
            (trace (uploadToMinIOStorage w audio title jobId)) = true.
Proof.
  intros H.
  unfold upload_step_fails, uploadToMinIOStorage, clientParams, bucketName in *.
  destruct (import_minio w) as [e|[]]; run; [eexists; repeat split|].
  destruct (truthy (MINIO_ACCESS_KEY (env w))); run; [|eexists; repeat split].
  destruct (truthy (MINIO_SECRET_KEY (env w))); run; [|eexists; repeat split].
  destruct (new_Client w _) as [e|[]]; run; [eexists; repeat split|].
  destruct (bucketExists w _) as [e|[|]]; run; [eexists; repeat split| |].
  - destruct (setBucketPolicy w _ _) as [e'|[]]; run.
    all: destruct (putObject w _ _ _ _) as [e|[]]; run; [eexists; repeat split|].
    all: exfalso; decompose [or and ex] H; discriminate.
  - destruct (makeBucket w _ _) as [e|[]]; run; [eexists; repeat split|].
    destruct (setBucketPolicy w _ _) as [e'|[]]; run.
    all: destruct (putObject w _ _ _ _) as [e|[]]; run; [eexists; repeat split|].
    all: exfalso; decompose [or and ex] H; discriminate.
Qed.

Lemma generateUrl_trace_remote (t : Target) (b f : jsstring) :
  forallb is_remote (trace (generateUrl w t b f)) = true.
Proof.
  destruct (readPolicy w b) eqn:E.
  - now rewrite generateUrl_public.
  - now rewrite generateUrl_private.
  - now rewrite generateUrl_unreadable.
Qed.

(** The helper touches nothing but the remote store. *)
Lemma upload_trace_remote (audio title jobId : jsstring) :
  forallb is_remote (trace (uploadToMinIOStorage w audio title jobId)) = true.
Proof.
  unfold uploadToMinIOStorage.
  pose proof (generateUrl_trace_remote (parseEndpoint w)
                (or_default (MINIO_BUCKET_NAME (env w)) (lit "podcast"))
                (Filename.filename_of (Filename.sanitize title) jobId)) as G.
  destruct (generateUrl w _ _ _) as [tr r]. cbn [trace fst] in G.
  destruct (import_minio w) as [e|[]]; run; [reflexivity|].
  destruct (truthy (MINIO_ACCESS_KEY (env w))); run; [|reflexivity].
  destruct (truthy (MINIO_SECRET_KEY (env w))); run; [|reflexivity].
  destruct (new_Client w _) as [e|[]]; run; [reflexivity|].
  destruct (bucketExists w _) as [e|[|]]; run; [reflexivity| |].
  2: destruct (makeBucket w _ _) as [e|[]]; run; [reflexivity|].
  all: destruct (setBucketPolicy w _ _) as [e'|[]]; run.
  all: destruct (putObject w _ _ _ _) as [e|[]]; run; [reflexivity|].
  all: destruct r as [e|u]; run; cbn [forallb is_remote andb];
    rewrite ?app_nil_r; exact G.
Qed.

(** *** The mirror step *)

Lemma mirror_off (req : Request) (audio j : jsstring) :
  uploadToMinIO req <> Some true -> mirror w req audio j = ([], inr None).
Proof.
  unfold mirror. destruct (uploadToMinIO req) as [[|]|]; try reflexivity.
  now intros [].
Qed.

Lemma mirror_on (req : Request) (audio j : jsstring) :
  uploadToMinIO req = Some true ->
  exists r,
    result (uploadToMinIOStorage w audio (nullish_default (title req) (lit "podcast")) j)
      = inr r /\
    mirror w req audio j =
      (trace (uploadToMinIOStorage w audio (nullish_default (title req) (lit "podcast")) j),
       inr (if upload_success r then url r else None)).
Proof.
  intros Hup. unfold mirror. rewrite Hup.
  destruct (upload_total audio (nullish_default (title req) (lit "podcast")) j) as [r Hr].
  exists r. split; [exact Hr|].
  destruct (uploadToMinIOStorage w audio _ j) as [tr o].
  cbn [result snd] in Hr. subst o. run.
  destruct (upload_success r); run; now rewrite app_nil_r.
Qed.

Lemma mirror_total (req : Request) (audio j : jsstring) :
  exists m, result (mirror w req audio j) = inr m.
Proof.
  destruct (uploadToMinIO req) as [[|]|] eqn:E.
  - destruct (mirror_on req audio j E) as (r & _ & ->). eexists; reflexivity.
  - rewrite mirror_off by congruence. eexists; reflexivity.
  - rewrite mirror_off by congruence. eexists; reflexivity.
Qed.

Lemma mirror_trace_remote (req : Request) (audio j : jsstring) :
  forallb is_remote (trace (mirror w req audio j)) = true.
Proof.
  destruct (uploadToMinIO req) as [[|]|] eqn:E.
  - destruct (mirror_on req audio j E) as (r & _ & ->). apply upload_trace_remote.
  - now rewrite mirror_off by congruence.
  - now rewrite mirror_off by congruence.
Qed.

(** *** The handler *)

Lemma truthy_some (s : jsstring) : s <> [] -> truthy (Some s) = true.
Proof. destruct s; [congruence | reflexivity]. Qed.

Lemma POST_local_ok (req : Request) (conv : list Turn) (j audio : jsstring) :
  local_ok w req conv j audio ->
  exists m,
    result (mirror w req audio j) = inr m /\
    POST w req =
      (local_trace w req conv j audio ++ trace (mirror w req audio j),
       inr (Ok200
              {| success := true;
                 approved_jobId := j;
                 downloadUrl := or_default m (localDownloadUrl w j);
                 minioUrl := m;
                 approved_filename := Filename.filename (title req) j;
                 message := lit "Audio generated successfully" |})).
Proof.
  intros (Hconv & Hne & Hj & Hjne & Hd & Hdir & Hw).
  destruct (mirror_total req audio j) as [m Hm]. exists m. split; [exact Hm|].
  unfold POST, local_trace, ensureArchiveDir. rewrite Hconv, Hj.
  destruct conv as [|turn conv]; [congruence|].
  rewrite (truthy_some Hjne), (or_default_nonempty _ Hjne). run.
  rewrite Hd. run.
  destruct (mirror w req audio j) as [tr o]. cbn [result snd] in Hm. subst o.
  destruct Hdir as [Ha | [[e Ha] Hmk]]; rewrite Ha; run; try (rewrite Hmk; run).
  all: rewrite Hw; run; now rewrite ?app_nil_r.
Qed.


Lemma POST_ok_inv (req : Request) (body : Approved) :
  result (POST w req) = inr (Ok200 body) ->
  exists conv j audio, local_ok w req conv j audio.
Proof.
  unfold POST, local_ok, ensureArchiveDir.
  destruct (conversation req) as [[|turn conv]|] eqn:Hc; run; try discriminate.
  destruct (jobId req) as [[|c j]|] eqn:Hj; unfold truthy; run; try discriminate.
  unfold or_default at 1 2 3.
  destruct (createDialogue w _) as [e|[audio|err]] eqn:Hd; run; try discriminate.
  destruct (mirror_total req audio (c :: j)) as [m Hm].
  destruct (mirror w req audio (c :: j)) as [tr o]. cbn [result snd] in Hm. subst o.
  destruct (fs_access w) as [e|[]] eqn:Ha; run.
  - destruct (fs_mkdir w) as [e'|[]] eqn:Hmk; run; try discriminate.
    destruct (fs_writeFile w _ _) as [e'|[]] eqn:Hw; run; try discriminate.
    intros _. exists (turn :: conv), (c :: j), audio.
    repeat split; try discriminate; eauto.
  - destruct (fs_writeFile w _ _) as [e'|[]] eqn:Hw; run; try discriminate.
    intros _. exists (turn :: conv), (c :: j), audio.
    repeat split; try discriminate; eauto.
Qed.

(** Without an upload request the handler never touches the store. *)
Lemma POST_trace_local (req : Request) :
  uploadToMinIO req <> Some true ->
  forallb (fun ev => negb (is_remote ev)) (trace (POST w req)) = true.
Proof.
  intros Hup. unfold POST, ensureArchiveDir.
  destruct (conversation req) as [[|turn conv]|]; run; try reflexivity.
  destruct (truthy (jobId req)); run; try reflexivity.
  destruct (createDialogue w _) as [e|[audio|err]]; run; try reflexivity.
  rewrite mirror_off by exact Hup.
  destruct (fs_access w) as [e|[]]; run.
  - destruct (fs_mkdir w) as [e'|[]]; run; try reflexivity.
    destruct (fs_writeFile w _ _) as [e'|[]]; run; reflexivity.
  - destruct (fs_writeFile w _ _) as [e'|[]]; run; reflexivity.
Qed.

Lemma local_trace_local (req : Request) (conv : list Turn) (j audio : jsstring) :
  forallb (fun ev => negb (is_remote ev)) (local_trace w req conv j audio) = true.
Proof. unfold local_trace. now destruct (fs_access w). Qed.

Lemma filter_local_then_remote (l r : list Event) :
  forallb (fun ev => negb (is_remote ev)) l = true ->
  forallb is_remote r = true ->
  filter (fun ev => negb (is_remote ev)) (l ++ r) = l.
Proof.
  intros Hl Hr. rewrite filter_app.
  replace (filter (fun ev => negb (is_remote ev)) r) with (@nil Event).
  - rewrite app_nil_r. induction l as [|x l IH]; simpl in *; [reflexivity|].
    apply andb_true_iff in Hl as [Hx Hl]. rewrite Hx. now rewrite IH.
  - induction r as [|x r IH]; simpl in *; [reflexivity|].
    apply andb_true_iff in Hr as [Hx Hr]. rewrite Hx. simpl. now apply IH.
Qed.

Lemma includes_localDownloadUrl (j : jsstring) :
  includes (localDownloadUrl w j) j = true.
Proof.
  apply includes_app. unfold localDownloadUrl.
  exists (or_default (NEXT_PUBLIC_APP_URL (env w)) (lit "http://localhost:3000")
            ++ lit "/api/webhook/download/"), [].
  now rewrite app_nil_r, <- app_assoc.
Qed.

(** C2. For every approve call whose request has [uploadToMinIO] absent
    or false: no operation on the remote store is attempted, whatever
    the call's outcome; every success reply has [minioUrl] null and a
    [downloadUrl] that is the local download endpoint, the base URL of
    the application (or [http://localhost:3000]) followed by
    [/api/webhook/download/] and the supplied job id; and the success
    reply is given whenever the request is valid, the synthesis answers
    and the local file is written (the only other replies, the error
    replies, carry neither field). *)
Theorem C2_no_upload_requested (req : Request) :
  uploadToMinIO req = None \/ uploadToMinIO req = Some false ->
  forallb (fun ev => negb (is_remote ev)) (trace (POST w req)) = true /\
  (forall body,
      result (POST w req) = inr (Ok200 body) ->
      exists j,
        jobId req = Some j /\
        minioUrl body = None /\
        downloadUrl body
          = or_default (NEXT_PUBLIC_APP_URL (env w)) (lit "http://localhost:3000")
              ++ lit "/api/webhook/download/" ++ j /\
        includes (downloadUrl body) j = true) /\
  (forall conv j audio,
      local_ok w req conv j audio ->
      exists body, result (POST w req) = inr (Ok200 body)).
Proof.
  intros Hup.
  assert (Hoff : uploadToMinIO req <> Some true) by (destruct Hup as [-> | ->]; discriminate).
  split; [now apply POST_trace_local|]. split.
  - intros body Hbody.
    destruct (POST_ok_inv req Hbody) as (conv & j & audio & Hok).
    destruct (POST_local_ok Hok) as (m & Hm & HP).
    rewrite HP, mirror_off in * by exact Hoff. cbn [result snd] in Hm, Hbody.
    injection Hm as <-. injection Hbody as <-. cbn [minioUrl downloadUrl].
    exists j. destruct Hok as (_ & _ & Hj & _).
    repeat split; try assumption. apply includes_localDownloadUrl.
  - intros conv j audio Hok. destruct (POST_local_ok Hok) as (m & _ & ->).
    eexists. reflexivity.
Qed.


Lemma stored_or_fails (audio title jobId : jsstring) :
  stored w audio title jobId \/ upload_step_fails w audio title jobId.
Proof.
  unfold stored, upload_step_fails.
  destruct (import_minio w) as [e|[]]; [right; eauto|].
  destruct (truthy (MINIO_ACCESS_KEY (env w))); [|right; auto].
  destruct (truthy (MINIO_SECRET_KEY (env w))); [|right; auto].
  destruct (new_Client w _) as [e|[]]; [right; eauto 6|].
  destruct (putObject w _ _ _ _) as [e|[]]; [right; eauto 10|].
  destruct (bucketExists w _) as [e|[|]]; [right; eauto 8 | left; auto 8 |].
  destruct (makeBucket w _ _) as [e|[]]; [right; eauto 10 | left; auto 10].
Qed.

Lemma publicUrl_nonempty (t : Target) (b f : jsstring) : publicUrl t b f <> [].
Proof. unfold publicUrl. destruct (useSSL t); discriminate. Qed.

(** The URL of a successful upload is the direct URL or a signed one. *)
Lemma issued_url (audio title jobId : jsstring) (r : UploadResult) (u : jsstring) :
  result (uploadToMinIOStorage w audio title jobId) = inr r ->
  upload_success r = true -> url r = Some u ->
  u = publicUrl (parseEndpoint w) (bucketName w)
        (Filename.filename_of (Filename.sanitize title) jobId) \/
  presignedGetObject w (bucketName w)
    (Filename.filename_of (Filename.sanitize title) jobId) 604800 = inr u.
Proof.
  intros Hr Hs Hu.
  destruct (stored_or_fails audio title jobId) as [Hst | Hf].
  - destruct (upload_stored Hst) as (u' & Hg & HU). cbv zeta in *.
    rewrite HU in Hr. cbn [result snd] in Hr. injection Hr as <-.
    cbn [url] in Hu. injection Hu as ->.
    destruct (readPolicy w (bucketName w)) eqn:E.
    + rewrite generateUrl_public in Hg by exact E. injection Hg as <-. now left.
    + rewrite generateUrl_private in Hg by exact E. cbn [result snd] in Hg.
      destruct (presignedGetObject w _ _ _) as [e|s]; injection Hg as <-; auto.
    + rewrite generateUrl_unreadable in Hg by exact E. injection Hg as <-. now left.
  - destruct (upload_fails Hf) as (r' & Hr' & Hs' & _). congruence.
Qed.

(** C3. For every approve call with [uploadToMinIO = true] that reaches
    the upload (the request is valid, the synthesis answers and the
    local file is written), whatever the remote store does: the reply
    is the HTTP 200 success reply with [success: true], and the local
    artifact write is unaffected (the local operations, the file
    written and its path are those of the same call without upload).
    When the upload fails, by missing credentials or by an error the
    store raises at the import, at the client, at the bucket check, at
    the bucket creation or at the upload itself, which is exactly when
    the helper reports a failure, [minioUrl] is null and [downloadUrl]
    is the local download endpoint of the job.  An error raised only
    while the bucket policy is set or read back, or while the URL is
    signed, the helper swallows: the object is stored and [minioUrl]
    carries its URL. *)
Theorem C3_remote_failure_is_soft (req : Request) (conv : list Turn) (j audio : jsstring) :
  uploadToMinIO req = Some true ->
  local_ok w req conv j audio ->
  let upload_title := nullish_default (title req) (lit "podcast") in
  exists body,
    result (POST w req) = inr (Ok200 body) /\
    success body = true /\
    approved_filename body = Filename.filename (title req) j /\
    In (FsWriteFile (filePath w (title req) j) (base64_decode w (base64Data audio)))
       (trace (POST w req)) /\
    filter (fun ev => negb (is_remote ev)) (trace (POST w req))
      = trace (POST w (with_upload req None)) /\
    (upload_step_fails w audio upload_title j ->
     minioUrl body = None /\
     downloadUrl body
       = or_default (NEXT_PUBLIC_APP_URL (env w)) (lit "http://localhost:3000")
           ++ lit "/api/webhook/download/" ++ j) /\
    (upload_step_fails w audio upload_title j <->
     exists r, result (uploadToMinIOStorage w audio upload_title j) = inr r /\
               upload_success r = false) /\
    (stored w audio upload_title j ->
     exists u,
       result (generateUrl w (parseEndpoint w) (bucketName w)
                 (Filename.filename_of (Filename.sanitize upload_title) j)) = inr u /\
       minioUrl body = Some u).
Proof.
  intros Hup Hok. cbv zeta.
  assert (Hok' : local_ok w (with_upload req None) conv j audio) by exact Hok.
  destruct (POST_local_ok Hok) as (m & Hm & HP).
  destruct (POST_local_ok Hok') as (m' & _ & HP').
  rewrite HP, HP'. eexists. split; [reflexivity|]. cbn [success approved_filename trace fst].
  split; [reflexivity|]. split; [reflexivity|]. split; [|split; [|split; [|split]]].
  - apply in_or_app. left. unfold local_trace.
    apply in_or_app. right. apply in_or_app. right. now left.
  - rewrite (@mirror_off (with_upload req None)) by discriminate.
    cbn [trace fst]. rewrite app_nil_r.
    apply filter_local_then_remote;
      [apply local_trace_local | apply mirror_trace_remote].
  - intros Hf. cbn [minioUrl downloadUrl].
    destruct (mirror_on req audio j Hup) as (r & Hr & HM).
    destruct (upload_fails Hf) as (r' & Hr' & Hs & _).
    assert (r' = r) by congruence. subst r'.
    rewrite HM in Hm. cbn [result snd] in Hm. rewrite Hs in Hm.
    injection Hm as <-. split; reflexivity.
  - split.
    + intros Hf. destruct (upload_fails Hf) as (r & Hr & Hs & _). now exists r.
    + intros (r & Hr & Hs).
      destruct (stored_or_fails audio (nullish_default (title req) (lit "podcast")) j)
        as [Hst | Hf]; [|exact Hf].
      destruct (upload_stored Hst) as (u & _ & HU). cbv zeta in HU.
      rewrite HU in Hr. cbn [result snd] in Hr. injection Hr as <-. discriminate Hs.
  - intros Hst. cbn [minioUrl].
    destruct (mirror_on req audio j Hup) as (r & Hr & HM).
    destruct (upload_stored Hst) as (u & Hg & HU). cbv zeta in Hg, HU.
    rewrite HU in Hr. cbn [result snd] in Hr. injection Hr as <-.
    rewrite HM in Hm. cbn [result snd upload_success url] in Hm. injection Hm as <-.
    exists u. split; [exact Hg|reflexivity].
Qed.

(** C10. For every approve call that reaches the reply (valid request,
    synthesis answered, local file written): when the remote upload
    succeeds and yields a URL, [minioUrl] is that URL and [downloadUrl]
    equals it; when [minioUrl] is null, [downloadUrl] is the local
    download endpoint of the job; and, the store never signing an empty
    URL, [downloadUrl] is the local download endpoint only in the branch
    in which [minioUrl] is null. *)
Theorem C10_remote_url_preferred (req : Request) (conv : list Turn) (j audio : jsstring) :
  local_ok w req conv j audio ->
  exists body,
    result (POST w req) = inr (Ok200 body) /\
    (forall r u,
        uploadToMinIO req = Some true ->
        result (uploadToMinIOStorage w audio
                  (nullish_default (title req) (lit "podcast")) j) = inr r ->
        upload_success r = true -> url r = Some u -> u <> [] ->
        minioUrl body = Some u /\ downloadUrl body = u) /\
    (minioUrl body = None -> downloadUrl body = localDownloadUrl w j) /\
    ((forall b f e u, presignedGetObject w b f e = inr u -> u <> []) ->
     downloadUrl body =
       match minioUrl body with
       | Some u => u
       | None => localDownloadUrl w j
       end).
Proof.
  intros Hok. destruct (POST_local_ok Hok) as (m & Hm & HP).
  rewrite HP. eexists. split; [reflexivity|]. cbn [minioUrl downloadUrl].
  split; [|split].
  - intros r u Hup Hr Hs Hu Hne.
    destruct (mirror_on req audio j Hup) as (r' & Hr' & HM).
    assert (r' = r) by congruence. subst r'.
    rewrite HM in Hm. cbn [result snd] in Hm. rewrite Hs, Hu in Hm.
    injection Hm as <-. split; [reflexivity | now apply or_default_nonempty].
  - intros ->. reflexivity.
  - intros Hsigned. destruct m as [u|]; [|reflexivity].
    apply or_default_nonempty.
    destruct (uploadToMinIO req) as [[|]|] eqn:Hup.
    2,3: rewrite mirror_off in Hm by congruence; discriminate.
    destruct (mirror_on req audio j Hup) as (r & Hr & HM).
    rewrite HM in Hm. cbn [result snd] in Hm.
    destruct (upload_success r) eqn:Hs; [|discriminate]. injection Hm as Hu.
    destruct (issued_url _ _ _ Hr Hs Hu) as [-> | Hp].
    + apply publicUrl_nonempty.
    + eapply Hsigned, Hp.
Qed.

(** C1, as amended. For every upload in which the object is stored, the
    helper succeeds with a URL that the bucket policy, read again,
    decides: a public policy gives the direct URL
    [protocol://endpoint:port/bucket/filename], without signing; a
    private policy makes the helper ask for a URL signed for 604800
    seconds, which is the URL issued when signing succeeds, the direct
    URL being issued when it fails; and a policy that cannot be read
    (the read throws, the text is not JSON, its inspection throws) gives
    the direct URL, without signing. *)
Theorem C1_url_issuance (audio title jobId : jsstring) :
  stored w audio title jobId ->
  let b := bucketName w in
  let f := Filename.filename_of (Filename.sanitize title) jobId in
  let t := parseEndpoint w in
  exists u,
    result (uploadToMinIOStorage w audio title jobId)
      = inr {| upload_success := true; url := Some u; upload_error := None |} /\
    publicUrl t b f =
      (if useSSL t then lit "https" else lit "http") ++ lit "://" ++ endPoint t
        ++ lit ":" ++ Number_toString (targetPort t) ++ lit "/" ++ b ++ lit "/" ++ f /\
    (readPolicy w b = PolicyPublic ->
     u = publicUrl t b f /\
     existsb is_presign (trace (uploadToMinIOStorage w audio title jobId)) = false) /\
    (readPolicy w b = PolicyPrivate ->
     In (PresignedGetObject b f 604800) (trace (uploadToMinIOStorage w audio title jobId)) /\
     (forall signed, presignedGetObject w b f 604800 = inr signed -> u = signed) /\
     (forall e, presignedGetObject w b f 604800 = inl e -> u = publicUrl t b f)) /\
    (readPolicy w b = PolicyUnreadable ->
     u = publicUrl t b f /\
     existsb is_presign (trace (uploadToMinIOStorage w audio title jobId)) = false).
Proof.
  intros Hst. cbv zeta.
  destruct (upload_stored Hst) as (u & Hg & HU). cbv zeta in *.
  exists u. rewrite HU. cbn [result snd trace fst].
  split; [reflexivity|]. split; [reflexivity|]. split; [|split].
  - intros E. rewrite generateUrl_public in * by exact E.
    injection Hg as <-. split; [reflexivity|].
    now destruct (bucketExists w (bucketName w)) as [?|[|]].
  - intros E. rewrite generateUrl_private in * by exact E.
    cbn [result snd] in Hg. injection Hg as <-. split; [|split].
    + apply in_or_app. right. apply in_or_app. right. apply in_or_app. right.
      cbn [trace fst]. right. now left.
    + now intros signed ->.
    + now intros e ->.
  - intros E. rewrite generateUrl_unreadable in * by exact E.
    injection Hg as <-. split; [reflexivity|].
    now destruct (bucketExists w (bucketName w)) as [?|[|]].
Qed.


(** *** The storage target *)

Lemma parseEndpoint_url (u : URL) :
  includes (or_default (MINIO_ENDPOINT (env w)) (lit "minio2-api.aihub.ovh")) (lit "://") = true ->
  new_URL w (or_default (MINIO_ENDPOINT (env w)) (lit "minio2-api.aihub.ovh")) = inr u ->
  parseEndpoint w = urlTarget u.
Proof. intros Hi Hu. unfold parseEndpoint. now rewrite Hi, Hu. Qed.

(** C4, as amended. The storage target obeys this precedence.  When the
    configured endpoint contains ["://"] and parses as a URL, host name,
    port and TLS flag come from the URL alone: TLS is on exactly when
    the scheme is [https], the port is the URL's port or, if the URL has
    none, 443 for [https] and 80 otherwise, and the configured port and
    TLS values have no influence.  When the endpoint contains ["://"]
    but does not parse, the configured endpoint, port and TLS flag are
    used as they are.  When the endpoint contains no ["://"], the
    configured fields are used, with TLS forced on when the port is 443. *)
Theorem C4_target_precedence :
  let e := or_default (MINIO_ENDPOINT (env w)) (lit "minio2-api.aihub.ovh") in
  let p := parseInt (or_default (MINIO_PORT (env w)) (lit "443")) in
  let s := match MINIO_USE_SSL (env w) with
           | Some v => str_eqb v (lit "true")
           | None => false
           end in
  (includes e (lit "://") = true ->
   forall u, new_URL w e = inr u ->
     endPoint (parseEndpoint w) = hostname u /\
     (useSSL (parseEndpoint w) = true <-> protocol u = lit "https:") /\
     (port u <> [] -> targetPort (parseEndpoint w) = parseInt (port u)) /\
     (port u = [] -> protocol u = lit "https:" -> targetPort (parseEndpoint w) = Int 443) /\
     (port u = [] -> protocol u <> lit "https:" -> targetPort (parseEndpoint w) = Int 80) /\
     (forall w' : World,
         MINIO_ENDPOINT (env w') = MINIO_ENDPOINT (env w) ->
         new_URL w' e = inr u ->
         parseEndpoint w' = parseEndpoint w)) /\
  (includes e (lit "://") = true ->
   forall err, new_URL w e = inl err ->
     parseEndpoint w = {| endPoint := e; targetPort := p; useSSL := s |}) /\
  (includes e (lit "://") = false ->
   parseEndpoint w = {| endPoint := e; targetPort := p; useSSL := s || number_eqb p (Int 443) |} /\
   (p = Int 443 -> useSSL (parseEndpoint w) = true)).
Proof.
  cbv zeta. split; [|split].
  - intros Hi u Hu. rewrite (parseEndpoint_url Hi Hu).
    unfold urlTarget. cbn [endPoint useSSL targetPort].
    split; [reflexivity|]. split; [apply str_eqb_eq|].
    split; [|split; [|split]].
    + destruct (port u); [congruence | reflexivity].
    + intros -> Hs. apply str_eqb_eq in Hs. now rewrite Hs.
    + intros -> Hs. destruct (str_eqb (protocol u) (lit "https:")) eqn:E; [|reflexivity].
      apply str_eqb_eq in E. contradiction.
    + intros w' He Hu'. unfold parseEndpoint. rewrite He, Hi, Hu'. reflexivity.
  - intros Hi err Hu. unfold parseEndpoint. now rewrite Hi, Hu.
  - intros Hi. unfold parseEndpoint. rewrite Hi. split.
    + destruct (number_eqb _ (Int 443)); [|now rewrite orb_false_r].
      now rewrite orb_true_r.
    + intros Hp. rewrite Hp. reflexivity.
Qed.

(** *** The synthesis request *)

Lemma dialogueInputs_nth (v1 v2 : option jsstring) (conv : list Turn) (i : nat) (turn : Turn) :
  nth_error conv i = Some turn ->
  nth_error (dialogueInputs v1 v2 conv) i =
    Some {| input_text := text turn;
            voiceId := if str_eqb (speaker turn) (lit "Speaker1")
                       then or_default v1 default_voice1
                       else or_default v2 default_voice2 |}.
Proof.
  intros H. unfold dialogueInputs. cbv zeta. rewrite nth_error_map, H. reflexivity.
Qed.

Lemma POST_total (req : Request) : exists reply, result (POST w req) = inr reply.
Proof. unfold POST. apply try_catch_ret_total. Qed.

(** C9. The synthesis request of the approve stage has one
    [(text, voiceId)] pair per conversation turn, in the order of the
    turns; the pair of a turn has the turn's text, the voice1 identifier
    (supplied or default) when the speaker tag is exactly ["Speaker1"],
    and the voice2 identifier for every other tag.  No tag is rejected:
    a conversation with at least one turn and a job id always reaches
    the synthesis call with these pairs, and a 400 reply is given only
    for a missing or empty conversation or a missing job id. *)
Theorem C9_voice_resolution (req : Request) (conv : list Turn) :
  let inputs := dialogueInputs (voice1 req) (voice2 req) conv in
  length inputs = length conv /\
  (forall i turn,
      nth_error conv i = Some turn ->
      exists input,
        nth_error inputs i = Some input /\
        input_text input = text turn /\
        (speaker turn = lit "Speaker1" ->
         voiceId input = or_default (voice1 req) default_voice1) /\
        (speaker turn <> lit "Speaker1" ->
         voiceId input = or_default (voice2 req) default_voice2)) /\
  (conversation req = Some conv -> conv <> [] -> truthy (jobId req) = true ->
   exists rest, trace (POST w req) = CreateDialogue inputs :: rest) /\
  (forall reply,
      result (POST w req) = inr (Failed reply) -> status reply = 400%Z ->
      conversation req = None \/ conversation req = Some [] \/ truthy (jobId req) = false).
Proof.
  cbv zeta. split; [|split; [|split]].
  - unfold dialogueInputs. cbv zeta. apply length_map.
  - intros i turn H. eexists. split; [apply dialogueInputs_nth, H|].
    cbn [input_text voiceId]. split; [reflexivity|]. split.
    + intros Hs. apply str_eqb_eq in Hs. now rewrite Hs.
    + intros Hs. destruct (str_eqb (speaker turn) (lit "Speaker1")) eqn:E; [|reflexivity].
      apply str_eqb_eq in E. contradiction.
  - intros Hc Hne Hj. unfold POST. rewrite Hc, Hj.
    destruct conv as [|turn conv]; [congruence|]. run.
    destruct (createDialogue w _) as [e|[audio|err]]; run.
    + eexists; reflexivity.
    + destruct (bind (ensureArchiveDir w) _) as [tr [e|a]]; run; eexists; reflexivity.
    + eexists; reflexivity.
  - intros reply Hr Hs. unfold POST in Hr.
    destruct (conversation req) as [[|turn c]|]; auto.
    destruct (truthy (jobId req)); auto. exfalso. revert Hr. run.
    destruct (createDialogue w _) as [e|[audio|err]]; run.
    + intros H. injection H as <-. discriminate.
    + destruct (mirror_total req audio (or_default (jobId req) [])) as [m Hm].
      destruct (mirror w req audio _) as [tr o]. cbn [result snd] in Hm. subst o.
      unfold ensureArchiveDir.
      destruct (fs_access w) as [e|[]]; run.
      * destruct (fs_mkdir w) as [e'|[]]; run.
        -- intros H. injection H as <-. discriminate.
        -- destruct (fs_writeFile w _ _) as [e'|[]]; run;
             intros H; [injection H as <- |]; discriminate.
      * destruct (fs_writeFile w _ _) as [e'|[]]; run;
          intros H; [injection H as <- |]; discriminate.
    + intros H. injection H as <-. discriminate.
Qed.

End ApproveFacts.

(** *** The approve stage on the concrete worlds *)

Section ApproveExamples.

Import Approve Examples.

Lemma example_local_ok (e : Env) (setPolicy : outcome unit) (policy : outcome jsstring)
      (upload : option bool) :
  local_ok (world e setPolicy policy) (request upload) turns job audio.
Proof. repeat split; try discriminate. now left. Qed.

Lemma example_stored (setPolicy : outcome unit) (policy : outcome jsstring) :
  stored (world env_url setPolicy policy) audio (lit "My Podcast!") job.
Proof. repeat split. now left. Qed.

(** C1 fails as stated: when the policy cannot be read back, the URL
    issued is the direct URL, not the signed one. *)
Lemma C1_counterexample :
  ~ url_issuance_as_specified world_unreadable audio (lit "My Podcast!") job.
Proof.
  intros H. unfold url_issuance_as_specified in H.
  specialize (H _ _ ltac:(vm_compute; reflexivity) eq_refl eq_refl).
  vm_compute in H. discriminate H.
Qed.

(** C1, as amended, on a private bucket: the signed URL is issued. *)
Lemma C1_witness :
  stored world_private audio (lit "My Podcast!") job /\
  readPolicy world_private (bucketName world_private) = PolicyPrivate /\
  result (uploadToMinIOStorage world_private audio (lit "My Podcast!") job)
    = inr {| upload_success := true;
             url := Some (lit "https://host:9443/signed");
             upload_error := None |}.
Proof.
  split; [apply example_stored|]. split; [reflexivity|].
  destruct (@C1_url_issuance world_private audio (lit "My Podcast!") job
              (example_stored _ _)) as (u & Hr & _ & _ & Hprivate & _).
  destruct (Hprivate eq_refl) as (_ & Hsigned & _).
  rewrite (Hsigned (lit "https://host:9443/signed") eq_refl) in Hr. exact Hr.
Defined.

(** C2 on a call without upload. *)
Lemma C2_witness :
  (uploadToMinIO (request None) = None \/ uploadToMinIO (request None) = Some false) /\
  forallb (fun ev => negb (is_remote ev)) (trace (POST world_public (request None))) = true /\
  exists body,
    result (POST world_public (request None)) = inr (Ok200 body) /\
    minioUrl body = None /\
    downloadUrl body = lit "http://localhost:3000/api/webhook/download/job_1_a".
Proof.
  split; [now left|].
  destruct (@C2_no_upload_requested world_public (request None) (or_introl eq_refl))
    as (Htrace & Hbody & Hreply).
  split; [exact Htrace|].
  destruct (Hreply turns job audio (example_local_ok _ _ _ _)) as [body Hb].
  exists body. split; [exact Hb|].
  destruct (Hbody body Hb) as (j & Hj & Hm & Hd & _).
  injection Hj as <-. split; [exact Hm|]. rewrite Hd. reflexivity.
Defined.

(** C3 on a store that cannot be reached: the reply is the success
    reply with the local download URL; and on a store that refuses the
    policy change only: the reply carries the remote URL. *)
Lemma C3_witness :
  uploadToMinIO (request (Some true)) = Some true /\
  local_ok world_unreachable (request (Some true)) turns job audio /\
  upload_step_fails world_unreachable audio (lit "My Podcast!") job /\
  (exists body,
     result (POST world_unreachable (request (Some true))) = inr (Ok200 body) /\
     success body = true /\
     minioUrl body = None /\
     downloadUrl body = lit "http://localhost:3000/api/webhook/download/job_1_a") /\
  (exists body,
     result (POST world_policy_denied (request (Some true))) = inr (Ok200 body) /\
     success body = true /\
     minioUrl body = Some (lit "https://host:9443/podcast/My_Podcast__job_1_a.mp3")).
Proof.
  assert (Hok : local_ok world_unreachable (request (Some true)) turns job audio)
    by (repeat split; try discriminate; now left).
  assert (Hf : upload_step_fails world_unreachable audio (lit "My Podcast!") job)
    by (do 4 right; left; eexists; reflexivity).
  split; [reflexivity|]. split; [exact Hok|]. split; [exact Hf|]. split.
  - destruct (@C3_remote_failure_is_soft world_unreachable (request (Some true))
                turns job audio eq_refl Hok) as (body & Hr & Hs & _ & _ & _ & Hsoft & _).
    exists body. destruct (Hsoft Hf) as [Hm Hd].
    split; [exact Hr|]. split; [exact Hs|]. split; [exact Hm|]. rewrite Hd. reflexivity.
  - destruct (@C3_remote_failure_is_soft world_policy_denied (request (Some true))
                turns job audio eq_refl (example_local_ok _ _ _ _))
      as (body & Hr & Hs & _ & _ & _ & _ & _ & Hstored).
    exists body. split; [exact Hr|]. split; [exact Hs|].
    destruct (Hstored (example_stored _ _)) as (u & Hu & Hm).
    rewrite Hm. vm_compute in Hu. injection Hu as <-. reflexivity.
Defined.

(** C4 fails as stated: the endpoint [://x] contains ["://"], is not a
    URL, and with port 443 the TLS flag stays off. *)
Lemma C4_counterexample : ~ precedence_as_specified world_not_a_url.
Proof.
  intros [(u & Hu & _) | H].
  - vm_compute in Hu. discriminate Hu.
  - vm_compute in H. discriminate H.
Qed.

(** C4, as amended, on the endpoint [https://host:9443] beside the
    configured port 9000 and TLS flag [false]. *)
Lemma C4_witness :
  includes (or_default (MINIO_ENDPOINT (env world_public)) (lit "minio2-api.aihub.ovh"))
           (lit "://") = true /\
  endPoint (parseEndpoint world_public) = lit "host" /\
  targetPort (parseEndpoint world_public) = Int 9443 /\
  useSSL (parseEndpoint world_public) = true.
Proof.
  split; [reflexivity|].
  destruct (@C4_target_precedence world_public) as (Hurl & _ & _). cbv zeta in Hurl.
  destruct (Hurl eq_refl {| protocol := lit "https:"; hostname := lit "host";
                            port := lit "9443" |} eq_refl)
    as (Hhost & Htls & Hport & _).
  split; [exact Hhost|]. split.
  - apply Hport. discriminate.
  - apply Htls. reflexivity.
Defined.

(** A bare host name beside port 443 gets TLS. *)
Example target_discrete_443 :
  parseEndpoint world_discrete
    = {| endPoint := lit "minio.local"; targetPort := Int 443; useSSL := true |}.
Proof. reflexivity. Qed.

(** An [https] endpoint that does not parse is kept whole, with the
    default port 443 and without TLS. *)
Example target_port_out_of_range :
  parseEndpoint world_port_out_of_range
    = {| endPoint := lit "https://host:99999"; targetPort := Int 443; useSSL := false |}
  /\ ~ precedence_as_specified world_port_out_of_range.
Proof.
  split; [reflexivity|]. intros [(u & Hu & _) | H].
  - vm_compute in Hu. discriminate Hu.
  - vm_compute in H. discriminate H.
Qed.

(** On a public bucket the direct URL is issued and nothing is signed. *)
Example upload_public :
  uploadToMinIOStorage world_public audio (lit "My Podcast!") job
    = ([ MinioImport;
         MinioClient (clientParams world_public);
         BucketExists (lit "podcast");
         SetBucketPolicy (lit "podcast") (publicPolicy (lit "podcast"));
         PutObject (lit "podcast") (lit "My_Podcast__job_1_a.mp3") [65; 66; 67] 3;
         GetBucketPolicy (lit "podcast") ],
       inr {| upload_success := true;
              url := Some (lit "https://host:9443/podcast/My_Podcast__job_1_a.mp3");
              upload_error := None |}).
Proof. reflexivity. Qed.

(** C9 on three turns, the last with the tag [speaker1]. *)
Lemma C9_witness :
  nth_error turns 2 = Some {| speaker := lit "speaker1"; text := lit "Bye" |} /\
  map voiceId (dialogueInputs None (Some (lit "voiceB")) turns)
    = [default_voice1; lit "voiceB"; lit "voiceB"] /\
  exists input,
    nth_error (dialogueInputs None (Some (lit "voiceB")) turns) 2 = Some input /\
    input_text input = lit "Bye" /\
    voiceId input = lit "voiceB".
Proof.
  split; [reflexivity|]. split; [reflexivity|].
  destruct (@C9_voice_resolution world_public (request None) turns) as (_ & Hnth & _).
  destruct (Hnth 2%nat {| speaker := lit "speaker1"; text := lit "Bye" |} eq_refl)
    as (input & Hi & Ht & _ & Hv).
  exists input. split; [exact Hi|]. split; [exact Ht|].
  apply Hv. discriminate.
Defined.

(** C10 on a public bucket: the reply points at the remote URL. *)
Lemma C10_witness :
  local_ok world_public (request (Some true)) turns job audio /\
  exists body,
    result (POST world_public (request (Some true))) = inr (Ok200 body) /\
    minioUrl body = Some (lit "https://host:9443/podcast/My_Podcast__job_1_a.mp3") /\
    downloadUrl body = lit "https://host:9443/podcast/My_Podcast__job_1_a.mp3".
Proof.
  split; [apply example_local_ok|].
  destruct (@C10_remote_url_preferred world_public (request (Some true)) turns job audio
              (example_local_ok _ _ _ _)) as (body & Hr & Hremote & _).
  exists body. split; [exact Hr|].
  apply (Hremote {| upload_success := true;
                    url := Some (lit "https://host:9443/podcast/My_Podcast__job_1_a.mp3");
                    upload_error := None |}); try reflexivity.
  discriminate.
Defined.

End ApproveExamples.

(** ** Language tags and the process stage *)

Section ProcessFacts.

Import Language Process.

Lemma is_valid_In (l : jsstring) : is_valid l = true <-> In l validLanguages.
Proof.
  unfold is_valid. rewrite existsb_exists. split.
  - intros (x & Hx & E). apply str_eqb_eq in E. now subst.
  - intros H. exists l. split; [exact H | apply str_eqb_refl].
Qed.

Lemma en_valid : is_valid (lit "en") = true.
Proof. reflexivity. Qed.

Lemma selectedLanguage_valid (l : jsstring) :
  In l validLanguages -> selectedLanguage (Some l) = l.
Proof.
  intros H. unfold selectedLanguage. cbn [nullish_default].
  apply is_valid_In in H. now rewrite H.
Qed.

Lemma selectedLanguage_other (l : jsstring) :
  ~ In l validLanguages -> selectedLanguage (Some l) = lit "en".
Proof.
  intros H. unfold selectedLanguage. cbn [nullish_default].
  destruct (is_valid l) eqn:E; [|reflexivity].
  apply is_valid_In in E. contradiction.
Qed.

(** A stream that ends normally is collected to the end. *)
Lemma collect_ok (chunks : list Chunk) (full : list Turn) :
  exists conv, result (collect full chunks None) = inr conv.
Proof.
  revert full. induction chunks as [|chunk rest IH]; intros full.
  - eexists; reflexivity.
  - cbn [collect]. unfold bind, call.
    destruct (IH match chunk_conversation chunk with
                 | Some items => fromPartial items
                 | None => full
                 end) as [conv Hc].
    destruct (collect _ rest None) as [tr o]. cbn [result snd] in Hc. subst o.
    eexists; reflexivity.
Qed.

Variable w : World.

Lemma POST_language (req : Request) (reply : Processed) :
  result (POST w req) = inr (Ok200 reply) ->
  processed_language reply = selectedLanguage (language req).
Proof.
  unfold POST.
  destruct (negb (truthy (transcript req)) || negb (truthy (jobId req))); [discriminate|].
  destruct (negb (truthy (OPENROUTER_API_KEY (env w))) &&
            negb (truthy (OPENAI_API_KEY (env w)))); [discriminate|].
  destruct (streamObject w (generation w req)) as [e|[chunks ending]];
    cbn [bind try_catch call ret fst snd app result]; [discriminate|].
  destruct (collect [] chunks ending) as [tr [e|conv]];
    cbn [bind try_catch call ret fst snd app result]; [discriminate|].
  intros H. injection H as <-. reflexivity.
Qed.

Lemma POST_generation_ok (req : Request) (chunks : list Chunk) :
  generation_ok w req chunks ->
  exists reply, result (POST w req) = inr (Ok200 reply).
Proof.
  intros (Ht & Hj & Hkey & Hs). unfold POST. rewrite Ht, Hj, Hs.
  replace (negb (truthy (OPENROUTER_API_KEY (env w))) &&
           negb (truthy (OPENAI_API_KEY (env w)))) with false
    by (destruct Hkey as [-> | ->]; cbn; now rewrite ?andb_false_r).
  cbn [negb orb bind try_catch call ret fst snd app result].
  destruct (collect_ok chunks []) as [conv Hc].
  destruct (collect [] chunks None) as [tr o]. cbn [result snd] in Hc. subst o.
  eexists; reflexivity.
Qed.

(** C6. The resolved language of a process call is the supplied tag when
    the tag is one of the eleven codes en, pl, es, fr, de, it, pt, ru,
    ja, ko, zh, and is ["en"] when the tag is absent or any other
    string.  Every success reply carries the resolved language, and the
    success reply is given whenever the request is valid, a generator is
    configured and the generator streams to the end. *)
Theorem C6_language_resolution (req : Request) :
  validLanguages = map lit ["en"; "pl"; "es"; "fr"; "de"; "it"; "pt"; "ru"; "ja"; "ko"; "zh"]%string /\
  length validLanguages = 11%nat /\
  (forall l, language req = Some l -> In l validLanguages ->
             selectedLanguage (language req) = l) /\
  (forall l, language req = Some l -> ~ In l validLanguages ->
             selectedLanguage (language req) = lit "en") /\
  (language req = None -> selectedLanguage (language req) = lit "en") /\
  (forall reply, result (POST w req) = inr (Ok200 reply) ->
                 processed_language reply = selectedLanguage (language req)) /\
  (forall chunks, generation_ok w req chunks ->
                  exists reply, result (POST w req) = inr (Ok200 reply)).
Proof.
  split; [reflexivity|]. split; [reflexivity|]. split; [|split; [|split; [|split]]].
  - intros l -> H. now apply selectedLanguage_valid.
  - intros l -> H. now apply selectedLanguage_other.
  - intros ->. reflexivity.
  - apply POST_language.
  - apply POST_generation_ok.
Qed.

End ProcessFacts.

(** ** The download stage *)

Section DownloadFacts.

Import Download.

Variable w : World.

Lemma matches_spec (jobId file : jsstring) :
  matches jobId file = true <->
  (exists a b, file = a ++ jobId ++ b) /\ (exists a, file = a ++ lit ".mp3").
Proof. unfold matches. now rewrite andb_true_iff, includes_app, endsWith_app. Qed.

Lemma find_first {A} (p : A -> bool) (pre : list A) (x : A) (post : list A) :
  (forall y, In y pre -> p y = false) -> p x = true ->
  find p (pre ++ x :: post) = Some x.
Proof.
  intros Hpre Hx. induction pre as [|y pre IH]; simpl.
  - now rewrite Hx.
  - rewrite (Hpre y (or_introl eq_refl)). apply IH.
    intros z Hz. apply Hpre. now right.
Qed.

Lemma find_nothing {A} (p : A -> bool) (l : list A) :
  (forall y, In y l -> p y = false) -> find p l = None.
Proof.
  intros H. induction l as [|y l IH]; simpl; [reflexivity|].
  rewrite (H y (or_introl eq_refl)). apply IH. intros z Hz. apply H. now right.
Qed.

Ltac dsteps := cbn [bind try_catch call ret throw fst snd app].

(** The run of [GET] once the first matching file is known. *)
Lemma GET_found (jobId : jsstring) (files : list jsstring) (file : jsstring) :
  jobId <> [] ->
  readdir w = inr files ->
  find (matches jobId) files = Some file ->
  GET w jobId =
    match readFile w file with
    | inl _ =>
        ([Readdir; ReadFile file], inr (Failed (mkError 500 (lit "Failed to serve file"))))
    | inr data =>
        ([Readdir; ReadFile file],
         if Headers.valid_value (disposition file) then
           inr (Ok200
                  {| content := data;
                     contentType := lit "audio/mpeg";
                     contentDisposition := disposition file;
                     contentLength := Number_toString (Int (Z.of_nat (length data))) |})
         else inr (Failed (mkError 500 (lit "Failed to serve file"))))
    end.
Proof.
  intros Hj Hdir Hfind.
  destruct jobId as [|c j]; [congruence|]. unfold GET. rewrite Hdir. dsteps.
  rewrite Hfind. dsteps.
  destruct (readFile w file) as [e|data]; dsteps; [reflexivity|].
  unfold Headers.check. destruct (Headers.valid_value (disposition file)); reflexivity.
Qed.

Lemma GET_first_match (jobId : jsstring) (files pre : list jsstring) (file : jsstring)
      (post : list jsstring) :
  jobId <> [] ->
  readdir w = inr files ->
  files = pre ++ file :: post ->
  (forall other, In other pre -> matches jobId other = false) ->
  matches jobId file = true ->
  find (matches jobId) files = Some file.
Proof. intros _ _ -> Hpre Hfile. now apply find_first. Qed.

(** C7, as amended. For a download call with a job id [J]: when the
    archive directory can be listed, the handler serves the content of
    the first listed file whose name contains [J] and ends with
    [".mp3"], provided that file can be read and its name makes a valid
    header value, with Content-Type [audio/mpeg] and Content-Length the
    number of bytes of that content; when the directory can be listed
    and no listed file matches, it replies 404 with the error [File not
    found for this job ID]; and when the directory cannot be listed, or
    the first matching file cannot be read, it replies 500 with the
    error [Failed to serve file]. *)
Theorem C7_download (jobId : jsstring) :
  jobId <> [] ->
  (forall file,
      matches jobId file = true <->
      (exists a b, file = a ++ jobId ++ b) /\ (exists a, file = a ++ lit ".mp3")) /\
  (forall files pre file post data,
      readdir w = inr files ->
      files = pre ++ file :: post ->
      (forall other, In other pre -> matches jobId other = false) ->
      matches jobId file = true ->
      readFile w file = inr data ->
      Headers.valid_value (lit "attachment; filename=" ++ [34] ++ file ++ [34]) = true ->
      GET w jobId =
        ([Readdir; ReadFile file],
         inr (Ok200
                {| content := data;
                   contentType := lit "audio/mpeg";
                   contentDisposition := lit "attachment; filename=" ++ [34] ++ file ++ [34];
                   contentLength := Number_toString (Int (Z.of_nat (length data))) |}))) /\
  (forall files,
      readdir w = inr files ->
      (forall file, In file files -> matches jobId file = false) ->
      GET w jobId =
        ([Readdir], inr (Failed (mkError 404 (lit "File not found for this job ID"))))) /\
  (forall e,
      readdir w = inl e ->
      GET w jobId = ([Readdir], inr (Failed (mkError 500 (lit "Failed to serve file"))))) /\
  (forall files pre file post e,
      readdir w = inr files ->
      files = pre ++ file :: post ->
      (forall other, In other pre -> matches jobId other = false) ->
      matches jobId file = true ->
      readFile w file = inl e ->
      GET w jobId =
        ([Readdir; ReadFile file],
         inr (Failed (mkError 500 (lit "Failed to serve file"))))).
Proof.
  intros Hj. split; [intros file; apply matches_spec|]. split; [|split; [|split]].
  - intros files pre file post data Hdir Hfiles Hpre Hfile Hread Hv.
    rewrite (@GET_found jobId files file Hj Hdir
               (@GET_first_match jobId files pre file post Hj Hdir Hfiles Hpre Hfile)), Hread.
    unfold disposition. now rewrite Hv.
  - intros files Hdir Hnone. destruct jobId as [|c j]; [congruence|].
    unfold GET. rewrite Hdir. dsteps. rewrite (@find_nothing _ _ _ Hnone). reflexivity.
  - intros e Hdir. destruct jobId as [|c j]; [congruence|].
    unfold GET. rewrite Hdir. reflexivity.
  - intros files pre file post e Hdir Hfiles Hpre Hfile Hread.
    now rewrite (@GET_found jobId files file Hj Hdir
                   (@GET_first_match jobId files pre file post Hj Hdir Hfiles Hpre Hfile)), Hread.
Qed.

End DownloadFacts.

(** ** The receive stage *)

Section TranscriptFacts.

Import Transcript.

Lemma lit_String (c : ascii) (s : string) : lit (String c s) = N_of_ascii c :: lit s.
Proof. reflexivity. Qed.

Lemma uint_digits (d : Decimal.uint) :
  forallb is_digit (lit (NilEmpty.string_of_uint d)) = true.
Proof.
  induction d; cbn [NilEmpty.string_of_uint]; rewrite ?lit_String;
    cbn [forallb]; try rewrite IHd; reflexivity.
Qed.

(** The decimal text of a non-negative integer is a non-empty run of
    digits. *)
Lemma Number_toString_digits (z : Z) :
  (0 <= z)%Z ->
  Number_toString (Int z) <> [] /\ forallb is_digit (Number_toString (Int z)) = true.
Proof.
  intros Hz. unfold Number_toString.
  destruct z as [|p|p]; [split; [discriminate | reflexivity] | | lia].
  cbn [Z.to_int NilZero.string_of_int]. unfold NilZero.string_of_uint.
  destruct (Pos.to_uint p) eqn:E; try (split; [discriminate | reflexivity]).
  all: split; [cbn [NilEmpty.string_of_uint]; rewrite lit_String; discriminate
              | apply uint_digits].
Qed.

Lemma base36_is_alnum (ds : jsstring) :
  forallb (fun c => is_digit c || is_lower c) ds = true -> forallb is_alnum ds = true.
Proof.
  induction ds as [|c ds IH]; simpl; [reflexivity|].
  intros H. apply andb_true_iff in H as [Hc Hds]. rewrite (IH Hds), andb_true_r.
  unfold is_alnum, is_alpha.
  destruct (is_digit c); [now rewrite orb_true_r|].
  simpl in Hc. now rewrite Hc.
Qed.

Lemma random_suffix_alnum (r : jsstring) :
  base36_fraction r -> forallb is_alnum (substring_from 7 r) = true.
Proof.
  intros [-> | (ds & -> & Hds)]; [reflexivity|].
  unfold substring_from. change (lit "0." ++ ds) with (48 :: 46 :: ds).
  cbn [skipn]. apply forallb_skipn with (n := 5%nat), base36_is_alnum, Hds.
Qed.

Lemma random_suffix_nonempty (r : jsstring) :
  (7 < length r)%nat <-> substring_from 7 r <> [].
Proof.
  unfold substring_from. split.
  - intros Hlen Hnil. apply (f_equal (@length N)) in Hnil.
    rewrite length_skipn in Hnil. simpl in Hnil. lia.
  - intros Hne. destruct (Nat.lt_ge_cases 7 (length r)) as [H | H]; [exact H|].
    exfalso. apply Hne. now apply skipn_all2.
Qed.

Lemma mintJobId_pattern (now : Z) (r : jsstring) :
  (0 <= now)%Z -> base36_fraction r -> (7 < length r)%nat -> job_pattern (mintJobId now r).
Proof.
  intros Hn Hr Hlen. exists (Number_toString (Int now)), (substring_from 7 r).
  destruct (Number_toString_digits Hn) as [Hne Hd].
  repeat split; try assumption; [now apply random_suffix_nonempty|].
  now apply random_suffix_alnum.
Qed.

(** A text that matches the pattern ends with a letter or a digit. *)
Lemma job_pattern_last (s : jsstring) : job_pattern s -> is_alnum (last s 0) = true.
Proof.
  intros (ds & suffix & -> & _ & _ & Hne & Hs).
  destruct (exists_last Hne) as (l & x & ->).
  rewrite !app_assoc, last_last.
  rewrite forallb_app in Hs. apply andb_true_iff in Hs as [_ Hx].
  cbn [forallb] in Hx. now rewrite andb_true_r in Hx.
Qed.

Lemma trailing_underscore_no_pattern (s : jsstring) : ~ job_pattern (s ++ lit "_").
Proof.
  intros H. apply job_pattern_last in H.
  change (lit "_") with [95] in H. rewrite last_last in H. discriminate H.
Qed.

Variable w : World.

(** C8, as amended. For every receive call with a non-empty transcript,
    the clock not being before the epoch and the random text being that
    of a double in [0, 1): the reply is the success reply; its job id is
    not empty and is [job_], a non-empty run of digits, an underscore
    and the run of letters and digits left of the random text after its
    seventh code unit; it matches the pattern [job_<digits>_<alnum>]
    exactly when that text has more than seven code units, and ends
    with the underscore otherwise; the job id and the transcript are
    passed unchanged in [nextStep.body]; a request with language ["pl"]
    gets [nextStep.body.language = "pl"]; and the stage reads the clock
    and the random source and does nothing else. *)
Theorem C8_receive (req : Request) (t : jsstring) :
  transcript req = Some t -> t <> [] ->
  (0 <= Date_now w)%Z ->
  base36_fraction (random_base36 w) ->
  exists reply,
    POST w req = ([DateNow; MathRandom], inr (Ok200 reply)) /\
    jobId reply = mintJobId (Date_now w) (random_base36 w) /\
    jobId reply <> [] /\
    (exists ds,
       jobId reply = lit "job_" ++ ds ++ lit "_" ++ substring_from 7 (random_base36 w) /\
       ds <> [] /\ forallb is_digit ds = true /\
       forallb is_alnum (substring_from 7 (random_base36 w)) = true) /\
    (job_pattern (jobId reply) <-> (7 < length (random_base36 w))%nat) /\
    ((length (random_base36 w) <= 7)%nat ->
     jobId reply = lit "job_" ++ Number_toString (Int (Date_now w)) ++ lit "_") /\
    body_jobId (body (nextStep reply)) = jobId reply /\
    body_transcript (body (nextStep reply)) = t /\
    (language req = Some (lit "pl") ->
     received_language reply = lit "pl" /\
     body_language (body (nextStep reply)) = lit "pl").
Proof.
  intros Ht Hne Hnow Hrnd. unfold POST. rewrite Ht.
  destruct t as [|c t]; [congruence|].
  cbn [truthy negb bind try_catch call ret fst snd app].
  eexists. split; [reflexivity|].
  cbn [jobId nextStep body body_jobId body_transcript body_language received_language].
  assert (Hshort : (length (random_base36 w) <= 7)%nat ->
                   mintJobId (Date_now w) (random_base36 w)
                   = lit "job_" ++ Number_toString (Int (Date_now w)) ++ lit "_").
  { intros Hlen. unfold mintJobId, substring_from.
    rewrite skipn_all2 by exact Hlen. now rewrite app_nil_r. }
  split; [reflexivity|]. split; [discriminate|]. split; [|split; [|split]].
  - exists (Number_toString (Int (Date_now w))).
    destruct (Number_toString_digits Hnow) as [Hd1 Hd2].
    split; [reflexivity|]. split; [exact Hd1|]. split; [exact Hd2|].
    now apply random_suffix_alnum.
  - split; [|now apply mintJobId_pattern].
    intros Hp. destruct (Nat.lt_ge_cases 7 (length (random_base36 w))) as [H | H]; [exact H|].
    exfalso. rewrite (Hshort H) in Hp.
    rewrite app_assoc in Hp. exact (@trailing_underscore_no_pattern _ Hp).
  - exact Hshort.
  - split; [reflexivity|]. split; [reflexivity|]. intros ->. split; reflexivity.
Qed.

End TranscriptFacts.

(** ** The other stages on the concrete worlds *)

Section StageExamples.

Import Examples.

(** C6 on a request in Polish. *)
Lemma C6_witness :
  Process.generation_ok process_world (process_request (Some (lit "pl")))
    [ {| Process.chunk_conversation := None |};
      {| Process.chunk_conversation :=
           Some [ {| Process.partial_speaker := Some (lit "Speaker1");
                     Process.partial_text := Some (lit "Hi") |} ] |} ] /\
  Language.selectedLanguage (Some (lit "pl")) = lit "pl" /\
  Language.selectedLanguage (Some (lit "PL")) = lit "en" /\
  exists reply,
    result (Process.POST process_world (process_request (Some (lit "pl"))))
      = inr (Process.Ok200 reply) /\
    Process.processed_language reply = lit "pl".
Proof.
  assert (Hok : Process.generation_ok process_world (process_request (Some (lit "pl")))
                  [ {| Process.chunk_conversation := None |};
                    {| Process.chunk_conversation :=
                         Some [ {| Process.partial_speaker := Some (lit "Speaker1");
                                   Process.partial_text := Some (lit "Hi") |} ] |} ])
    by (repeat split; now right).
  destruct (@C6_language_resolution process_world (process_request (Some (lit "pl"))))
    as (_ & _ & Hvalid & _ & _ & Hecho & Hreply).
  split; [exact Hok|].
  split; [apply (Hvalid (lit "pl") eq_refl); right; now left|].
  split; [reflexivity|].
  destruct (Hreply _ Hok) as [reply Hr]. exists reply. split; [exact Hr|].
  rewrite (Hecho reply Hr). apply (Hvalid (lit "pl") eq_refl). right; now left.
Defined.

(** C7 fails as stated: without an archive directory no file matches
    and the reply is 500, not 404; and the artifact of the job
    [zadanie_] followed by U+0142, the first and only match, is not
    served, as its name is not a byte string. *)
Lemma C7_counterexample :
  ~ Download.download_as_specified download_world_no_directory job /\
  ~ Download.download_as_specified download_world_l_stroke job_l_stroke.
Proof.
  split.
  - intros [_ H]. discriminate H. intros files file Hdir. discriminate Hdir.
  - intros [H _].
    destruct (H (map fst archive_l_stroke) [] (Filename.filename None job_l_stroke) []
                [65; 66; 67] eq_refl eq_refl) as (reply & Hr & _).
    + intros other [].
    + reflexivity.
    + reflexivity.
    + vm_compute in Hr. discriminate Hr.
Qed.

(** C7, as amended, on an archive with two artifacts of the job: the
    first listed one is served; and on a job without artifact. *)
Lemma C7_witness :
  job <> [] /\
  Download.readdir download_world = inr (map fst archive) /\
  result (Download.GET download_world job)
    = inr (Download.Ok200
             {| Download.content := [65; 66; 67];
                Download.contentType := lit "audio/mpeg";
                Download.contentDisposition :=
                  lit "attachment; filename=" ++ [34] ++ lit "My_Podcast__job_1_a.mp3" ++ [34];
                Download.contentLength := lit "3" |}) /\
  Download.GET download_world (lit "job_9")
    = ([Download.Readdir],
       inr (Download.Failed (mkError 404 (lit "File not found for this job ID")))) /\
  Download.GET download_world_no_directory job
    = ([Download.Readdir],
       inr (Download.Failed (mkError 500 (lit "Failed to serve file")))).
Proof.
  split; [discriminate|]. split; [reflexivity|]. split; [|split].
  - destruct (@C7_download download_world job ltac:(discriminate)) as (_ & Hserve & _).
    rewrite (Hserve (map fst archive) [lit "Other_job_2_b.mp3"]
               (lit "My_Podcast__job_1_a.mp3")
               [lit "Retry_job_1_a.mp3"; lit "job_1_a.txt"] [65; 66; 67] eq_refl eq_refl).
    + reflexivity.
    + intros other [<- | []]. reflexivity.
    + reflexivity.
    + reflexivity.
    + reflexivity.
  - destruct (@C7_download download_world (lit "job_9") ltac:(discriminate))
      as (_ & _ & Hnone & _).
    apply (Hnone (map fst archive) eq_refl).
    intros file [<- | [<- | [<- | [<- | []]]]]; reflexivity.
  - destruct (@C7_download download_world_no_directory job ltac:(discriminate))
      as (_ & _ & _ & Hdir & _).
    apply (Hdir (Error (lit "ENOENT")) eq_refl).
Defined.

(** C8 fails as stated: with the random text [0.i] of
    [Math.random() = 0.5] nothing is left after the seventh code unit,
    and the job id [job_1700000000000_] does not match the pattern. *)
Lemma C8_counterexample :
  ~ Transcript.receive_as_specified receive_world_half receive_request.
Proof.
  intros H.
  destruct (H (lit "Hello world") eq_refl ltac:(discriminate))
    as (reply & Hr & _ & Hpat & _).
  vm_compute in Hr. injection Hr as <-. cbn [Transcript.jobId] in Hpat.
  apply job_pattern_last in Hpat. vm_compute in Hpat. discriminate Hpat.
Qed.

(** C8, as amended, on the request
    [{transcript: "Hello world", language: "pl"}]. *)
Lemma C8_witness :
  Transcript.transcript receive_request = Some (lit "Hello world") /\
  (0 <= Transcript.Date_now receive_world)%Z /\
  Transcript.base36_fraction (Transcript.random_base36 receive_world) /\
  exists reply,
    result (Transcript.POST receive_world receive_request) = inr (Transcript.Ok200 reply) /\
    Transcript.jobId reply = lit "job_1700000000000_82mvyr" /\
    Transcript.job_pattern (Transcript.jobId reply) /\
    Transcript.body_language (Transcript.body (Transcript.nextStep reply)) = lit "pl" /\
    Transcript.body_transcript (Transcript.body (Transcript.nextStep reply)) = lit "Hello world".
Proof.
  assert (Hrnd : Transcript.base36_fraction (Transcript.random_base36 receive_world))
    by (right; exists (lit "4fzyo82mvyr"); split; reflexivity).
  split; [reflexivity|]. split; [cbn; lia|]. split; [exact Hrnd|].
  destruct (@C8_receive receive_world receive_request (lit "Hello world") eq_refl
              ltac:(discriminate) ltac:(cbn; lia) Hrnd)
    as (reply & Hr & Hid & _ & _ & Hpat & _ & _ & Ht & Hpl).
  exists reply. rewrite Hr. split; [reflexivity|].
  split; [rewrite Hid; reflexivity|]. split; [apply Hpat; cbn; lia|].
  split; [apply (Hpl eq_refl) | exact Ht].
Defined.

End StageExamples.

(* ================================================================== *)
(** * Part III: further properties of the stages                       *)
(* ================================================================== *)

(** ** The approve stage: what is done, and when *)

Section ApproveEffects.

Import Approve ApprovePlan.

Variable w : World.

Ltac steps := cbn [bind try_catch call ret pure_call negb orb andb fst snd app trace result].

(** X1. The reply is the success reply exactly when the request is valid,
    the synthesis answered with audio and the local file was written;
    the remote store has no part in it. *)
Theorem approve_success_iff_local (req : Request) :
  (exists body, result (POST w req) = inr (Ok200 body)) <->
  (exists conv j audio, local_ok w req conv j audio).
Proof.
  split.
  - intros [body Hb]. exact (POST_ok_inv w req Hb).
  - intros (conv & j & audio & Hok).
    destruct (POST_local_ok Hok) as (m & _ & ->). eexists; reflexivity.
Qed.

Lemma remote_in_local (l : list Event) (ev : Event) :
  forallb is_remote l = true -> In ev l -> is_remote ev = true.
Proof. intros H Hin. rewrite forallb_forall in H. now apply H. Qed.

Lemma written_file (req : Request) (f : jsstring) (d : bytes) :
  In (FsWriteFile f d) (trace (POST w req)) ->
  exists conv j audio,
    conversation req = Some conv /\ jobId req = Some j /\
    createDialogue w (dialogueInputs (voice1 req) (voice2 req) conv)
      = inr (DialogueOk audio) /\
    f = filePath w (title req) j /\
    d = base64_decode w (base64Data audio).
Proof.
  unfold POST, ensureArchiveDir.
  destruct (conversation req) as [[|turn conv]|] eqn:Hc; steps; try (intros []).
  destruct (jobId req) as [[|c j]|] eqn:Hj; unfold truthy; steps; try (intros []).
  unfold or_default at 1 2 3 4 5 6.
  destruct (createDialogue w _) as [e|[audio|err]] eqn:Hd; steps.
  1,3: intros [H|[]]; discriminate H.
  pose proof (mirror_trace_remote w req audio (c :: j)) as Hrem.
  destruct (mirror w req audio (c :: j)) as [tr o]. cbn [trace fst] in Hrem.
  assert (Htr : In (FsWriteFile f d) tr -> False).
  { intros Hin. pose proof (remote_in_local _ _ Hrem Hin). discriminate. }
  assert (Hgoal : FsWriteFile (filePath w (title req) (c :: j))
                    (base64_decode w (base64Data audio)) = FsWriteFile f d ->
                  exists conv0 j0 audio0,
                    Some (turn :: conv) = Some conv0 /\ Some (c :: j) = Some j0 /\
                    createDialogue w (dialogueInputs (voice1 req) (voice2 req) conv0)
                      = inr (DialogueOk audio0) /\
                    f = filePath w (title req) j0 /\
                    d = base64_decode w (base64Data audio0)).
  { intros H. injection H as <- <-. exists (turn :: conv), (c :: j), audio. auto. }
  destruct (fs_access w) as [e|[]]; steps.
  1: destruct (fs_mkdir w) as [e'|[]]; steps.
  all: try destruct (fs_writeFile w _ _) as [e''|[]]; steps.
  all: try destruct o as [e3|m]; steps.
  all: rewrite ?app_nil_r; cbn [In]; intros Hin.
  all: repeat (destruct Hin as [Hin | Hin]; try discriminate Hin; auto).
  all: try contradiction.
Qed.

Lemma remote_operation (req : Request) (ev : Event) :
  In ev (trace (POST w req)) -> is_remote ev = true ->
  uploadToMinIO req = Some true /\
  exists conv j audio, local_ok w req conv j audio.
Proof.
  intros Hin Hrem. split.
  - destruct (uploadToMinIO req) as [[|]|] eqn:Hup; [reflexivity | |].
    all: assert (Hoff : uploadToMinIO req <> Some true) by congruence.
    all: pose proof (POST_trace_local w req Hoff) as Hl.
    all: rewrite forallb_forall in Hl; specialize (Hl ev Hin).
    all: rewrite Hrem in Hl; discriminate.
  - revert Hin. unfold POST, local_ok, ensureArchiveDir.
    destruct (conversation req) as [[|turn conv]|] eqn:Hc; steps; try (intros []).
    destruct (jobId req) as [[|c j]|] eqn:Hj; unfold truthy; steps; try (intros []).
    unfold or_default at 1 2 3 4 5 6.
    destruct (createDialogue w _) as [e|[audio|err]] eqn:Hd; steps.
    1,3: intros [<-|[]]; discriminate.
    destruct (mirror w req audio (c :: j)) as [tr o].
    destruct (fs_access w) as [e|[]] eqn:Ha; steps.
    1: destruct (fs_mkdir w) as [e'|[]] eqn:Hmk; steps.
    all: try destruct (fs_writeFile w _ _) as [e''|[]] eqn:Hw; steps.
    all: try (intros Hin; cbn [In] in Hin;
              repeat (destruct Hin as [<- | Hin]; try discriminate);
              contradiction).
    all: intros _; exists (turn :: conv), (c :: j), audio;
      repeat split; try discriminate; eauto.
Qed.

(** X2. A file is written only with the decoded audio of a successful
    synthesis, and at the path that [path.join] makes of the archive
    directory and of the name derived from title and job id, the
    archive directory being [archive] in the working directory; and the
    remote store is touched only when the upload was requested and that
    file has been written. *)
Theorem approve_effects_guarded (req : Request) :
  (forall f d,
      In (FsWriteFile f d) (trace (POST w req)) ->
      exists conv j audio,
        conversation req = Some conv /\ jobId req = Some j /\
        createDialogue w (dialogueInputs (voice1 req) (voice2 req) conv)
          = inr (DialogueOk audio) /\
        f = Path.join (Path.join (cwd w) (lit "archive"))
                      (Filename.filename (title req) j) /\
        d = base64_decode w (base64Data audio)) /\
  (forall ev,
      In ev (trace (POST w req)) -> is_remote ev = true ->
      uploadToMinIO req = Some true /\
      exists conv j audio, local_ok w req conv j audio).
Proof.
  split.
  - intros f d. apply written_file.
  - intros ev. apply remote_operation.
Qed.


(** X3. An invalid request is refused with 400 before anything is done, the
    conversation being checked before the job id; a synthesis that
    answers with an error gives 500 with that error, and one that throws
    gives 500 with a fixed message, in both cases with nothing written
    and nothing uploaded. *)
Theorem approve_failure_replies (req : Request) :
  (conversation req = None \/ conversation req = Some [] ->
   POST w req = ([], inr (Failed (mkError 400 (lit "Valid conversation is required"))))) /\
  (forall turn conv,
      conversation req = Some (turn :: conv) -> truthy (jobId req) = false ->
      POST w req = ([], inr (Failed (mkError 400 (lit "Job ID is required"))))) /\
  (forall turn conv,
      conversation req = Some (turn :: conv) -> truthy (jobId req) = true ->
      let inputs := dialogueInputs (voice1 req) (voice2 req) (turn :: conv) in
      (forall err, createDialogue w inputs = inr (DialogueFailed err) ->
                   POST w req = ([CreateDialogue inputs], inr (Failed (mkError 500 err)))) /\
      (forall e, createDialogue w inputs = inl e ->
                 POST w req = ([CreateDialogue inputs],
                               inr (Failed (mkError 500 (lit "Failed to generate audio")))))).
Proof.
  split; [|split].
  - intros [H | H]; unfold POST; rewrite H; reflexivity.
  - intros turn conv Hc Hj. unfold POST. rewrite Hc, Hj. reflexivity.
  - intros turn conv Hc Hj. cbv zeta. split.
    + intros err Hd. unfold POST. rewrite Hc, Hj. steps. rewrite Hd. reflexivity.
    + intros e Hd. unfold POST. rewrite Hc, Hj. steps. rewrite Hd. reflexivity.
Qed.

(** X4. A failed local write is loud: the reply is 500 and the remote store
    is not touched, even when the upload was requested. *)
Theorem approve_write_failure (req : Request) (turn : Turn) (conv : list Turn)
        (j audio : jsstring) (e : exn) :
  conversation req = Some (turn :: conv) ->
  jobId req = Some j -> j <> [] ->
  createDialogue w (dialogueInputs (voice1 req) (voice2 req) (turn :: conv))
    = inr (DialogueOk audio) ->
  fs_writeFile w (filePath w (title req) j) (base64_decode w (base64Data audio))
    = inl e ->
  result (POST w req) = inr (Failed (mkError 500 (lit "Failed to generate audio"))) /\
  forallb (fun ev => negb (is_remote ev)) (trace (POST w req)) = true.
Proof.
  intros Hc Hj Hne Hd Hw. unfold POST, ensureArchiveDir. rewrite Hc, Hj.
  rewrite (truthy_some Hne), (or_default_nonempty _ Hne). steps. rewrite Hd. steps.
  destruct (mirror w req audio j) as [tr o].
  destruct (fs_access w) as [e1|[]]; steps.
  1: destruct (fs_mkdir w) as [e2|[]]; steps; [split; reflexivity|].
  all: rewrite Hw; steps; split; reflexivity.
Qed.

(** *** The object stored and the file written *)

Lemma generateUrl_cases (t : Target) (b f : jsstring) :
  trace (generateUrl w t b f) = [GetBucketPolicy b] /\ readPolicy w b <> PolicyPrivate \/
  trace (generateUrl w t b f) = [GetBucketPolicy b; PresignedGetObject b f 604800] /\
  readPolicy w b = PolicyPrivate.
Proof.
  destruct (readPolicy w b) eqn:E.
  - left. rewrite generateUrl_public by exact E. split; [reflexivity | discriminate].
  - right. rewrite generateUrl_private by exact E. split; reflexivity.
  - left. rewrite generateUrl_unreadable by exact E. split; [reflexivity | discriminate].
Qed.


(** The helper performs its operations in one fixed order and stops at
    the first one that fails unguarded: its trace is always a beginning
    of the plan of a complete upload. *)
Lemma upload_trace_prefix (audio title jobId : jsstring) :
  exists rest,
    upload_plan w audio title jobId
      = trace (uploadToMinIOStorage w audio title jobId) ++ rest.
Proof.
  unfold upload_plan, uploadToMinIOStorage, clientParams, bucketName. cbv zeta.
  destruct (generateUrl_cases (parseEndpoint w)
              (or_default (MINIO_BUCKET_NAME (env w)) (lit "podcast"))
              (Filename.filename_of (Filename.sanitize title) jobId)) as [[G E] | [G E]].
  all: destruct (generateUrl w _ _ _) as [tr r]; cbn [trace fst] in G; subst tr.
  all: destruct (import_minio w) as [e|[]]; steps; [eexists; reflexivity|].
  all: destruct (truthy (MINIO_ACCESS_KEY (env w))); steps; [|eexists; reflexivity].
  all: destruct (truthy (MINIO_SECRET_KEY (env w))); steps; [|eexists; reflexivity].
  all: destruct (new_Client w _) as [e|[]]; steps; [eexists; reflexivity|].
  all: destruct (bucketExists w _) as [e|[|]]; steps; [eexists; reflexivity| |].
  all: try (destruct (makeBucket w _ _) as [e|[]]; steps; [eexists; reflexivity|]).
  all: destruct (setBucketPolicy w _ _) as [e'|[]]; steps.
  all: destruct (putObject w _ _ _ _) as [e|[]]; steps; [eexists; reflexivity|].
  all: destruct r as [e|u]; steps; rewrite ?app_nil_r.
  all: destruct (readPolicy w _); try congruence; eexists; cbn [app];
    rewrite ?app_nil_r; reflexivity.
Qed.

Lemma in_prefix {A} (l rest plan : list A) (x : A) :
  plan = l ++ rest -> In x l -> In x plan.
Proof. intros -> H. apply in_or_app. now left. Qed.

Lemma upload_put_object (audio title jobId : jsstring) (b f : jsstring) (d : bytes) (n : nat) :
  In (PutObject b f d n) (trace (uploadToMinIOStorage w audio title jobId)) ->
  b = bucketName w /\
  f = Filename.filename_of (Filename.sanitize title) jobId /\
  d = base64_decode w (base64Data audio) /\ n = length d.
Proof.
  intros Hin. pose proof (upload_trace_prefix audio title jobId) as [rest Hrest].
  pose proof (@in_prefix _ _ _ _ _ Hrest Hin) as Hp.
  unfold upload_plan in Hp. cbv zeta in Hp.
  destruct (bucketExists w (bucketName w)) as [e0|[|]];
    destruct (readPolicy w (bucketName w)); cbn [app In] in Hp;
    repeat (destruct Hp as [Hp | Hp]; try discriminate Hp); try contradiction.
  all: injection Hp as <- <- <- <-; repeat split.
Qed.

(** X5. The helper keeps to its plan.  Every operation it performs is one of
    the plan, in the plan's order; a stored object completes the plan;
    without both credentials nothing beyond the import of the client is
    done; the bucket is made only after the check answered that it is
    absent; a URL is signed only for a policy read back as private, for
    604800 seconds; and the object put is the decoded audio under the
    sanitized name, once. *)
Theorem upload_keeps_to_plan (audio title jobId : jsstring) :
  let tr := trace (uploadToMinIOStorage w audio title jobId) in
  (exists rest, upload_plan w audio title jobId = tr ++ rest) /\
  (stored w audio title jobId -> tr = upload_plan w audio title jobId) /\
  (truthy (MINIO_ACCESS_KEY (env w)) = false \/ truthy (MINIO_SECRET_KEY (env w)) = false ->
   tr = [MinioImport]) /\
  (forall b r, In (MakeBucket b r) tr -> bucketExists w b = inr false) /\
  (forall b f e, In (PresignedGetObject b f e) tr ->
                 readPolicy w b = PolicyPrivate /\ e = 604800%Z) /\
  (forall b f d n, In (PutObject b f d n) tr ->
                   b = bucketName w /\
                   f = Filename.filename_of (Filename.sanitize title) jobId /\
                   d = base64_decode w (base64Data audio) /\ n = length d).
Proof.
  cbv zeta. pose proof (upload_trace_prefix audio title jobId) as [rest Hrest].
  split; [now exists rest|]. split; [|split; [|split; [|split]]].
  - intros Hst. destruct (upload_stored Hst) as (u & _ & ->). cbv zeta.
    cbn [trace fst]. unfold upload_plan. cbv zeta.
    destruct (generateUrl_cases (parseEndpoint w) (bucketName w)
                (Filename.filename_of (Filename.sanitize title) jobId)) as [[-> E] | [-> E]].
    + destruct Hst as (_ & _ & _ & _ & [Hb | [Hb _]] & _); rewrite Hb;
        destruct (readPolicy w (bucketName w)); try congruence; reflexivity.
    + destruct Hst as (_ & _ & _ & _ & [Hb | [Hb _]] & _); rewrite Hb, E; reflexivity.
  - intros Hcred. unfold uploadToMinIOStorage.
    destruct (import_minio w) as [e|[]]; steps; [reflexivity|].
    destruct Hcred as [-> | ->]; steps; [reflexivity|].
    destruct (truthy (MINIO_ACCESS_KEY (env w))); reflexivity.
  - intros b r Hin. pose proof (@in_prefix _ _ _ _ _ Hrest Hin) as Hp.
    unfold upload_plan in Hp. cbv zeta in Hp.
    destruct (bucketExists w (bucketName w)) as [e|[|]] eqn:Hb;
      destruct (readPolicy w (bucketName w)); cbn [app In] in Hp;
      repeat (destruct Hp as [Hp | Hp]; try discriminate Hp); try contradiction.
    all: injection Hp as <- _; exact Hb.
  - intros b f e Hin. pose proof (@in_prefix _ _ _ _ _ Hrest Hin) as Hp.
    unfold upload_plan in Hp. cbv zeta in Hp.
    destruct (bucketExists w (bucketName w)) as [e0|[|]];
      destruct (readPolicy w (bucketName w)) eqn:E; cbn [app In] in Hp;
      repeat (destruct Hp as [Hp | Hp]; try discriminate Hp); try contradiction.
    all: injection Hp as <- _ <-; split; [exact E | reflexivity].
  - intros b f d n. apply upload_put_object.
Qed.


Lemma filename_agreement (title : option jsstring) (j : jsstring) :
  Filename.filename_upload title j = Filename.filename title j <-> title <> Some [].
Proof.
  unfold Filename.filename_upload, Filename.filename, Filename.safeTitle_upload,
    Filename.safeTitle.
  destruct title as [[|c t]|]; cbn [or_default nullish_default].
  - split; [|intros H; now contradiction H]. intros H. apply (f_equal (@length N)) in H.
    unfold Filename.filename_of in H. rewrite !length_app in H.
    vm_compute in H. lia.
  - split; [discriminate | reflexivity].
  - split; [discriminate | reflexivity].
Qed.

(** X6. What is uploaded is what was written: every object put in the
    bucket during an approve call carries the bytes of the file written
    locally in that call, with their length; its key is the [filename]
    of the reply unless the title is the empty string, for which the
    local name starts with [podcast] and the key with the underscore. *)
Theorem stored_object_is_local_artifact (req : Request) (b f : jsstring) (d : bytes) (n : nat) :
  In (PutObject b f d n) (trace (POST w req)) ->
  exists j,
    jobId req = Some j /\
    In (FsWriteFile (filePath w (title req) j) d) (trace (POST w req)) /\
    n = length d /\
    f = Filename.filename_upload (title req) j /\
    (f = Filename.filename (title req) j <-> title req <> Some []).
Proof.
  intros Hin.
  destruct (remote_operation req _ Hin eq_refl) as (Hup & conv & j & audio & Hok).
  destruct (POST_local_ok Hok) as (m & _ & HP).
  destruct (mirror_on w req audio j Hup) as (r & _ & HM).
  rewrite HP, HM in *. cbn [trace fst] in *.
  exists j. destruct Hok as (_ & _ & Hj & _). split; [exact Hj|].
  apply in_app_or in Hin as [Hin | Hin].
  - exfalso. unfold local_trace in Hin.
    destruct (fs_access w); cbn [app In] in Hin;
      repeat (destruct Hin as [Hin | Hin]; try discriminate Hin); contradiction.
  - destruct (upload_put_object _ _ _ _ _ _ _ Hin) as (_ & -> & -> & ->).
    split; [|split; [reflexivity|split; [reflexivity|]]].
    + apply in_or_app. left. unfold local_trace.
      apply in_or_app. right. apply in_or_app. right. now left.
    + apply filename_agreement.
Qed.

(** *** The policy installed and the policy read back *)

(** X7. The policy the helper installs passes the helper's own test: when
    the store hands back that policy, the direct URL is issued and
    nothing is signed. *)
Theorem installed_policy_reads_public (audio title jobId policy : jsstring) :
  stored w audio title jobId ->
  getBucketPolicy w (bucketName w) = inr policy ->
  JSON_parse w policy = inr (publicPolicy (bucketName w)) ->
  readPolicy w (bucketName w) = PolicyPublic /\
  result (uploadToMinIOStorage w audio title jobId)
    = inr {| upload_success := true;
             url := Some (publicUrl (parseEndpoint w) (bucketName w)
                            (Filename.filename_of (Filename.sanitize title) jobId));
             upload_error := None |} /\
  existsb is_presign (trace (uploadToMinIOStorage w audio title jobId)) = false.
Proof.
  intros Hst Hget Hparse.
  assert (E : readPolicy w (bucketName w) = PolicyPublic).
  { unfold readPolicy. rewrite Hget, Hparse. reflexivity. }
  split; [exact E|].
  destruct (upload_stored Hst) as (u & Hg & HU). cbv zeta in *.
  rewrite HU. rewrite generateUrl_public in * by exact E.
  cbn [result snd trace fst] in *. injection Hg as <-. split; [reflexivity|].
  now destruct (bucketExists w (bucketName w)) as [?|[|]].
Qed.

(** X8. A statement whose [Principal] is a string, the bare wildcard ["*"]
    included, is never counted as public: a policy made of such
    statements is read as private. *)
Theorem string_principal_reads_private (fields : list (jsstring * JSON)) (stmts : list JSON) :
  assoc (lit "Statement") fields = Some (JArray stmts) ->
  (forall stmt, In stmt stmts ->
     exists fs p, stmt = JObject fs /\ assoc (lit "Principal") fs = Some (JString p)) ->
  isPublic (JObject fields) = inr false.
Proof.
  intros Hs Hall. unfold isPublic. cbn [get]. rewrite Hs. clear Hs.
  induction stmts as [|stmt rest IH]; [reflexivity|].
  cbn [some]. destruct (Hall stmt (or_introl eq_refl)) as (fs & p & -> & Hp).
  unfold allows_everyone. cbn [get]. rewrite Hp.
  destruct (is_string (assoc (lit "Effect") fs) (lit "Allow")); cbn [principal_includes_star get includes_star];
    apply IH; intros s Hin; apply Hall; now right.
Qed.

(** *** The audio payload *)

Lemma includes_comma (s : jsstring) : includes s (lit ",") = true <-> In comma s.
Proof.
  rewrite includes_app. split.
  - intros (a & b & ->). apply in_or_app. right. now left.
  - intros H. apply in_split in H as (a & b & ->). now exists a, b.
Qed.

Lemma takeWhile_not_comma (s r : jsstring) :
  comma_free s ->
  takeWhile (fun d => negb (N.eqb d comma)) (s ++ match r with [] => [] | _ => comma :: r end) = s.
Proof.
  intros H. induction s as [|c s IH]; cbn [app takeWhile].
  - destruct r; reflexivity.
  - destruct (N.eqb_spec c comma) as [-> | _].
    + exfalso. apply H. now left.
    + cbn [negb]. f_equal. apply IH. intros Hin. apply H. now right.
Qed.

Lemma after_first_comma_app (p s : jsstring) :
  comma_free p ->
  after_first_comma (p ++ comma :: s) = takeWhile (fun d => negb (N.eqb d comma)) s.
Proof.
  intros H. induction p as [|c p IH]; cbn [app after_first_comma].
  - now rewrite N.eqb_refl.
  - destruct (N.eqb_spec c comma) as [-> | _].
    + exfalso. apply H. now left.
    + apply IH. intros Hin. apply H. now right.
Qed.

(** X9. The text handed to the base64 decoder: a text without comma is taken
    whole; from a data URL, [prefix,payload], the payload is taken; and
    whatever follows a second comma is dropped. *)
Theorem base64Data_payload (p s r : jsstring) :
  comma_free p -> comma_free s ->
  base64Data s = s /\
  base64Data (p ++ lit "," ++ s) = s /\
  base64Data (p ++ lit "," ++ s ++ lit "," ++ r) = s.
Proof.
  intros Hp Hs. unfold base64Data. split; [|split].
  - destruct (includes s (lit ",")) eqn:E; [|reflexivity].
    apply includes_comma in E. contradiction.
  - replace (includes (p ++ lit "," ++ s) (lit ",")) with true
      by (symmetry; apply includes_comma, in_or_app; right; now left).
    change (lit "," ++ s) with (comma :: s). rewrite after_first_comma_app by exact Hp.
    rewrite <- (app_nil_r s) at 1. exact (takeWhile_not_comma [] Hs).
  - replace (includes (p ++ lit "," ++ s ++ lit "," ++ r) (lit ",")) with true
      by (symmetry; apply includes_comma, in_or_app; right; now left).
    change (lit "," ++ s ++ lit "," ++ r) with (comma :: s ++ comma :: r).
    rewrite after_first_comma_app by exact Hp.
    destruct r as [|c r].
    + induction s as [|x s IH]; cbn [app takeWhile].
      * now rewrite N.eqb_refl.
      * destruct (N.eqb_spec x comma) as [-> | _]; [exfalso; apply Hs; now left|].
        cbn [negb]. f_equal. apply IH. intros Hin. apply Hs. now right.
    + induction s as [|x s IH]; cbn [app takeWhile].
      * now rewrite N.eqb_refl.
      * destruct (N.eqb_spec x comma) as [-> | _]; [exfalso; apply Hs; now left|].
        cbn [negb]. f_equal. apply IH. intros Hin. apply Hs. now right.
Qed.

End ApproveEffects.

(** ** The process stage: replies and the conversation returned *)

Section ProcessReplies.

Import Language Process.

Variable w : World.

Ltac psteps := cbn [bind try_catch call ret negb orb andb fst snd app trace result].

Lemma collect_trace (chunks : list Chunk) (ending : option exn) (full : list Turn) :
  trace (collect full chunks ending)
    = repeat NextChunk (length chunks + match ending with Some _ => 1 | None => 0 end).
Proof.
  revert full. induction chunks as [|chunk rest IH]; intros full.
  - destruct ending; reflexivity.
  - cbn [collect length Nat.add repeat]. unfold bind, call.
    specialize (IH match chunk_conversation chunk with
                   | Some items => fromPartial items
                   | None => full
                   end).
    destruct (collect _ rest ending) as [tr o]. cbn [trace fst] in *. now rewrite IH.
Qed.

Lemma collect_throw (chunks : list Chunk) (e : exn) (full : list Turn) :
  result (collect full chunks (Some e)) = inl e.
Proof.
  revert full. induction chunks as [|chunk rest IH]; intros full; [reflexivity|].
  cbn [collect]. unfold bind, call.
  specialize (IH match chunk_conversation chunk with
                 | Some items => fromPartial items
                 | None => full
                 end).
  destruct (collect _ rest (Some e)) as [tr o]. cbn [result snd] in *. now subst o.
Qed.

Lemma collect_none (chunks : list Chunk) (full : list Turn) :
  Forall (fun c => chunk_conversation c = None) chunks ->
  result (collect full chunks None) = inr full.
Proof.
  revert full. induction chunks as [|chunk rest IH]; intros full H; [reflexivity|].
  inversion H as [|? ? Hc Hrest]; subst. cbn [collect]. unfold bind, call.
  rewrite Hc. specialize (IH full Hrest).
  destruct (collect full rest None) as [tr o]. cbn [result snd] in *. now subst o.
Qed.

Lemma collect_last (pre post : list Chunk) (c : Chunk) (items : list PartialTurn)
      (full : list Turn) :
  chunk_conversation c = Some items ->
  Forall (fun c => chunk_conversation c = None) post ->
  result (collect full (pre ++ c :: post) None) = inr (fromPartial items).
Proof.
  intros Hc Hpost. revert full. induction pre as [|x pre IH]; intros full.
  - cbn [app collect]. unfold bind, call. rewrite Hc.
    pose proof (collect_none (fromPartial items) Hpost) as H.
    destruct (collect (fromPartial items) post None) as [tr o].
    cbn [result snd] in *. now subst o.
  - cbn [app collect]. unfold bind, call.
    specialize (IH match chunk_conversation x with
                   | Some its => fromPartial its
                   | None => full
                   end).
    destruct (collect _ (pre ++ c :: post) None) as [tr o].
    cbn [result snd] in *. now subst o.
Qed.

(** X10. The conversation returned is that of the last chunk that carried
    one, with absent speakers and texts replaced by the empty string,
    and is empty when no chunk carried any; the generator is called
    once and the stream is read to its end. *)
Theorem process_last_chunk_wins (req : Request) (chunks : list Chunk) :
  generation_ok w req chunks ->
  exists reply,
    POST w req = (StreamObject (generation w req) :: repeat NextChunk (length chunks),
                  inr (Ok200 reply)) /\
    processed_jobId reply = or_default (jobId req) [] /\
    (forall pre c post items,
        chunks = pre ++ c :: post ->
        chunk_conversation c = Some items ->
        Forall (fun c => chunk_conversation c = None) post ->
        conversation reply = fromPartial items /\
        length (conversation reply) = length items) /\
    (Forall (fun c => chunk_conversation c = None) chunks -> conversation reply = []).
Proof.
  intros (Ht & Hj & Hkey & Hs). unfold POST. rewrite Ht, Hj, Hs.
  replace (negb (truthy (OPENROUTER_API_KEY (env w))) &&
           negb (truthy (OPENAI_API_KEY (env w)))) with false
    by (destruct Hkey as [-> | ->]; cbn; now rewrite ?andb_false_r).
  psteps.
  pose proof (collect_trace chunks None []) as Htr.
  destruct (collect_ok chunks []) as [conv Hc].
  pose proof (fun pre c post items => @collect_last pre post c items []) as Hlast.
  pose proof (@collect_none chunks []) as Hnone.
  destruct (collect [] chunks None) as [tr o] eqn:E.
  cbn [result snd trace fst] in *. subst o tr. psteps.
  rewrite Nat.add_0_r, app_nil_r. eexists. split; [reflexivity|].
  cbn [processed_jobId conversation]. split; [reflexivity|]. split.
  - intros pre c post items -> Hcc Hpost.
    specialize (Hlast pre c post items Hcc Hpost). rewrite E in Hlast.
    cbn [result snd] in Hlast. injection Hlast as ->.
    split; [reflexivity | apply length_map].
  - intros Hall. specialize (Hnone Hall). congruence.
Qed.

(** X11. The replies of the process stage: 400 without transcript or job id
    and 500 without any generator key, in both cases before any call of
    the generator; 500 with a fixed message when the generator throws,
    at the call or in the middle of the stream, whatever was streamed
    before; and success exactly when the request is valid, a key is
    configured and the stream ends normally. *)
Theorem process_replies (req : Request) :
  (truthy (transcript req) = false \/ truthy (jobId req) = false ->
   POST w req = ([], inr (Failed (mkError 400 (lit "Transcript and jobId are required"))))) /\
  (truthy (transcript req) = true -> truthy (jobId req) = true ->
   truthy (OPENROUTER_API_KEY (env w)) = false -> truthy (OPENAI_API_KEY (env w)) = false ->
   POST w req =
     ([], inr (Failed (mkError 500
                 (lit "Either OPENROUTER_API_KEY or OPENAI_API_KEY must be configured"))))) /\
  (forall reply, result (POST w req) = inr (Failed reply) ->
                 status reply = 400%Z \/ status reply = 500%Z) /\
  (forall chunks e,
      truthy (transcript req) = true -> truthy (jobId req) = true ->
      truthy (OPENROUTER_API_KEY (env w)) = true \/ truthy (OPENAI_API_KEY (env w)) = true ->
      streamObject w (generation w req) = inr (chunks, Some e) ->
      result (POST w req) = inr (Failed (mkError 500 (lit "Failed to process transcript")))) /\
  ((exists reply, result (POST w req) = inr (Ok200 reply)) <->
   (exists chunks, generation_ok w req chunks)).
Proof.
  split; [|split; [|split; [|split]]].
  - intros H. unfold POST.
    replace (negb (truthy (transcript req)) || negb (truthy (jobId req))) with true
      by (destruct H as [-> | ->]; cbn; now rewrite ?orb_true_r).
    reflexivity.
  - intros Ht Hj H1 H2. unfold POST. rewrite Ht, Hj, H1, H2. reflexivity.
  - intros reply. unfold POST.
    destruct (negb (truthy (transcript req)) || negb (truthy (jobId req))).
    { psteps. intros H. injection H as <-. now left. }
    destruct (negb (truthy (OPENROUTER_API_KEY (env w))) &&
              negb (truthy (OPENAI_API_KEY (env w)))).
    { psteps. intros H. injection H as <-. now right. }
    destruct (streamObject w (generation w req)) as [e|[chunks ending]]; psteps.
    { intros H. injection H as <-. now right. }
    destruct (collect [] chunks ending) as [tr [e|conv]]; psteps.
    { intros H. injection H as <-. now right. }
    discriminate.
  - intros chunks e Ht Hj Hkey Hs. unfold POST. rewrite Ht, Hj, Hs.
    replace (negb (truthy (OPENROUTER_API_KEY (env w))) &&
             negb (truthy (OPENAI_API_KEY (env w)))) with false
      by (destruct Hkey as [-> | ->]; cbn; now rewrite ?andb_false_r).
    psteps. pose proof (collect_throw chunks e []) as Hc.
    destruct (collect [] chunks (Some e)) as [tr o]. cbn [result snd] in Hc. subst o.
    reflexivity.
  - split.
    + intros [reply Hr]. revert Hr. unfold POST, generation_ok.
      destruct (truthy (transcript req)); [|discriminate].
      destruct (truthy (jobId req)); [|discriminate].
      destruct (truthy (OPENROUTER_API_KEY (env w))) eqn:K1;
        destruct (truthy (OPENAI_API_KEY (env w))) eqn:K2; cbn [negb orb andb];
        try discriminate.
      all: destruct (streamObject w (generation w req)) as [e|[chunks [e|]]] eqn:Hs;
        psteps; try discriminate.
      all: try (pose proof (collect_throw chunks e []) as Hc;
                destruct (collect [] chunks (Some e)) as [tr o];
                cbn [result snd] in Hc; subst o; discriminate).
      all: intros _; exists chunks; auto.
    + intros [chunks Hok]. apply (POST_generation_ok Hok).
Qed.

End ProcessReplies.

(** ** Language tags across the stages *)

Section LanguageAgreement.

Import Language.

Lemma selectedLanguage_receive_eq (language : option jsstring) :
  selectedLanguage_receive language = selectedLanguage language.
Proof.
  unfold selectedLanguage_receive, selectedLanguage.
  destruct language as [[|c l]|]; reflexivity.
Qed.

Lemma selectedLanguage_In (language : option jsstring) :
  In (selectedLanguage language) validLanguages.
Proof.
  unfold selectedLanguage.
  destruct (is_valid (nullish_default language (lit "en"))) eqn:E.
  - now apply is_valid_In.
  - now left.
Qed.

Lemma selectedLanguage_idem (language : option jsstring) :
  selectedLanguage (Some (selectedLanguage language)) = selectedLanguage language.
Proof. apply selectedLanguage_valid, selectedLanguage_In. Qed.

(** X12. The receive stage and the process stage resolve every tag alike, to
    one of the eleven codes, and resolving a resolved tag changes
    nothing: the language a receive reply passes on is the language the
    process stage works in. *)
Theorem language_resolution_agrees (language : option jsstring) :
  selectedLanguage_receive language = selectedLanguage language /\
  In (selectedLanguage language) validLanguages /\
  selectedLanguage (Some (selectedLanguage language)) = selectedLanguage language /\
  languageName (selectedLanguage language) <> [].
Proof.
  pose proof (selectedLanguage_In language) as Hin.
  split; [|split; [exact Hin|split]].
  - apply selectedLanguage_receive_eq.
  - apply selectedLanguage_idem.
  - revert Hin. generalize (selectedLanguage language). intros l Hin.
    cbn in Hin. repeat (destruct Hin as [<- | Hin]; [discriminate|]). contradiction.
Qed.

End LanguageAgreement.

(** ** The receive stage: refusal and the identity of jobs *)

Section ReceiveFacts.

Import Transcript.

Lemma lit_inj (a b : string) : lit a = lit b -> a = b.
Proof.
  unfold lit. intros H.
  rewrite <- (string_of_list_ascii_of_string a), <- (string_of_list_ascii_of_string b).
  f_equal. revert H. generalize (list_ascii_of_string a) (list_ascii_of_string b).
  induction l as [|x l IH]; intros [|y l'] H; try discriminate; [reflexivity|].
  cbn [map] in H. injection H as Hx Hl. f_equal; [|now apply IH].
  rewrite <- (ascii_N_embedding x), <- (ascii_N_embedding y). now f_equal.
Qed.

(** The decimal text of an integer determines the integer. *)
Lemma Number_toString_inj (z z' : Z) :
  Number_toString (Int z) = Number_toString (Int z') -> z = z'.
Proof.
  unfold Number_toString. intros H. apply lit_inj in H.
  apply DecimalZ.to_int_inj.
  assert (Hn : forall x, Z.to_int x <> Decimal.Pos Decimal.Nil /\
                         Z.to_int x <> Decimal.Neg Decimal.Nil).
  { intros [|p|p]; cbn [Z.to_int]; split; try discriminate;
      intros E; injection E as E; exact (DecimalPos.Unsigned.to_uint_nonnil p E). }
  destruct (Hn z) as [H1 H2]. destruct (Hn z') as [H1' H2'].
  pose proof (NilZero.isi _ H1 H2) as E. rewrite H in E.
  rewrite (NilZero.isi _ H1' H2') in E. now injection E.
Qed.

Lemma uint_no_underscore (d : Decimal.uint) :
  no_underscore (lit (NilEmpty.string_of_uint d)).
Proof.
  induction d; cbn [NilEmpty.string_of_uint]; rewrite ?lit_String;
    intros H; try (destruct H as [H | H]; [discriminate H | now apply IHd]).
  exact H.
Qed.

Lemma Number_toString_no_underscore (z : Z) : no_underscore (Number_toString (Int z)).
Proof.
  unfold Number_toString. destruct z as [|p|p]; cbn [Z.to_int NilZero.string_of_int].
  - intros [H | []]. discriminate H.
  - unfold NilZero.string_of_uint. destruct (Pos.to_uint p) eqn:E;
      try (rewrite <- E; apply uint_no_underscore).
    intros [H | []]. discriminate H.
  - rewrite lit_String. intros [H | H]; [discriminate H|]. revert H.
    unfold NilZero.string_of_uint. destruct (Pos.to_uint p) eqn:E;
      try (rewrite <- E; apply uint_no_underscore).
    intros [H | []]. discriminate H.
Qed.

Lemma split_at_underscore (a a' s s' : jsstring) :
  no_underscore a -> no_underscore a' ->
  a ++ underscore :: s = a' ++ underscore :: s' -> a = a' /\ s = s'.
Proof.
  revert a'. induction a as [|x a IH]; intros [|y a'] Ha Ha' H; cbn [app] in H.
  - injection H as ->. now split.
  - injection H as <- _. exfalso. apply Ha'. now left.
  - injection H as -> _. exfalso. apply Ha. now left.
  - injection H as -> H. destruct (IH a') as [-> ->]; auto.
    + intros Hin. apply Ha. now right.
    + intros Hin. apply Ha'. now right.
Qed.

Lemma mintJobId_inj (now now' : Z) (r r' : jsstring) :
  mintJobId now r = mintJobId now' r' ->
  now = now' /\ substring_from 7 r = substring_from 7 r'.
Proof.
  unfold mintJobId. intros H. apply app_inv_head in H.
  change (lit "_" ++ substring_from 7 r) with (underscore :: substring_from 7 r) in H.
  change (lit "_" ++ substring_from 7 r') with (underscore :: substring_from 7 r') in H.
  apply split_at_underscore in H as [Hn Hs];
    try apply Number_toString_no_underscore.
  split; [now apply Number_toString_inj | exact Hs].
Qed.

(** X13. A request without transcript, or with the empty one, is refused with
    400 before the clock or the random source is read; every other
    request gets the success reply.  Two success replies carry the same
    job id only if the clock read the same millisecond and the random
    texts agree from their eighth code unit on. *)
Theorem receive_mints_distinct_ids (w1 w2 : World) (req1 req2 : Request) :
  (truthy (transcript req1) = false ->
   POST w1 req1 = ([], inr (Failed (mkError 400 (lit "Transcript is required"))))) /\
  (truthy (transcript req1) = true ->
   exists reply, POST w1 req1 = ([DateNow; MathRandom], inr (Ok200 reply)) /\
                 jobId reply = mintJobId (Date_now w1) (random_base36 w1)) /\
  (forall r1 r2,
      result (POST w1 req1) = inr (Ok200 r1) ->
      result (POST w2 req2) = inr (Ok200 r2) ->
      jobId r1 = jobId r2 ->
      Date_now w1 = Date_now w2 /\
      substring_from 7 (random_base36 w1) = substring_from 7 (random_base36 w2)).
Proof.
  split; [|split].
  - intros H. unfold POST. rewrite H. reflexivity.
  - intros H. unfold POST. rewrite H. eexists. split; reflexivity.
  - intros r1 r2. unfold POST.
    destruct (truthy (transcript req1)); [|discriminate].
    destruct (truthy (transcript req2)); [|discriminate].
    cbn [negb bind try_catch call ret fst snd app result].
    intros H1 H2. injection H1 as <-. injection H2 as <-. cbn [jobId].
    apply mintJobId_inj.
Qed.

End ReceiveFacts.

(** ** The download stage: what is served *)

Section DownloadMore.

Import Download.

Variable w : World.

Ltac dsteps := cbn [bind try_catch call ret fst snd app trace result].

(** The name the approve stage gives the artifact of a job is accepted
    by the download stage for that job. *)
Lemma artifact_matches (title : option jsstring) (j : jsstring) :
  matches j (Filename.filename title j) = true.
Proof.
  apply matches_spec. unfold Filename.filename, Filename.filename_of. split.
  - exists (Filename.safeTitle title ++ lit "_"), (lit ".mp3"). now rewrite <- app_assoc.
  - exists (Filename.safeTitle title ++ lit "_" ++ j). now rewrite <- !app_assoc.
Qed.

Lemma find_unique {A} (p : A -> bool) (l : list A) (x : A) :
  In x l -> p x = true -> (forall y, In y l -> p y = true -> y = x) ->
  find p l = Some x.
Proof.
  intros Hin Hx Hu. induction l as [|y l IH]; [contradiction|]. cbn [find].
  destruct (p y) eqn:E.
  - f_equal. apply Hu; [now left | exact E].
  - destruct Hin as [-> | Hin]; [congruence|].
    apply IH; [exact Hin|]. intros z Hz. apply Hu. now right.
Qed.

Lemma slug_char_value_unit (c : N) :
  Filename.slug_char c = true -> Headers.value_unit c = true.
Proof.
  intros H. unfold Headers.value_unit.
  destruct (N.eqb_spec c 0) as [-> | _]; [vm_compute in H; discriminate H|].
  destruct (N.eqb_spec c 10) as [-> | _]; [vm_compute in H; discriminate H|].
  destruct (N.eqb_spec c 13) as [-> | _]; [vm_compute in H; discriminate H|].
  rewrite !andb_true_r. apply N.leb_le.
  unfold Filename.slug_char, is_alnum, is_alpha, is_lower, is_upper, is_digit, underscore in H.
  repeat rewrite orb_true_iff in H. repeat rewrite andb_true_iff in H.
  repeat rewrite N.leb_le in H. rewrite N.eqb_eq in H. lia.
Qed.

(** The header made of the name of an artifact is accepted exactly
    when every code unit of the job id is: the slug of the title is
    made of letters, digits and underscores. *)
Lemma artifact_header (title : option jsstring) (j : jsstring) :
  Headers.valid_value (disposition (Filename.filename title j))
    = forallb Headers.value_unit j.
Proof.
  unfold Headers.valid_value, disposition, Filename.filename, Filename.filename_of.
  rewrite !forallb_app.
  replace (forallb Headers.value_unit (Filename.safeTitle title)) with true.
  - cbn [lit list_ascii_of_string map forallb]. cbn. now rewrite !andb_true_r.
  - symmetry. eapply forallb_weaken; [apply slug_char_value_unit|apply sanitize_chars].
Qed.

(** X14. Round trip with the approve stage: when the archive directory lists
    the artifact named for job [j], which can be read, and no other
    listed name matches [j], the download of [j] reads that artifact,
    wherever it stands in the listing; it serves its content, with its
    length as Content-Length, when no code unit of the job id is above
    255 or is NUL, a line feed or a carriage return; and it replies
    500 for any other job id, whose artifact the header cannot name. *)
Theorem download_finds_artifact (title : option jsstring) (j : jsstring)
        (files : list jsstring) (data : bytes) :
  j <> [] ->
  readdir w = inr files ->
  In (Filename.filename title j) files ->
  (forall other, In other files -> matches j other = true ->
                 other = Filename.filename title j) ->
  readFile w (Filename.filename title j) = inr data ->
  (forallb Headers.value_unit j = true ->
   GET w j =
     ([Readdir; ReadFile (Filename.filename title j)],
      inr (Ok200
             {| content := data;
                contentType := lit "audio/mpeg";
                contentDisposition :=
                  lit "attachment; filename=" ++ [34] ++ Filename.filename title j ++ [34];
                contentLength := Number_toString (Int (Z.of_nat (length data))) |}))) /\
  (forallb Headers.value_unit j = false ->
   GET w j =
     ([Readdir; ReadFile (Filename.filename title j)],
      inr (Failed (mkError 500 (lit "Failed to serve file"))))).
Proof.
  intros Hj Hdir Hin Hu Hread.
  rewrite (@GET_found w j files (Filename.filename title j) Hj Hdir
             (@find_unique _ _ _ _ Hin (artifact_matches title j) Hu)).
  rewrite Hread, artifact_header. split; intros ->; reflexivity.
Qed.

(** X15. A job id that occurs inside another job's id, or inside the slug of
    another artifact's title, is answered with that other artifact when
    it is listed first: with its content when the header can name it,
    and with the reply 500 otherwise. *)
Theorem download_id_collision (title' : option jsstring) (j j' : jsstring)
        (rest : list jsstring) (data' : bytes) :
  j <> [] ->
  includes j' j = true \/ includes (Filename.safeTitle title') j = true ->
  readdir w = inr (Filename.filename title' j' :: rest) ->
  readFile w (Filename.filename title' j') = inr data' ->
  matches j (Filename.filename title' j') = true /\
  (forallb Headers.value_unit j' = true ->
   exists reply,
     result (GET w j) = inr (Ok200 reply) /\
     content reply = data' /\
     contentDisposition reply
       = lit "attachment; filename=" ++ [34] ++ Filename.filename title' j' ++ [34]) /\
  (forallb Headers.value_unit j' = false ->
   GET w j =
     ([Readdir; ReadFile (Filename.filename title' j')],
      inr (Failed (mkError 500 (lit "Failed to serve file"))))).
Proof.
  intros Hj Hinc Hdir Hread.
  assert (Hm : matches j (Filename.filename title' j') = true).
  { apply matches_spec. unfold Filename.filename, Filename.filename_of. split.
    - destruct Hinc as [H | H]; apply includes_app in H as (a & b & ->).
      + exists (Filename.safeTitle title' ++ lit "_" ++ a), (b ++ lit ".mp3").
        now rewrite <- !app_assoc.
      + exists a, (b ++ lit "_" ++ j' ++ lit ".mp3"). now rewrite <- !app_assoc.
    - exists (Filename.safeTitle title' ++ lit "_" ++ j'). now rewrite <- !app_assoc. }
  split; [exact Hm|].
  assert (Hfind : find (matches j) (Filename.filename title' j' :: rest)
                  = Some (Filename.filename title' j'))
    by (cbn [find]; now rewrite Hm).
  rewrite (@GET_found w j _ _ Hj Hdir Hfind), Hread, artifact_header.
  split; intros ->; [|reflexivity].
  eexists. split; [reflexivity|]. split; reflexivity.
Qed.

(** X16. The other replies of the download stage: 400 for an empty job id,
    before the directory is read; 500 when the directory cannot be read
    or the matching file cannot be read.  And whatever is served is the
    content of a listed file whose name contains the job id and ends
    with [.mp3], under a header the platform accepts. *)
Theorem download_serves_only_matching (j : jsstring) :
  (j = [] -> GET w j = ([], inr (Failed (mkError 400 (lit "Job ID is required"))))) /\
  (forall e, j <> [] -> readdir w = inl e ->
             GET w j = ([Readdir], inr (Failed (mkError 500 (lit "Failed to serve file"))))) /\
  (forall files f e, j <> [] -> readdir w = inr files ->
                     find (matches j) files = Some f -> readFile w f = inl e ->
                     GET w j = ([Readdir; ReadFile f],
                                inr (Failed (mkError 500 (lit "Failed to serve file"))))) /\
  (forall reply, result (GET w j) = inr (Ok200 reply) ->
     exists files f,
       readdir w = inr files /\ In f files /\
       includes f j = true /\ endsWith f (lit ".mp3") = true /\
       readFile w f = inr (content reply) /\
       contentLength reply = Number_toString (Int (Z.of_nat (length (content reply)))) /\
       Headers.valid_value (contentDisposition reply) = true).
Proof.
  split; [|split; [|split]].
  - intros ->. reflexivity.
  - intros e Hj Hdir. unfold GET. destruct j; [congruence|]. now rewrite Hdir.
  - intros files f e Hj Hdir Hf Hread.
    now rewrite (@GET_found w j files f Hj Hdir Hf), Hread.
  - intros reply. destruct j as [|c j]; [discriminate|].
    destruct (readdir w) as [e|files] eqn:Hdir;
      [unfold GET; rewrite Hdir; discriminate|].
    destruct (find (matches (c :: j)) files) as [f|] eqn:Hf;
      [|unfold GET; rewrite Hdir; dsteps; rewrite Hf; discriminate].
    rewrite (@GET_found w (c :: j) files f ltac:(discriminate) Hdir Hf).
    destruct (readFile w f) as [e|data] eqn:Hread; [discriminate|].
    cbn [result snd].
    destruct (Headers.valid_value (disposition f)) eqn:Hv; [|discriminate].
    intros H. injection H as <-. cbn [content contentLength contentDisposition].
    apply find_some in Hf as [Hin Hm]. unfold matches in Hm.
    apply andb_true_iff in Hm as [H1 H2].
    exists files, f. repeat split; assumption.
Qed.

End DownloadMore.

(** ** The four stages in sequence *)

Section PipelineFacts.

Import Pipeline.

Lemma receive_reply_inv (wr : Transcript.World) (req : Transcript.Request)
      (r : Transcript.Received) :
  result (Transcript.POST wr req) = inr (Transcript.Ok200 r) ->
  Transcript.jobId r = Transcript.mintJobId (Transcript.Date_now wr) (Transcript.random_base36 wr) /\
  Transcript.body_jobId (Transcript.body (Transcript.nextStep r)) = Transcript.jobId r /\
  Transcript.body_transcript (Transcript.body (Transcript.nextStep r)) <> [] /\
  Some (Transcript.body_transcript (Transcript.body (Transcript.nextStep r)))
    = Transcript.transcript req /\
  Transcript.body_language (Transcript.body (Transcript.nextStep r))
    = Language.selectedLanguage (Transcript.language req) /\
  Transcript.received_language r = Language.selectedLanguage (Transcript.language req).
Proof.
  unfold Transcript.POST.
  destruct (Transcript.transcript req) as [[|c t]|]; cbn [truthy negb]; try discriminate.
  cbn [bind try_catch call ret fst snd app result]. intros H. injection H as <-.
  cbn. rewrite selectedLanguage_receive_eq.
  repeat split; discriminate.
Qed.

(** X17. The job id threads the pipeline.  When the caller follows the
    [nextStep] of a receive reply, the process stage never refuses the
    request with 400; its reply carries the job id and the language of
    the receive reply; the approve stage, called with that reply, names
    the artifact after the same job id; and the download stage accepts
    that name for that job id. *)
Theorem job_id_threads_the_stages
        (wr : Transcript.World) (wp : Process.World) (wa : Approve.World)
        (req : Transcript.Request) (r1 : Transcript.Received)
        (voice1 voice2 : option jsstring) (upload : option bool) :
  result (Transcript.POST wr req) = inr (Transcript.Ok200 r1) ->
  let preq := process_request (Transcript.body (Transcript.nextStep r1)) in
  (forall reply, result (Process.POST wp preq) = inr (Process.Failed reply) ->
                 status reply = 500%Z) /\
  (forall r2, result (Process.POST wp preq) = inr (Process.Ok200 r2) ->
     Process.processed_jobId r2 = Transcript.jobId r1 /\
     Process.processed_language r2 = Transcript.received_language r1 /\
     forall r3,
       result (Approve.POST wa (approve_request r2 voice1 voice2 upload))
         = inr (Approve.Ok200 r3) ->
       Approve.approved_jobId r3 = Transcript.jobId r1 /\
       Approve.approved_filename r3
         = Filename.safeTitle (Some (Process.processed_title r2))
             ++ lit "_" ++ Transcript.jobId r1 ++ lit ".mp3" /\
       Download.matches (Transcript.jobId r1) (Approve.approved_filename r3) = true).
Proof.
  intros H1. cbv zeta.
  destruct (receive_reply_inv _ _ H1) as (Hid & Hbj & Hbt & _ & Hbl & Hrl).
  assert (Hjne : Transcript.jobId r1 <> []) by (rewrite Hid; discriminate).
  assert (Ht : truthy (Process.transcript
                         (process_request (Transcript.body (Transcript.nextStep r1)))) = true).
  { cbn [process_request Process.transcript]. now apply truthy_some. }
  assert (Hj : truthy (Process.jobId
                         (process_request (Transcript.body (Transcript.nextStep r1)))) = true).
  { cbn [process_request Process.jobId]. rewrite Hbj. now apply truthy_some. }
  split.
  - intros reply. unfold Process.POST. rewrite Ht, Hj. cbn [negb orb].
    destruct (negb _ && negb _);
      [cbn [try_catch ret result snd]; intros H; injection H as <-; reflexivity|].
    destruct (Process.streamObject wp _) as [e|[chunks ending]];
      cbn [bind try_catch call ret fst snd app result];
      [intros H; injection H as <-; reflexivity|].
    destruct (Process.collect [] chunks ending) as [tr [e|conv]];
      cbn [bind try_catch call ret fst snd app result];
      [intros H; injection H as <-; reflexivity | discriminate].
  - intros r2 Hr2.
    assert (Hpj : Process.processed_jobId r2 = Transcript.jobId r1 /\
                  Process.processed_language r2 = Transcript.received_language r1).
    { pose proof (POST_language _ _ Hr2) as Hl. split.
      - revert Hr2. unfold Process.POST. rewrite Ht, Hj. cbn [negb orb].
        destruct (negb _ && negb _); [discriminate|].
        destruct (Process.streamObject wp _) as [e|[chunks ending]];
          cbn [bind try_catch call ret fst snd app result]; [discriminate|].
        destruct (Process.collect [] chunks ending) as [tr [e|conv]];
          cbn [bind try_catch call ret fst snd app result]; [discriminate|].
        intros H. injection H as <-. cbn [Process.processed_jobId process_request Process.jobId].
        rewrite Hbj. now apply or_default_nonempty.
      - rewrite Hl. cbn [process_request Process.language]. rewrite Hbl, Hrl.
        apply selectedLanguage_idem. }
    destruct Hpj as [Hpj Hpl]. split; [exact Hpj|]. split; [exact Hpl|].
    intros r3 Hr3.
    destruct (POST_ok_inv wa _ Hr3) as (conv & j & audio & Hok).
    destruct (POST_local_ok Hok) as (m & _ & HP). rewrite HP in Hr3.
    cbn [result snd] in Hr3. injection Hr3 as <-.
    cbn [Approve.approved_jobId Approve.approved_filename].
    destruct Hok as (_ & _ & Hj3 & _). cbn [approve_request Approve.jobId Approve.title] in *.
    injection Hj3 as <-. rewrite Hpj.
    split; [reflexivity|]. split; [reflexivity|]. apply artifact_matches.
Qed.

End PipelineFacts.

(** ** The archive routes *)

Section ArchiveFacts.

Import Archive.

Variable w : World.

Ltac asteps := cbn [bind try_catch call ret throw negb orb andb fst snd app trace result].

Lemma includes_In (s : jsstring) (c : N) : includes s [c] = true <-> In c s.
Proof.
  rewrite includes_app. split.
  - intros (a & b & ->). apply in_or_app. right. now left.
  - intros H. apply in_split in H as (a & b & ->). now exists a, b.
Qed.

Lemma traversal_spec (filename : jsstring) :
  traversal filename = true <->
  (exists a b, filename = a ++ lit ".." ++ b) \/ In 47 filename \/ In 92 filename.
Proof.
  unfold traversal. rewrite !orb_true_iff, includes_app.
  change (lit "/") with [47]. rewrite !includes_In. tauto.
Qed.

Lemma plain_prefix_no_traversal (a : jsstring) :
  forallb plain a = true -> traversal (a ++ lit ".mp3") = false.
Proof.
  induction a as [|c a IH]; [reflexivity|]. cbn [forallb]. intros H.
  apply andb_true_iff in H as [Hc Ha]. specialize (IH Ha).
  unfold traversal in *. apply orb_false_iff in IH as [IH H3].
  apply orb_false_iff in IH as [H1 H2].
  unfold plain in Hc. apply andb_true_iff in Hc as [Hc Hc3].
  apply andb_true_iff in Hc as [Hc1 Hc2].
  apply negb_true_iff in Hc1, Hc2, Hc3.
  cbn [app includes]. rewrite H1, H2, H3.
  change (lit "..") with [46; 46]. change (lit "/") with [47].
  cbn [startsWith]. rewrite (N.eqb_sym 46 c), (N.eqb_sym 47 c), (N.eqb_sym 92 c).
  now rewrite Hc1, Hc2, Hc3.
Qed.

Lemma slug_char_plain (c : N) : Filename.slug_char c = true -> plain c = true.
Proof.
  unfold Filename.slug_char, plain, is_alnum, is_alpha, is_lower, is_upper, is_digit,
    underscore.
  intros H.
  destruct (N.eqb_spec c 46) as [-> | _]; [discriminate H|].
  destruct (N.eqb_spec c 47) as [-> | _]; [discriminate H|].
  destruct (N.eqb_spec c 92) as [-> | _]; [discriminate H|]. reflexivity.
Qed.

Lemma uint_plain (d : Decimal.uint) :
  forallb plain (lit (NilEmpty.string_of_uint d)) = true.
Proof.
  induction d; cbn [NilEmpty.string_of_uint]; rewrite ?lit_String;
    cbn [forallb]; try rewrite IHd; reflexivity.
Qed.

Lemma Number_toString_plain (z : Z) : forallb plain (Number_toString (Int z)) = true.
Proof.
  unfold Number_toString. destruct z as [|p|p]; cbn [Z.to_int NilZero.string_of_int].
  - reflexivity.
  - unfold NilZero.string_of_uint. destruct (Pos.to_uint p) eqn:E;
      try (rewrite <- E; apply uint_plain). reflexivity.
  - rewrite lit_String. cbn [forallb]. rewrite andb_true_iff. split; [reflexivity|].
    unfold NilZero.string_of_uint. destruct (Pos.to_uint p) eqn:E;
      try (rewrite <- E; apply uint_plain). reflexivity.
Qed.

Lemma safeTitle_plain (title : option jsstring) : forallb plain (safeTitle title) = true.
Proof.
  unfold safeTitle. destruct (truthy title); [|reflexivity].
  eapply forallb_weaken; [apply slug_char_plain | apply sanitize_chars].
Qed.

Lemma stem_plain (title : option jsstring) (ts : Z) : forallb plain (stem title ts) = true.
Proof.
  unfold stem. rewrite !forallb_app, safeTitle_plain, Number_toString_plain. reflexivity.
Qed.

Lemma path_join_file (dir a ext : jsstring) :
  ext = lit ".mp3" \/ ext = lit ".json" ->
  path_join dir (a ++ ext) = dir ++ lit "/" ++ a ++ ext.
Proof.
  intros Hext. unfold path_join.
  replace (str_eqb (a ++ ext) [] || str_eqb (a ++ ext) (lit ".")) with false; [reflexivity|].
  symmetry. apply orb_false_iff. split.
  - destruct a; destruct Hext as [-> | ->]; reflexivity.
  - destruct (str_eqb (a ++ ext) (lit ".")) eqn:E; [|reflexivity].
    apply str_eqb_eq in E. apply (f_equal (@length N)) in E. rewrite length_app in E.
    destruct Hext as [-> | ->]; cbn in E; lia.
Qed.

Lemma uint_value_unit (d : Decimal.uint) :
  forallb Headers.value_unit (lit (NilEmpty.string_of_uint d)) = true.
Proof.
  induction d; cbn [NilEmpty.string_of_uint]; rewrite ?lit_String;
    cbn [forallb]; try rewrite IHd; reflexivity.
Qed.

Lemma Number_toString_value_unit (z : Z) :
  forallb Headers.value_unit (Number_toString (Int z)) = true.
Proof.
  unfold Number_toString. destruct z as [|p|p]; cbn [Z.to_int NilZero.string_of_int].
  - reflexivity.
  - unfold NilZero.string_of_uint. destruct (Pos.to_uint p) eqn:E;
      try (rewrite <- E; apply uint_value_unit). reflexivity.
  - rewrite lit_String. cbn [forallb]. rewrite andb_true_iff. split; [reflexivity|].
    unfold NilZero.string_of_uint. destruct (Pos.to_uint p) eqn:E;
      try (rewrite <- E; apply uint_value_unit). reflexivity.
Qed.

(** The header that names a saved file is accepted. *)
Lemma saved_header (title : option jsstring) (ts : Z) :
  Headers.valid_value
    (lit "attachment; filename=" ++ [34] ++ (stem title ts ++ lit ".mp3") ++ [34]) = true.
Proof.
  unfold Headers.valid_value, stem. rewrite !forallb_app, Number_toString_value_unit.
  replace (forallb Headers.value_unit (safeTitle title)) with true; [reflexivity|].
  symmetry. unfold safeTitle. destruct (truthy title); [|reflexivity].
  eapply forallb_weaken; [apply slug_char_value_unit|apply sanitize_chars].
Qed.

(** *** The path-traversal guard *)

(** X18. A file name that contains [".."], a slash or a backslash is refused
    with 400 by the file route and by DELETE before the file system is
    touched; and the only paths these two routes ever touch are the
    file of that name in the archive directory and, for DELETE, the
    path derived from it for the metadata. *)
Theorem archive_guard (filename : jsstring) :
  (traversal filename = true <->
   (exists a b, filename = a ++ lit ".." ++ b) \/ In 47 filename \/ In 92 filename) /\
  (traversal filename = true ->
   GET_file w filename = ([], inr (FileFailed (mkError 400 (lit "Invalid filename")))) /\
   DELETE w (Some filename)
     = ([], inr (DeleteFailed (mkError 400 (lit "Invalid filename"))))) /\
  (forall ev, In ev (trace (GET_file w filename)) ->
              traversal filename = false /\
              path_of ev = Some (path_join (archiveDir w) filename)) /\
  (forall ev, In ev (trace (DELETE w (Some filename))) ->
              traversal filename = false /\
              (path_of ev = Some (path_join (archiveDir w) filename) \/
               path_of ev = Some (replace_first (lit ".mp3") (lit ".json")
                                    (path_join (archiveDir w) filename)))).
Proof.
  split; [apply traversal_spec|]. split; [|split].
  - intros H. split.
    + unfold GET_file. now rewrite H.
    + unfold DELETE. destruct filename as [|c f]; [discriminate H|].
      cbn [truthy negb or_default]. now rewrite H.
  - intros ev. unfold GET_file. destruct (traversal filename); asteps; [intros []|].
    destruct (fs_access w _) as [e|[]]; asteps.
    + intros [<- | []]. split; reflexivity.
    + destruct (fs_readFile w _) as [e|data]; asteps;
        [intros [<- | [<- | []]]; split; reflexivity|].
      unfold Headers.check. destruct (Headers.valid_value _); asteps;
        intros [<- | [<- | []]]; split; reflexivity.
  - intros ev. unfold DELETE. destruct filename as [|c f]; [intros []|].
    cbn [truthy negb or_default]. destruct (traversal (c :: f)); asteps; [intros []|].
    destruct (fs_access w _) as [e|[]]; asteps.
    + intros [<- | []]. split; [reflexivity | now left].
    + destruct (fs_unlink w (path_join _ _)) as [e|[]]; asteps.
      * intros [<- | [<- | []]]; split; try reflexivity; now left.
      * destruct (fs_unlink w (replace_first _ _ _)) as [e|[]]; asteps;
          intros [<- | [<- | [<- | []]]]; split; try reflexivity; auto.
Qed.


(** *** Saving, fetching and deleting *)

Lemma POST_saved_inv (req : SaveRequest) (reply : Saved) :
  result (POST w req) = inr (SaveOk reply) ->
  saved_filename reply = stem (title req) (Date_now w) ++ lit ".mp3" /\
  exists pre,
    trace (POST w req) =
      pre ++ [DateNow;
              WriteFile (archiveDir w ++ lit "/" ++ stem (title req) (Date_now w) ++ lit ".mp3")
                (Audio (base64_decode w
                          (Approve.base64Data (or_default (audioBase64 req) []))));
              NewDate;
              WriteFile (archiveDir w ++ lit "/" ++ stem (title req) (Date_now w) ++ lit ".json")
                (Document {| meta_title := or_default (title req) (lit "Untitled Podcast");
                             meta_conversation := conversation req;
                             meta_createdAt := Date_toISOString w;
                             audioFile := stem (title req) (Date_now w) ++ lit ".mp3" |})].
Proof.
  unfold POST, ensureArchiveDir.
  destruct (fs_access w (archiveDir w)) as [e|[]]; asteps.
  1: destruct (fs_mkdir w (archiveDir w)) as [e'|[]]; asteps; [discriminate|].
  all: destruct (truthy (audioBase64 req)); asteps; [|discriminate].
  all: rewrite !path_join_file by auto.
  all: destruct (fs_writeFile w _ (Audio _)) as [e1|[]]; asteps; [discriminate|].
  all: destruct (fs_writeFile w _ (Document _)) as [e2|[]]; asteps; [discriminate|].
  all: intros H; injection H as <-; split; [reflexivity|].
  - now exists [Access (archiveDir w); Mkdir (archiveDir w)].
  - now exists [Access (archiveDir w)].
Qed.

(** X19. What the save route stores can be fetched: the file name of a
    success reply is the sanitized title, the time stamp and [.mp3]; it
    is never refused by the path-traversal guard; the audio was written
    at that name in the archive directory, with the metadata beside it
    under the extension [.json]; and the file route, asked for that
    name, reads the path that was written. *)
Theorem saved_file_is_reachable (req : SaveRequest) (reply : Saved) :
  result (POST w req) = inr (SaveOk reply) ->
  let f := saved_filename reply in
  let path := archiveDir w ++ lit "/" ++ f in
  f = stem (title req) (Date_now w) ++ lit ".mp3" /\
  traversal f = false /\
  (exists data, In (WriteFile path (Audio data)) (trace (POST w req))) /\
  (exists m, In (WriteFile (archiveDir w ++ lit "/" ++ stem (title req) (Date_now w)
                              ++ lit ".json") (Document m)) (trace (POST w req)) /\
             audioFile m = f) /\
  (forall data,
      fs_access w path = inr tt -> fs_readFile w path = inr data ->
      GET_file w f =
        ([Access path; ReadFile path],
         inr (FileOk {| content := data;
                        contentType := lit "audio/mpeg";
                        contentDisposition := lit "attachment; filename=" ++ [34] ++ f ++ [34];
                        contentLength := Number_toString (Int (Z.of_nat (length data))) |}))).
Proof.
  intros H. cbv zeta. destruct (POST_saved_inv req H) as (Hf & pre & Htr).
  rewrite Hf, Htr.
  assert (Hg : traversal (stem (title req) (Date_now w) ++ lit ".mp3") = false)
    by apply plain_prefix_no_traversal, stem_plain.
  split; [reflexivity|]. split; [exact Hg|]. split; [|split].
  - eexists. apply in_or_app. right. right. left. reflexivity.
  - eexists. split.
    + apply in_or_app. right. right. right. right. left. reflexivity.
    + reflexivity.
  - intros data Ha Hr. unfold GET_file. rewrite Hg.
    rewrite path_join_file by auto. asteps. rewrite Ha. asteps. rewrite Hr. asteps.
    unfold Headers.check.
    match goal with
    | |- context [Headers.valid_value ?v] =>
        replace (Headers.valid_value v) with true
          by (symmetry; exact (saved_header (title req) (Date_now w)))
    end.
    reflexivity.
Qed.

Lemma startsWith_mp3_slash (d r : jsstring) :
  startsWith d (lit ".mp3") = false -> startsWith (d ++ 47 :: r) (lit ".mp3") = false.
Proof.
  change (lit ".mp3") with [46; 109; 112; 51].
  destruct d as [|c1 [|c2 [|c3 [|c4 d]]]]; cbn [app startsWith]; intros H;
    rewrite ?andb_false_r; try reflexivity; exact H.
Qed.

Lemma replace_first_dir (dir r : jsstring) :
  includes dir (lit ".mp3") = false ->
  replace_first (lit ".mp3") (lit ".json") (dir ++ 47 :: r)
    = dir ++ replace_first (lit ".mp3") (lit ".json") (47 :: r).
Proof.
  induction dir as [|c dir IH]; [reflexivity|]. cbn [includes]. intros H.
  apply orb_false_iff in H as [Hs Hi].
  change ((c :: dir) ++ 47 :: r) with (c :: (dir ++ 47 :: r)).
  cbn [replace_first].
  change (c :: dir ++ 47 :: r) with ((c :: dir) ++ 47 :: r).
  rewrite (startsWith_mp3_slash (c :: dir) r Hs). cbn [app]. f_equal. now apply IH.
Qed.

Lemma replace_first_plain (a : jsstring) :
  forallb (fun c => negb (N.eqb c 46)) a = true ->
  replace_first (lit ".mp3") (lit ".json") (a ++ lit ".mp3") = a ++ lit ".json".
Proof.
  induction a as [|c a IH]; [reflexivity|]. cbn [forallb]. intros H.
  apply andb_true_iff in H as [Hc Ha]. apply negb_true_iff in Hc.
  change ((c :: a) ++ lit ".mp3") with (c :: (a ++ lit ".mp3")).
  assert (Hs : startsWith (c :: a ++ lit ".mp3") (lit ".mp3") = false).
  { change (lit ".mp3") with [46; 109; 112; 51] at 2. cbn [startsWith].
    now rewrite (N.eqb_sym 46 c), Hc. }
  cbn [replace_first]. rewrite Hs. cbn [app]. f_equal. now apply IH.
Qed.

Lemma plain_not_dot (a : jsstring) :
  forallb plain a = true -> forallb (fun c => negb (N.eqb c 46)) a = true.
Proof.
  apply forallb_weaken. intros c H. unfold plain in H.
  apply andb_true_iff in H as [H _]. now apply andb_true_iff in H as [H _].
Qed.

(** X20. What the save route stores is deleted as a pair: provided the path
    of the archive directory does not itself contain [.mp3], DELETE of
    a saved file name unlinks the audio and then exactly the metadata
    file that was saved beside it, and replies with success whether or
    not that second file could be removed. *)
Theorem delete_removes_saved_pair (title : option jsstring) (timestamp : Z) :
  includes (archiveDir w) (lit ".mp3") = false ->
  let audio := archiveDir w ++ lit "/" ++ stem title timestamp ++ lit ".mp3" in
  let metadata := archiveDir w ++ lit "/" ++ stem title timestamp ++ lit ".json" in
  fs_access w audio = inr tt ->
  fs_unlink w audio = inr tt ->
  DELETE w (Some (stem title timestamp ++ lit ".mp3"))
    = ([Access audio; Unlink audio; Unlink metadata],
       inr (Deleted (lit "File deleted successfully"))).
Proof.
  intros Hdir. cbv zeta. intros Ha Hu. unfold DELETE.
  assert (Hne : stem title timestamp ++ lit ".mp3" <> [])
    by (destruct (stem title timestamp); discriminate).
  pose proof (truthy_some Hne) as Ht. pose proof (or_default_nonempty [] Hne) as Hd.
  unfold jsstring in Ht, Hd. rewrite Ht, Hd. cbn [negb].
  rewrite (plain_prefix_no_traversal _ (stem_plain title timestamp)).
  rewrite path_join_file by auto.
  assert (Hm : replace_first (lit ".mp3") (lit ".json")
                 (archiveDir w ++ lit "/" ++ stem title timestamp ++ lit ".mp3")
               = archiveDir w ++ lit "/" ++ stem title timestamp ++ lit ".json").
  { change (lit "/" ++ stem title timestamp ++ lit ".mp3")
      with (47 :: (stem title timestamp ++ lit ".mp3")).
    rewrite replace_first_dir by exact Hdir. f_equal.
    change (47 :: stem title timestamp ++ lit ".mp3")
      with ((47 :: stem title timestamp) ++ lit ".mp3").
    rewrite replace_first_plain; [reflexivity|].
    cbn [forallb]. rewrite (plain_not_dot _ (stem_plain title timestamp)). reflexivity. }
  rewrite Hm. asteps. rewrite Ha. asteps. rewrite Hu. asteps.
  destruct (fs_unlink w (archiveDir w ++ lit "/" ++ stem title timestamp ++ lit ".json"))
    as [e|[]]; reflexivity.
Qed.

(** X21. The replies of DELETE and of the file route that are not served:
    400 for a missing file name, 404 when the file cannot be accessed,
    with nothing read or removed, and 500 when the removal or the read
    itself fails. *)
Theorem archive_missing_file (filename : jsstring) :
  DELETE w None = ([], inr (DeleteFailed (mkError 400 (lit "Filename is required")))) /\
  DELETE w (Some []) = ([], inr (DeleteFailed (mkError 400 (lit "Filename is required")))) /\
  (filename <> [] -> traversal filename = false ->
   forall e, fs_access w (path_join (archiveDir w) filename) = inl e ->
     DELETE w (Some filename)
       = ([Access (path_join (archiveDir w) filename)],
          inr (DeleteFailed (mkError 404 (lit "File not found")))) /\
     GET_file w filename
       = ([Access (path_join (archiveDir w) filename)],
          inr (FileFailed (mkError 404 (lit "File not found"))))) /\
  (filename <> [] -> traversal filename = false ->
   fs_access w (path_join (archiveDir w) filename) = inr tt ->
   (forall e, fs_unlink w (path_join (archiveDir w) filename) = inl e ->
      DELETE w (Some filename)
        = ([Access (path_join (archiveDir w) filename);
            Unlink (path_join (archiveDir w) filename)],
           inr (DeleteFailed (mkError 500 (lit "Failed to delete file"))))) /\
   (forall e, fs_readFile w (path_join (archiveDir w) filename) = inl e ->
      GET_file w filename
        = ([Access (path_join (archiveDir w) filename);
            ReadFile (path_join (archiveDir w) filename)],
           inr (FileFailed (mkError 500 (lit "Failed to serve file")))))).
Proof.
  split; [reflexivity|]. split; [reflexivity|]. split.
  - intros Hne Hg e Ha. unfold DELETE, GET_file.
    destruct filename as [|c f]; [congruence|]. cbn [truthy or_default negb].
    rewrite Hg. asteps. rewrite Ha. split; reflexivity.
  - intros Hne Hg Ha. unfold DELETE, GET_file.
    destruct filename as [|c f]; [congruence|]. cbn [truthy or_default negb].
    rewrite Hg. asteps. rewrite Ha. asteps. split; intros e He; rewrite He; reflexivity.
Qed.

(** *** The listing *)

Lemma insert_newest_perm (x : Entry) (l : list Entry) :
  Permutation.Permutation (insert_newest x l) (x :: l).
Proof.
  induction l as [|y l IH]; cbn [insert_newest]; [apply Permutation.Permutation_refl|].
  destruct (createdAt y <=? createdAt x)%Z; [apply Permutation.Permutation_refl|].
  eapply Permutation.perm_trans; [apply Permutation.perm_skip, IH|].
  apply Permutation.perm_swap.
Qed.

Lemma sort_newest_first_perm (l : list Entry) :
  Permutation.Permutation (sort_newest_first l) l.
Proof.
  induction l as [|x l IH]; [apply Permutation.perm_nil|].
  cbn [sort_newest_first fold_right].
  eapply Permutation.perm_trans; [apply insert_newest_perm|].
  now apply Permutation.perm_skip.
Qed.

Lemma insert_newest_sorted (x : Entry) (l : list Entry) :
  Sorted.StronglySorted not_older l -> Sorted.StronglySorted not_older (insert_newest x l).
Proof.
  induction 1 as [|y l Hl IH Hy]; cbn [insert_newest].
  - constructor; constructor.
  - destruct (Z.leb_spec (createdAt y) (createdAt x)) as [Hle | Hlt].
    + constructor; [constructor; assumption|].
      constructor; [exact Hle|].
      eapply Forall_impl; [|exact Hy]. unfold not_older. intros z Hz. lia.
    + constructor; [exact IH|].
      apply (Permutation.Permutation_Forall
               (Permutation.Permutation_sym (insert_newest_perm x l))).
      constructor; [unfold not_older; lia | exact Hy].
Qed.

Lemma sort_newest_first_sorted (l : list Entry) :
  Sorted.StronglySorted not_older (sort_newest_first l).
Proof.
  induction l as [|x l IH]; [constructor|].
  cbn [sort_newest_first fold_right]. now apply insert_newest_sorted.
Qed.

Lemma stat_all_trace (names : list jsstring) :
  trace (stat_all w names) = map (fun f => Stat (path_join (archiveDir w) f)) names.
Proof.
  induction names as [|f rest IH]; [reflexivity|].
  cbn [stat_all map trace fst call app]. f_equal. exact IH.
Qed.

Lemma stat_all_ok (names : list jsstring) :
  (forall f, In f names -> exists st, fs_stat w (path_join (archiveDir w) f) = inr st) ->
  exists entries,
    result (stat_all w names) = inr entries /\
    map name entries = names /\
    (forall e, In e entries ->
       fs_stat w (path_join (archiveDir w) (name e))
         = inr {| size := entry_size e; birthtime := createdAt e; mtime := modifiedAt e |}).
Proof.
  induction names as [|f rest IH]; intros H.
  - exists []. repeat split. intros e [].
  - destruct IH as (entries & Hr & Hn & He); [intros g Hg; apply H; now right|].
    destruct (H f (or_introl eq_refl)) as [[sz bt mt] Hst].
    unfold result in *. cbn [stat_all snd call]. rewrite Hst, Hr.
    eexists. split; [reflexivity|]. split; [cbn [map name]; now rewrite Hn|].
    intros e [<- | Hin]; [exact Hst | now apply He].
Qed.

Lemma stat_all_fails (names : list jsstring) (f : jsstring) (e : exn) :
  In f names -> fs_stat w (path_join (archiveDir w) f) = inl e ->
  exists e', result (stat_all w names) = inl e'.
Proof.
  induction names as [|g rest IH]; [intros []|]. intros [-> | Hin] He.
  - unfold result. cbn [stat_all snd call]. rewrite He. eexists; reflexivity.
  - destruct (IH Hin He) as [e' He']. unfold result in *. cbn [stat_all snd call].
    rewrite He'.
    destruct (fs_stat w (path_join (archiveDir w) g)); eexists; reflexivity.
Qed.

Lemma GET_list_run (files : list jsstring) :
  fs_access w (archiveDir w) = inr tt \/ fs_mkdir w (archiveDir w) = inr tt ->
  fs_readdir w (archiveDir w) = inr files ->
  GET_list w =
    ([Access (archiveDir w)]
       ++ match fs_access w (archiveDir w) with
          | inr _ => []
          | inl _ => [Mkdir (archiveDir w)]
          end
       ++ [Readdir (archiveDir w)]
       ++ trace (stat_all w (filter (fun file => endsWith file (lit ".mp3")) files)),
     match result (stat_all w (filter (fun file => endsWith file (lit ".mp3")) files)) with
     | inr fileList => inr (Listing (sort_newest_first fileList))
     | inl _ => inr (ListFailed (mkError 500 (lit "Failed to list archive files")))
     end).
Proof.
  intros Hdir Hread. unfold GET_list, ensureArchiveDir.
  destruct (fs_access w (archiveDir w)) as [e|[]]; asteps.
  1: destruct Hdir as [Hd | Hd]; [discriminate|]; rewrite Hd; asteps.
  all: rewrite Hread; asteps.
  all: destruct (stat_all w _) as [tr [e'|l]]; asteps; now rewrite ?app_nil_r.
Qed.

(** X22. The listing of the archive holds one entry for each [.mp3] name of
    the directory, no other name being examined, with the size and the
    times [stat] gives, the newest creation time first; and it is
    replaced by a 500 reply as soon as one of these files cannot be
    examined. *)
Theorem archive_listing (files : list jsstring) :
  fs_access w (archiveDir w) = inr tt \/ fs_mkdir w (archiveDir w) = inr tt ->
  fs_readdir w (archiveDir w) = inr files ->
  let audio := filter (fun file => endsWith file (lit ".mp3")) files in
  ((forall f, In f audio -> exists st, fs_stat w (path_join (archiveDir w) f) = inr st) ->
   exists entries,
     result (GET_list w) = inr (Listing entries) /\
     Sorted.StronglySorted not_older entries /\
     Permutation.Permutation (map name entries) audio /\
     (forall e, In e entries ->
        fs_stat w (path_join (archiveDir w) (name e))
          = inr {| size := entry_size e; birthtime := createdAt e; mtime := modifiedAt e |})) /\
  (forall p, In (Stat p) (trace (GET_list w)) ->
     exists f, In f audio /\ p = path_join (archiveDir w) f) /\
  (forall f e, In f audio -> fs_stat w (path_join (archiveDir w) f) = inl e ->
     result (GET_list w) = inr (ListFailed (mkError 500 (lit "Failed to list archive files")))).
Proof.
  intros Hdir Hread. cbv zeta. rewrite (GET_list_run Hdir Hread).
  unfold result, trace; cbn [snd fst].
  generalize (filter (fun file => endsWith file (lit ".mp3")) files). intros audio.
  split; [|split].
  - intros Hst. destruct (stat_all_ok audio Hst) as (entries & Hr & Hn & He).
    unfold result in Hr. rewrite Hr.
    exists (sort_newest_first entries). split; [reflexivity|].
    split; [apply sort_newest_first_sorted|]. split.
    + rewrite <- Hn. apply Permutation.Permutation_map, sort_newest_first_perm.
    + intros e Hin. apply He.
      apply (Permutation.Permutation_in _ (sort_newest_first_perm entries) Hin).
  - intros p Hin. pose proof (stat_all_trace audio) as Ht.
    unfold trace in Ht. rewrite Ht in Hin. clear Ht.
    assert (Hin' : In (Stat p) (map (fun f => Stat (path_join (archiveDir w) f)) audio)).
    { revert Hin. destruct (fs_access w (archiveDir w)); cbn [app In];
        intros H; repeat (destruct H as [H | H]; try discriminate H); exact H. }
    apply in_map_iff in Hin' as (f & Hf & Hin'). injection Hf as <-. now exists f.
  - intros f e Hin He. destruct (stat_all_fails audio f Hin He) as [e' Hr].
    unfold result in Hr. now rewrite Hr.
Qed.

End ArchiveFacts.

(** ** The connection test *)

Section TestMinioFacts.

Import TestMinio.

Variable w : World.

Ltac tsteps := cbn [bind try_catch call ret negb orb andb fst snd app trace result].

Lemma includes_https (e : jsstring) :
  includes e (lit "https://") = true -> includes e (lit "://") = true.
Proof.
  rewrite !includes_app. intros (a & b & ->).
  exists (a ++ lit "https"), b. rewrite <- !app_assoc. reflexivity.
Qed.

(** X23. The connection test and the upload helper resolve the same
    environment to the same endpoint and port, and the test uses TLS
    whenever the helper does.  They differ, in the TLS flag alone,
    exactly for an endpoint that contains ["://"], does not parse as a
    URL and either contains ["https://"] or goes with port 443, TLS
    not being switched on by its own variable: the test then connects
    with TLS and the helper without. *)
Theorem test_target_agreement (wa : Approve.World) :
  Approve.env wa = env w ->
  (forall s, Approve.new_URL wa s = new_URL w s) ->
  let endPoint0 :=
    or_default (Approve.MINIO_ENDPOINT (env w)) (lit "minio2-api.aihub.ovh") in
  let port0 := parseInt (or_default (Approve.MINIO_PORT (env w)) (lit "443")) in
  Approve.endPoint (parseEndpoint w) = Approve.endPoint (Approve.parseEndpoint wa) /\
  Approve.targetPort (parseEndpoint w) = Approve.targetPort (Approve.parseEndpoint wa) /\
  (Approve.useSSL (Approve.parseEndpoint wa) = true ->
   Approve.useSSL (parseEndpoint w) = true) /\
  (parseEndpoint w <> Approve.parseEndpoint wa <->
   includes endPoint0 (lit "://") = true /\
   (exists e, new_URL w endPoint0 = inl e) /\
   Approve.MINIO_USE_SSL (env w) <> Some (lit "true") /\
   (includes endPoint0 (lit "https://") = true \/ port0 = Int 443)).
Proof.
  intros Henv Hurl. cbv zeta. unfold parseEndpoint, Approve.parseEndpoint.
  rewrite Henv, Hurl.
  set (endPoint0 := or_default (Approve.MINIO_ENDPOINT (env w)) (lit "minio2-api.aihub.ovh")).
  set (port0 := parseInt (or_default (Approve.MINIO_PORT (env w)) (lit "443"))).
  assert (Hssl : forall v, Approve.MINIO_USE_SSL (env w) = Some v ->
                           (str_eqb v (lit "true") = true <-> Some v = Some (lit "true"))).
  { intros v _. rewrite str_eqb_eq. split; congruence. }
  assert (Hport : number_eqb port0 (Int 443) = true <-> port0 = Int 443).
  { destruct port0 as [|z]; cbn [number_eqb]; [split; discriminate|].
    rewrite Z.eqb_eq. split; congruence. }
  destruct (includes endPoint0 (lit "://")) eqn:Hinc.
  - destruct (new_URL w endPoint0) as [e|u] eqn:Hu; cbn [Approve.endPoint Approve.targetPort Approve.useSSL].
    + split; [reflexivity|]. split; [reflexivity|]. split.
      { intros ->. reflexivity. }
      destruct (Approve.MINIO_USE_SSL (env w)) as [v|] eqn:Hv.
      * destruct (str_eqb v (lit "true")) eqn:Hs; cbn [orb].
        -- split; [congruence|]. intros (_ & _ & Hn & _). exfalso. apply Hn.
           now apply (Hssl v eq_refl).
        -- destruct (includes endPoint0 (lit "https://")) eqn:Hh; cbn [orb].
           ++ split; [|discriminate]. intros _. split; [reflexivity|]. split; [now exists e|].
              split; [|now left]. intros Hn. apply (Hssl v eq_refl) in Hn. congruence.
           ++ destruct (number_eqb port0 (Int 443)) eqn:Hp.
              ** split; [|discriminate]. intros _. split; [reflexivity|]. split; [now exists e|].
                 split; [|right; now apply Hport].
                 intros Hn. apply (Hssl v eq_refl) in Hn. congruence.
              ** split; [congruence|]. intros (_ & _ & _ & [Hc | Hc]); [discriminate|].
                 apply Hport in Hc. congruence.
      * cbn [orb]. destruct (includes endPoint0 (lit "https://")) eqn:Hh; cbn [orb].
        -- split; [|discriminate]. intros _. split; [reflexivity|]. split; [now exists e|].
           split; [discriminate|now left].
        -- destruct (number_eqb port0 (Int 443)) eqn:Hp.
           ++ split; [|discriminate]. intros _. split; [reflexivity|]. split; [now exists e|].
              split; [discriminate|right; now apply Hport].
           ++ split; [congruence|]. intros (_ & _ & _ & [Hc | Hc]); [discriminate|].
              apply Hport in Hc. congruence.
    + split; [reflexivity|]. split; [reflexivity|]. split; [auto|].
      split; [congruence|]. intros (_ & (e & He) & _). discriminate He.
  - assert (Hh : includes endPoint0 (lit "https://") = false).
    { destruct (includes endPoint0 (lit "https://")) eqn:Hh; [|reflexivity].
      apply includes_https in Hh. congruence. }
    rewrite Hh, orb_false_r.
    destruct (number_eqb port0 (Int 443)) eqn:Hp;
      cbn [Approve.endPoint Approve.targetPort Approve.useSSL]; rewrite ?orb_true_r, ?orb_false_r.
    + split; [reflexivity|]. split; [reflexivity|]. split; [auto|].
      split; [congruence|]. intros (Hc & _). discriminate Hc.
    + split; [reflexivity|]. split; [reflexivity|]. split; [auto|].
      split; [congruence|]. intros (Hc & _). discriminate Hc.
Qed.

Lemma GET_prefix (req : Request) :
  exists rest, test_plan w req = trace (GET w req) ++ rest.
Proof.
  unfold GET, test_plan, attempt.
  destruct (import_minio w) as [e|[]]; tsteps; [eexists; reflexivity|].
  destruct (new_Client w _) as [e|[]]; tsteps; [eexists; reflexivity|].
  destruct (listBuckets w) as [e|names]; tsteps; [eexists; reflexivity|].
  destruct (bucketExists w _) as [e|[|]]; tsteps; [eexists; reflexivity| |].
  - destruct (putObject w _ _ _ _) as [e|[]]; tsteps; [eexists; reflexivity|].
    destruct (presignedGetObject w _ _ _) as [e|u]; tsteps; [eexists; reflexivity|].
    destruct (removeObject w _ _) as [e|[]]; tsteps; exists []; reflexivity.
  - destruct (makeBucket w _ _) as [e|[]]; tsteps; [eexists; reflexivity|].
    destruct (putObject w _ _ _ _) as [e|[]]; tsteps; [eexists; reflexivity|].
    destruct (presignedGetObject w _ _ _) as [e|u]; tsteps; [eexists; reflexivity|].
    destruct (removeObject w _ _) as [e|[]]; tsteps; exists []; reflexivity.
Qed.

(** X24. The test object.  The handler always answers; its operations are a
    prefix of the plan of a complete run, which a success reply has
    completed, with the bucket reported as existing whether it was found
    or made.  The only object ever removed is the object the run has put
    and signed, [test_<time>.txt]; and when the signing fails after the
    object was stored, the object is left in the bucket and the reply
    says that the upload failed. *)
Theorem test_object_lifecycle (req : Request) :
  (exists reply, result (GET w req) = inr reply) /\
  (exists rest, test_plan w req = trace (GET w req) ++ rest) /\
  (forall body, result (GET w req) = inr (Ok200 body) ->
     trace (GET w req) = test_plan w req /\
     connection body = parseEndpoint w /\
     report_bucketExists body = true /\ uploadSuccess body = true) /\
  (forall b n, In (RemoveObject b n) (trace (GET w req)) ->
     b = bucketName w /\ n = testFileName (Date_now w) /\
     putObject w b n testContent 17 = inr tt /\
     exists u, presignedGetObject w b n 3600 = inr u) /\
  (forall b n d s e,
     In (PutObject b n d s) (trace (GET w req)) ->
     putObject w b n d s = inr tt ->
     presignedGetObject w b n 3600 = inl e ->
     existsb is_remove (trace (GET w req)) = false /\
     exists body, result (GET w req) = inr (Failed500 body) /\
                  failure_error body = lit "Failed to upload test file" /\
                  details body = message_of e).
Proof.
  split; [|split; [apply GET_prefix|]].
  { unfold GET, attempt.
    destruct (import_minio w) as [e|[]]; tsteps; [eexists; reflexivity|].
    destruct (new_Client w _) as [e|[]]; tsteps; [eexists; reflexivity|].
    destruct (listBuckets w) as [e|names]; tsteps; [eexists; reflexivity|].
    destruct (bucketExists w _) as [e|[|]]; tsteps; [eexists; reflexivity| |].
    - destruct (putObject w _ _ _ _) as [e|[]]; tsteps; [eexists; reflexivity|].
      destruct (presignedGetObject w _ _ _) as [e|u]; tsteps; [eexists; reflexivity|].
      destruct (removeObject w _ _) as [e|[]]; tsteps; eexists; reflexivity.
    - destruct (makeBucket w _ _) as [e|[]]; tsteps; [eexists; reflexivity|].
      destruct (putObject w _ _ _ _) as [e|[]]; tsteps; [eexists; reflexivity|].
      destruct (presignedGetObject w _ _ _) as [e|u]; tsteps; [eexists; reflexivity|].
      destruct (removeObject w _ _) as [e|[]]; tsteps; eexists; reflexivity. }
  unfold GET, test_plan, attempt. split; [|split].
  - intros body.
    destruct (import_minio w) as [e|[]]; tsteps; [discriminate|].
    destruct (new_Client w _) as [e|[]]; tsteps; [discriminate|].
    destruct (listBuckets w) as [e|names]; tsteps; [discriminate|].
    destruct (bucketExists w _) as [e|[|]]; tsteps; [discriminate| |].
    + destruct (putObject w _ _ _ _) as [e|[]]; tsteps; [discriminate|].
      destruct (presignedGetObject w _ _ _) as [e|u]; tsteps; [discriminate|].
      destruct (removeObject w _ _) as [e|[]]; tsteps; [discriminate|].
      intros H. injection H as <-. repeat split.
    + destruct (makeBucket w _ _) as [e|[]]; tsteps; [discriminate|].
      destruct (putObject w _ _ _ _) as [e|[]]; tsteps; [discriminate|].
      destruct (presignedGetObject w _ _ _) as [e|u]; tsteps; [discriminate|].
      destruct (removeObject w _ _) as [e|[]]; tsteps; [discriminate|].
      intros H. injection H as <-. repeat split.
  - intros b n.
    destruct (import_minio w) as [e|[]]; tsteps;
      [intros H; repeat (destruct H as [H|H]; try discriminate H); contradiction|].
    destruct (new_Client w _) as [e|[]]; tsteps;
      [intros H; repeat (destruct H as [H|H]; try discriminate H); contradiction|].
    destruct (listBuckets w) as [e|names]; tsteps;
      [intros H; repeat (destruct H as [H|H]; try discriminate H); contradiction|].
    destruct (bucketExists w _) as [e|[|]]; tsteps;
      [intros H; repeat (destruct H as [H|H]; try discriminate H); contradiction| |].
    + destruct (putObject w _ _ _ _) as [e|[]] eqn:Hp; tsteps;
        [intros H; repeat (destruct H as [H|H]; try discriminate H); contradiction|].
      destruct (presignedGetObject w _ _ _) as [e|u] eqn:Hs; tsteps;
        [intros H; repeat (destruct H as [H|H]; try discriminate H); contradiction|].
      destruct (removeObject w _ _) as [e|[]]; tsteps;
        intros H; repeat (destruct H as [H|H]; try discriminate H); try contradiction;
        injection H as <- <-; (split; [reflexivity|]); (split; [reflexivity|]);
        (split; [exact Hp|now exists u]).
    + destruct (makeBucket w _ _) as [e|[]]; tsteps;
        [intros H; repeat (destruct H as [H|H]; try discriminate H); contradiction|].
      destruct (putObject w _ _ _ _) as [e|[]] eqn:Hp; tsteps;
        [intros H; repeat (destruct H as [H|H]; try discriminate H); contradiction|].
      destruct (presignedGetObject w _ _ _) as [e|u] eqn:Hs; tsteps;
        [intros H; repeat (destruct H as [H|H]; try discriminate H); contradiction|].
      destruct (removeObject w _ _) as [e|[]]; tsteps;
        intros H; repeat (destruct H as [H|H]; try discriminate H); try contradiction;
        injection H as <- <-; (split; [reflexivity|]); (split; [reflexivity|]);
        (split; [exact Hp|now exists u]).
  - intros b n d s e.
    destruct (import_minio w) as [e0|[]]; tsteps;
      [intros H; repeat (destruct H as [H|H]; try discriminate H); contradiction|].
    destruct (new_Client w _) as [e0|[]]; tsteps;
      [intros H; repeat (destruct H as [H|H]; try discriminate H); contradiction|].
    destruct (listBuckets w) as [e0|names]; tsteps;
      [intros H; repeat (destruct H as [H|H]; try discriminate H); contradiction|].
    destruct (bucketExists w _) as [e0|[|]]; tsteps;
      [intros H; repeat (destruct H as [H|H]; try discriminate H); contradiction| |].
    + destruct (putObject w _ _ _ _) as [e0|[]] eqn:Hp; tsteps.
      { intros H; repeat (destruct H as [H|H]; try discriminate H); try contradiction.
        injection H as <- <- <- <-. intros Hq. change 17%nat with (length testContent) in Hq.
        congruence. }
      destruct (presignedGetObject w _ _ _) as [e0|u] eqn:Hs; tsteps.
      { intros H; repeat (destruct H as [H|H]; try discriminate H); try contradiction.
        injection H as <- <- <- <-. intros _ He. rewrite Hs in He. injection He as <-.
        split; [reflexivity|]. eexists. split; [reflexivity|]. split; reflexivity. }
      destruct (removeObject w _ _) as [e0|[]]; tsteps;
        intros H; repeat (destruct H as [H|H]; try discriminate H); try contradiction;
        injection H as <- <- <- <-; intros _ He; congruence.
    + destruct (makeBucket w _ _) as [e0|[]]; tsteps;
        [intros H; repeat (destruct H as [H|H]; try discriminate H); contradiction|].
      destruct (putObject w _ _ _ _) as [e0|[]] eqn:Hp; tsteps.
      { intros H; repeat (destruct H as [H|H]; try discriminate H); try contradiction.
        injection H as <- <- <- <-. intros Hq. change 17%nat with (length testContent) in Hq.
        congruence. }
      destruct (presignedGetObject w _ _ _) as [e0|u] eqn:Hs; tsteps.
      { intros H; repeat (destruct H as [H|H]; try discriminate H); try contradiction.
        injection H as <- <- <- <-. intros _ He. rewrite Hs in He. injection He as <-.
        split; [reflexivity|]. eexists. split; [reflexivity|]. split; reflexivity. }
      destruct (removeObject w _ _) as [e0|[]]; tsteps;
        intros H; repeat (destruct H as [H|H]; try discriminate H); try contradiction;
        injection H as <- <- <- <-; intros _ He; congruence.
Qed.

End TestMinioFacts.

(** ** The direct generation route *)

Section GeneratePodcastFacts.

Import GeneratePodcast.

Variable w : World.

(** X25. The direct route names the language of the prompt as the process
    stage does: for every tag, and for none, the label of line 77 is
    the name the process stage looks up for the language it selects;
    so a tag outside the eleven codes is answered in English by both. *)
Theorem direct_route_names_language_alike (language : option jsstring) :
  languageLabel (nullish_default language (lit "en"))
    = Language.languageName (Language.selectedLanguage language) /\
  (Language.is_valid (nullish_default language (lit "en")) = false ->
   languageLabel (nullish_default language (lit "en")) = lit "English").
Proof.
  unfold Language.selectedLanguage.
  set (l := nullish_default language (lit "en")). clearbody l.
  unfold languageLabel, Language.is_valid, Language.validLanguages.
  cbn [map existsb].
  repeat match goal with
  | |- context [str_eqb l (lit ?c)] =>
      let E := fresh "E" in
      destruct (str_eqb l (lit c)) eqn:E;
      [apply str_eqb_eq in E; subst l; split; [reflexivity|discriminate]|]
  end.
  cbn [orb]. split; reflexivity.
Qed.

Lemma errorMessage_nonempty (b : bool) (e : ApiError) : errorMessage b e <> [].
Proof.
  unfold errorMessage.
  destruct (is_code _ (cause_code e)); [destruct b; discriminate|].
  destruct (is_code _ (cause_code e)); [discriminate|].
  destruct (truthy (cause_message e)); [destruct b; discriminate|].
  destruct (truthy (error_message e)); discriminate.
Qed.

(** X26. The protocol of the streamed body.  A request without content is
    answered with 400 and one without any generator key with 500,
    without calling the generator.  Every other request is answered
    with a stream: the partial objects of the generator, in order, each
    on a line of type partial, followed by exactly one closing line,
    which is of type complete, with the final object, exactly when the
    generator was called, its stream ended normally and the final
    object was delivered, and is otherwise an error line with a message
    that is not empty. *)
Theorem stream_protocol (req : Request) :
  (truthy (content req) = false ->
   POST w req = Json (mkError 400 (lit "Content is required"))) /\
  (truthy (content req) = true ->
   truthy (OPENROUTER_API_KEY (env w)) = false -> truthy (OPENAI_API_KEY (env w)) = false ->
   POST w req = Json (mkError 500
                        (lit "Either OPENROUTER_API_KEY or OPENAI_API_KEY must be configured"))) /\
  (truthy (content req) = true ->
   truthy (OPENROUTER_API_KEY (env w)) = true \/ truthy (OPENAI_API_KEY (env w)) = true ->
   exists partials closing,
     POST w req = Stream (map Partial partials ++ [closing]) /\
     is_partial closing = false /\
     (forall r, streamObject w (generation w req) = inr r ->
                partials = partialObjectStream r) /\
     (forall e, streamObject w (generation w req) = inl e -> partials = []) /\
     (forall finalObject,
        closing = Complete finalObject <->
        exists r, streamObject w (generation w req) = inr r /\
                  stream_end r = None /\ object r = inr finalObject) /\
     (forall message, closing = ErrorLine message -> message <> [])).
Proof.
  unfold POST. split; [|split].
  - intros ->. reflexivity.
  - intros -> -> ->. reflexivity.
  - intros -> Hkey.
    replace (negb (truthy (OPENROUTER_API_KEY (env w))) && negb (truthy (OPENAI_API_KEY (env w))))
      with false by (destruct Hkey as [-> | ->]; [|rewrite andb_comm]; reflexivity).
    cbn [negb]. destruct (streamObject w (generation w req)) as [e|r].
    + exists [], (ErrorLine (errorMessage (truthy (OPENROUTER_API_KEY (env w))) e)).
      split; [reflexivity|]. split; [reflexivity|]. split; [discriminate|].
      split; [reflexivity|]. split.
      * intros o. split; [discriminate|]. intros (r & Hr & _). discriminate Hr.
      * intros m Hm. injection Hm as <-. apply errorMessage_nonempty.
    + unfold streamLines. exists (partialObjectStream r).
      destruct (stream_end r) as [e|] eqn:He; [|destruct (object r) as [e|o] eqn:Ho].
      * eexists. split; [reflexivity|]. split; [reflexivity|]. split; [congruence|].
        split; [discriminate|]. split.
        -- intros o. split; [discriminate|]. intros (r' & Hr & Hn & _).
           injection Hr as <-. congruence.
        -- intros m Hm. injection Hm as <-. apply errorMessage_nonempty.
      * eexists. split; [reflexivity|]. split; [reflexivity|]. split; [congruence|].
        split; [discriminate|]. split.
        -- intros o. split; [discriminate|]. intros (r' & Hr & _ & Hn).
           injection Hr as <-. congruence.
        -- intros m Hm. injection Hm as <-. apply errorMessage_nonempty.
      * eexists. split; [reflexivity|]. split; [reflexivity|]. split; [congruence|].
        split; [discriminate|]. split.
        -- intros o'. split.
           ++ intros H. injection H as <-. now exists r.
           ++ intros (r' & Hr & _ & Hn). injection Hr as <-. congruence.
        -- discriminate.
Qed.

End GeneratePodcastFacts.

(** ** The scrape route *)

Section ScrapeFacts.

Import Scrape.

Variable w : World.

Ltac ssteps := cbn [bind try_catch call ret negb orb andb fst snd app trace result].

(** X27. The scrape route always answers.  It calls the scraper at most
    once, with the configured key and the URL of the request, and only
    when both are present; a success reply carries the markdown of the
    scraped document, of at least ten code units, with a title and a
    URL that are not empty; and every other reply is 400, for a missing
    URL alone, or 500. *)
Theorem scrape_replies (req : Request) :
  (exists reply, result (POST w req) = inr reply) /\
  (trace (POST w req) = [] \/
   exists key u, FIRECRAWL_API_KEY w = Some key /\ key <> [] /\
                 url req = Some u /\ u <> [] /\
                 trace (POST w req) = [FirecrawlScrape key u]) /\
  (forall body, result (POST w req) = inr (Ok200 body) ->
     exists key u doc,
       FIRECRAWL_API_KEY w = Some key /\ url req = Some u /\
       scrape w key u = inr doc /\
       markdown doc = Some (scraped_content body) /\
       (10 <= length (scraped_content body))%nat /\
       scraped_title body <> [] /\ scraped_url body <> [] /\
       (member sourceURL (metadata doc) = None -> scraped_url body = u)) /\
  (forall reply, result (POST w req) = inr (Failed reply) ->
     (status reply = 400%Z /\ truthy (url req) = false) \/ status reply = 500%Z).
Proof.
  unfold POST.
  destruct (url req) as [[|c u]|] eqn:Hu; cbn [truthy or_default negb]; ssteps.
  1,3: split; [eexists; reflexivity|]; split; [now left|]; split; [discriminate|];
       intros reply H; injection H as <-; left; split; reflexivity.
  destruct (FIRECRAWL_API_KEY w) as [[|k key]|] eqn:Hk; cbn [truthy or_default negb]; ssteps.
  1,3: split; [eexists; reflexivity|]; split; [now left|]; split; [discriminate|];
       intros reply H; injection H as <-; right; reflexivity.
  destruct (scrape w (k :: key) (c :: u)) as [e|doc] eqn:Hs; ssteps.
  { split; [eexists; reflexivity|]. split.
    - right. exists (k :: key), (c :: u). repeat split; discriminate.
    - split; [discriminate|]. intros reply H. injection H as <-. right. reflexivity. }
  destruct (markdown doc) as [[|m md]|] eqn:Hm; cbn [truthy or_default negb orb]; ssteps.
  1,3: split; [eexists; reflexivity|]; split;
       [right; exists (k :: key), (c :: u); repeat split; discriminate|];
       split; [discriminate|]; intros reply H; injection H as <-; right; reflexivity.
  destruct (length (m :: md) <? 10)%nat eqn:Hl; ssteps.
  { split; [eexists; reflexivity|]. split.
    - right. exists (k :: key), (c :: u). repeat split; discriminate.
    - split; [discriminate|]. intros reply H. injection H as <-. right. reflexivity. }
  split; [eexists; reflexivity|]. split.
  { right. exists (k :: key), (c :: u). repeat split; discriminate. }
  split; [|discriminate].
  intros body H. injection H as <-. exists (k :: key), (c :: u), doc.
  cbn [scraped_content scraped_title scraped_url].
  split; [reflexivity|]. split; [reflexivity|]. split; [exact Hs|].
  split; [exact Hm|]. split; [now apply Nat.ltb_ge in Hl|].
  split; [|split].
  - destruct (member meta_title (metadata doc)) as [[|? ?]|]; discriminate.
  - destruct (member sourceURL (metadata doc)) as [[|? ?]|]; discriminate.
  - intros ->. reflexivity.
Qed.

End ScrapeFacts.

(** ** The history of the page *)

Section HistoryFacts.

Import History.

Variable w : World.

Lemma slice_last_short {A} (n : nat) (a : list A) :
  (length a <= n)%nat -> slice_last n a = a.
Proof. intros H. unfold slice_last. now replace (length a - n)%nat with 0%nat by lia. Qed.

Lemma slice_last_cons {A} (n : nat) (x : A) (a : list A) :
  (n <= length a)%nat -> slice_last n (x :: a) = slice_last n a.
Proof.
  intros H. unfold slice_last. cbn [length].
  replace (S (length a) - n)%nat with (S (length a - n)) by lia. reflexivity.
Qed.

Lemma slice_last_length {A} (n : nat) (a : list A) :
  (length (slice_last n a) <= n)%nat.
Proof. unfold slice_last. rewrite length_skipn. lia. Qed.

(** X28. The history holds fifty items at most, and it is the newest that is
    lost.  In a browser whose storage accepts the list, adding an item
    to a history of fewer than fifty items puts it first; adding it to
    a history of fifty items or more stores the last fifty of the old
    items, whatever the new item is, so that a history of exactly fifty
    items is stored again unchanged. *)
Theorem history_drops_the_new_item (item : HistoryItem) (st : Stored) (old : list HistoryItem) :
  has_window w = true ->
  loadHistory w st = Some old ->
  setItem_accepts w (slice_last 50 (item :: old)) = true ->
  exists st',
    addToHistory w item st = inr st' /\
    (exists new, loadHistory w st' = Some new /\ (length new <= 50)%nat /\
       ((length old < 50)%nat -> new = item :: old) /\
       ((50 <= length old)%nat -> new = slice_last 50 old) /\
       (length old = 50%nat -> new = old)).
Proof.
  intros Hw Hl Hs. unfold addToHistory. rewrite Hl. eexists. split; [reflexivity|].
  unfold saveHistory. rewrite Hw, Hs. cbn [negb]. unfold loadHistory. rewrite Hw. cbn [negb].
  eexists. split; [reflexivity|]. split; [apply slice_last_length|]. split; [|split].
  - intros H. apply slice_last_short. cbn [length]. lia.
  - intros H. now apply slice_last_cons.
  - intros H. rewrite slice_last_cons by lia. apply slice_last_short. lia.
Qed.

End HistoryFacts.

(** ** Paths *)

Section PathFacts.

Import Path.

Lemma segments_nonempty (s : jsstring) : segments s <> [].
Proof.
  induction s as [|c s IH]; cbn [segments]; [discriminate|].
  destruct (N.eqb c slash); [discriminate|]. destruct (segments s); discriminate.
Qed.

Lemma segments_app_slash (a b : jsstring) :
  segments (a ++ slash :: b) = segments a ++ segments b.
Proof.
  induction a as [|c a IH]; cbn [app segments].
  - now rewrite N.eqb_refl.
  - rewrite IH. destruct (N.eqb c slash); [reflexivity|].
    destruct (segments a) as [|sa ra] eqn:E; [now apply segments_nonempty in E|].
    reflexivity.
Qed.

Lemma segments_noslash (s : jsstring) :
  forallb (fun c => negb (N.eqb c slash)) s = true -> segments s = [s].
Proof.
  induction s as [|c s IH]; cbn [segments forallb]; [reflexivity|].
  intros H. apply andb_true_iff in H as [Hc Hs]. apply negb_true_iff in Hc.
  now rewrite Hc, (IH Hs).
Qed.

Lemma proper_inv (seg : jsstring) :
  proper seg = true ->
  str_eqb seg [] = false /\ str_eqb seg (lit ".") = false /\
  str_eqb seg (lit "..") = false /\
  forallb (fun c => negb (N.eqb c slash)) seg = true.
Proof.
  unfold proper. intros H.
  apply andb_true_iff in H as [H H4]. apply andb_true_iff in H as [H H3].
  apply andb_true_iff in H as [H1 H2].
  apply negb_true_iff in H1, H2, H3. auto.
Qed.

Lemma step_proper (b : bool) (res : list jsstring) (seg : jsstring) :
  proper seg = true -> step b res seg = seg :: res.
Proof.
  intros H. destruct (@proper_inv seg H) as (H1 & H2 & H3 & _).
  unfold step. now rewrite H1, H2, H3.
Qed.

Lemma step_pop (b : bool) (res : list jsstring) (seg : jsstring) :
  proper seg = true -> step b (seg :: res) (lit "..") = res.
Proof.
  intros H. destruct (@proper_inv seg H) as (_ & _ & H3 & _).
  unfold step. change (str_eqb (lit "..") [] || str_eqb (lit "..") (lit ".")) with false.
  change (str_eqb (lit "..") (lit "..")) with true. cbv iota. now rewrite H3.
Qed.

Lemma fold_proper (b : bool) (segs acc : list jsstring) :
  forallb proper segs = true -> fold_left (step b) segs acc = rev segs ++ acc.
Proof.
  revert acc. induction segs as [|seg segs IH]; intros acc H; [reflexivity|].
  cbn [forallb] in H. apply andb_true_iff in H as [Hseg Hsegs].
  cbn [fold_left rev]. rewrite (@step_proper b acc seg Hseg), (IH _ Hsegs), <- app_assoc.
  reflexivity.
Qed.

Lemma segments_intercalate (segs : list jsstring) :
  segs <> [] -> forallb proper segs = true -> segments (intercalate segs) = segs.
Proof.
  induction segs as [|seg rest IH]; [congruence|]. intros _ H.
  cbn [forallb] in H. apply andb_true_iff in H as [Hseg Hrest].
  destruct (@proper_inv seg Hseg) as (_ & _ & _ & Hns).
  cbn [intercalate]. destruct rest as [|seg2 rest'].
  - now apply segments_noslash.
  - rewrite segments_app_slash, (@segments_noslash seg Hns), IH by (discriminate || assumption).
    reflexivity.
Qed.

Lemma intercalate_snoc (segs : list jsstring) (f : jsstring) :
  segs <> [] -> intercalate (segs ++ [f]) = intercalate segs ++ slash :: f.
Proof.
  induction segs as [|seg rest IH]; [congruence|]. intros _.
  destruct rest as [|seg2 rest']; [reflexivity|].
  change ((seg :: seg2 :: rest') ++ [f]) with (seg :: seg2 :: (rest' ++ [f])).
  change (intercalate (seg :: seg2 :: rest' ++ [f]))
    with (seg ++ slash :: intercalate ((seg2 :: rest') ++ [f])).
  rewrite IH by discriminate.
  change (intercalate (seg :: seg2 :: rest'))
    with (seg ++ slash :: intercalate (seg2 :: rest')).
  now rewrite <- app_assoc.
Qed.

Lemma endsWith_slash_app (a name : jsstring) :
  name <> [] -> endsWith (a ++ name) (lit "/") = endsWith name (lit "/").
Proof.
  intros Hn. apply eq_iff_eq_true. rewrite !endsWith_app. split.
  - intros (a' & Ha). destruct (exists_last Hn) as (l & x & ->).
    rewrite app_assoc in Ha. change (lit "/") with [slash] in *.
    apply app_inj_tail in Ha as [_ ->]. now exists l.
  - intros (a' & ->). exists (a ++ a'). now rewrite app_assoc.
Qed.

(** [path.join] of an absolute normalized path and a path that does
    not end with a slash: the segments of the second act on those of
    the first. *)
Lemma join_absolute (segs : list jsstring) (name : jsstring) :
  forallb proper segs = true -> name <> [] -> endsWith name (lit "/") = false ->
  join (absolute segs) name
    = absolute (rev (fold_left (step false) (segments name) (rev segs))).
Proof.
  intros Hs Hn He. destruct name as [|c n]; [congruence|].
  unfold join, absolute. cbv iota.
  assert (Hseg : fold_left (step false)
                   (segments ((slash :: intercalate segs) ++ slash :: c :: n)) []
                 = fold_left (step false) (segments (c :: n)) (rev segs)).
  { rewrite segments_app_slash, fold_left_app. f_equal.
    change (segments (slash :: intercalate segs)) with ([] :: segments (intercalate segs)).
    cbn [fold_left]. change (step false [] []) with (@nil jsstring).
    destruct segs as [|seg rest]; [reflexivity|].
    rewrite segments_intercalate, fold_proper by (discriminate || assumption).
    now rewrite app_nil_r. }
  assert (Het : endsWith ((slash :: intercalate segs) ++ slash :: c :: n) (lit "/") = false).
  { change ((slash :: intercalate segs) ++ slash :: c :: n)
      with ((slash :: intercalate segs) ++ [slash] ++ (c :: n)).
    rewrite app_assoc, endsWith_slash_app by discriminate. exact He. }
  unfold normalize.
  change ((slash :: intercalate segs) ++ slash :: c :: n)
    with (slash :: (intercalate segs ++ slash :: c :: n)) in *.
  cbv iota zeta.
  change (startsWith (slash :: intercalate segs ++ slash :: c :: n) (lit "/")) with true.
  rewrite Het. cbn [negb]. rewrite Hseg.
  destruct (rev (fold_left (step false) (segments (c :: n)) (rev segs))); [reflexivity|].
  now rewrite app_nil_r.
Qed.

Lemma join_proper (segs : list jsstring) (f : jsstring) :
  forallb proper segs = true -> proper f = true ->
  join (absolute segs) f = absolute (segs ++ [f]).
Proof.
  intros Hs Hf. destruct (@proper_inv f Hf) as (Hne & _ & _ & Hns).
  rewrite join_absolute; try assumption.
  - rewrite (@segments_noslash f Hns). cbn [fold_left].
    rewrite (@step_proper false (rev segs) f Hf). cbn [rev]. now rewrite rev_involutive.
  - intros ->. discriminate Hne.
  - destruct (endsWith f (lit "/")) eqn:E; [|reflexivity].
    apply endsWith_app in E as (a & ->). rewrite forallb_app in Hns.
    apply andb_true_iff in Hns as [_ Hns]. discriminate Hns.
Qed.

Lemma absolute_snoc (segs : list jsstring) (f : jsstring) :
  segs <> [] -> absolute (segs ++ [f]) = absolute segs ++ slash :: f.
Proof. intros H. unfold absolute. now rewrite intercalate_snoc. Qed.

End PathFacts.

(** ** The artifact of the approve stage and the guard of the archive *)

Section ArtifactNames.

Variable w : Approve.World.

Lemma filename_plain (title : option jsstring) (j : jsstring) :
  forallb Archive.plain j = true ->
  Archive.traversal (Filename.filename title j) = false.
Proof.
  intros Hj. unfold Filename.filename, Filename.filename_of.
  rewrite (app_assoc (lit "_")), app_assoc.
  apply plain_prefix_no_traversal. rewrite !forallb_app, Hj.
  replace (forallb Archive.plain (lit "_")) with true by reflexivity.
  rewrite !andb_true_r.
  eapply forallb_weaken; [apply slug_char_plain|apply sanitize_chars].
Qed.

Lemma base36_plain (c : N) : is_digit c || is_lower c = true -> Archive.plain c = true.
Proof.
  intros H. apply slug_char_plain. unfold Filename.slug_char, is_alnum, is_alpha.
  apply orb_true_iff in H as [-> | ->]; rewrite ?orb_true_r; reflexivity.
Qed.

Lemma minted_plain (now : Z) (r : jsstring) :
  Transcript.base36_fraction r -> forallb Archive.plain (Transcript.mintJobId now r) = true.
Proof.
  intros Hr. unfold Transcript.mintJobId. rewrite !forallb_app, Number_toString_plain.
  cbn [lit list_ascii_of_string map forallb andb]. cbn [andb].
  change (forallb Archive.plain (substring_from 7 r) = true).
  destruct Hr as [-> | (ds & -> & Hds)]; [reflexivity|].
  unfold substring_from.
  change (skipn 7 (lit "0." ++ ds)) with (skipn 5 ds).
  apply forallb_skipn. eapply forallb_weaken; [apply base36_plain|exact Hds].
Qed.

Lemma slug_char_noslash (c : N) :
  Filename.slug_char c = true -> negb (N.eqb c Path.slash) = true.
Proof.
  intros H. apply slug_char_plain in H. unfold Archive.plain in H.
  apply andb_true_iff in H as [H _]. now apply andb_true_iff in H as [_ H].
Qed.

Lemma plain_noslash (c : N) : Archive.plain c = true -> negb (N.eqb c Path.slash) = true.
Proof.
  unfold Archive.plain. intros H.
  apply andb_true_iff in H as [H _]. now apply andb_true_iff in H as [_ H].
Qed.

(** A text that ends with [.mp3] and holds no slash is a segment that
    normalization keeps. *)
Lemma mp3_proper (a : jsstring) :
  forallb (fun c => negb (N.eqb c Path.slash)) a = true ->
  Path.proper (a ++ lit ".mp3") = true.
Proof.
  intros Ha. unfold Path.proper. rewrite forallb_app, Ha.
  assert (Hlen : (4 <= length (a ++ lit ".mp3"))%nat) by (rewrite length_app; cbn; lia).
  assert (H : forall b, (length b < 4)%nat -> str_eqb (a ++ lit ".mp3") b = false).
  { intros b Hb. destruct (str_eqb (a ++ lit ".mp3") b) eqn:E; [|reflexivity].
    apply str_eqb_eq in E. rewrite E in Hlen. lia. }
  rewrite !H by (cbn; lia). reflexivity.
Qed.

Lemma filename_proper (title : option jsstring) (j : jsstring) :
  forallb (fun c => negb (N.eqb c Path.slash)) j = true ->
  Path.proper (Filename.filename title j) = true.
Proof.
  intros Hj. unfold Filename.filename, Filename.filename_of.
  rewrite (app_assoc (lit "_")), app_assoc. apply mp3_proper.
  rewrite !forallb_app, Hj.
  replace (forallb (fun c => negb (N.eqb c Path.slash)) (lit "_")) with true by reflexivity.
  rewrite !andb_true_r.
  eapply forallb_weaken; [apply slug_char_noslash|apply sanitize_chars].
Qed.

Lemma slug_proper (title : option jsstring) :
  Path.proper (Filename.safeTitle title ++ lit "_") = true.
Proof.
  unfold Path.proper. rewrite forallb_app.
  replace (forallb (fun c => negb (N.eqb c Path.slash)) (Filename.safeTitle title)) with true
    by (symmetry; eapply forallb_weaken; [apply slug_char_noslash|apply sanitize_chars]).
  assert (H : forall b, forallb (fun c => negb (N.eqb c 95)) b = true ->
                        str_eqb (Filename.safeTitle title ++ lit "_") b = false).
  { intros b Hb. destruct (str_eqb _ b) eqn:E; [|reflexivity].
    apply str_eqb_eq in E. subst b. rewrite forallb_app in Hb.
    apply andb_true_iff in Hb as [_ Hb]. discriminate Hb. }
  rewrite !H by reflexivity. reflexivity.
Qed.

(** The archive directory, for a working directory of proper segments. *)
Lemma ARCHIVE_DIR_absolute (csegs : list jsstring) :
  Approve.cwd w = Path.absolute csegs -> forallb Path.proper csegs = true ->
  Approve.ARCHIVE_DIR w = Path.absolute (csegs ++ [lit "archive"]).
Proof.
  intros Hc Hs. unfold Approve.ARCHIVE_DIR. rewrite Hc.
  now apply join_proper.
Qed.

(** X29. The approve stage writes its artifact at the path that [path.join]
    makes of the archive directory and of a name that holds the job id
    as it was given.  For a job id without dot, slash and backslash,
    and so for every job id the receive stage mints, that path is the
    file of that name in the archive directory, and the archive routes
    accept the name.  For a job id that holds [".."], a slash or a
    backslash the archive routes refuse the file name of the reply;
    and for the job id [/../../n] the artifact is written as [n.mp3] in
    the working directory, outside the archive directory. *)
Theorem artifact_name_and_archive_guard
        (req : Approve.Request) (conv : list Approve.Turn) (j audio : jsstring)
        (csegs : list jsstring) :
  Approve.local_ok w req conv j audio ->
  Approve.cwd w = Path.absolute csegs ->
  forallb Path.proper csegs = true ->
  let f := Filename.filename (Approve.title req) j in
  let path := Path.join (Approve.ARCHIVE_DIR w) f in
  (exists body, result (Approve.POST w req) = inr (Approve.Ok200 body) /\
                Approve.approved_filename body = f) /\
  In (Approve.FsWriteFile path (Approve.base64_decode w (Approve.base64Data audio)))
     (trace (Approve.POST w req)) /\
  (forallb Archive.plain j = true ->
   path = Approve.ARCHIVE_DIR w ++ lit "/" ++ f /\ Archive.traversal f = false) /\
  (forall now r, Transcript.base36_fraction r -> j = Transcript.mintJobId now r ->
                 path = Approve.ARCHIVE_DIR w ++ lit "/" ++ f /\
                 Archive.traversal f = false) /\
  (Archive.traversal j = true -> Archive.traversal f = true) /\
  (forall n, forallb Archive.plain n = true -> j = lit "/../../" ++ n ->
             path = Path.join (Approve.cwd w) (n ++ lit ".mp3") /\
             path = Path.absolute (csegs ++ [n ++ lit ".mp3"])).
Proof.
  intros Hok Hc Hs. cbv zeta.
  destruct (POST_local_ok Hok) as (m & _ & HP).
  assert (Hplain : forall j', forallb Archive.plain j' = true ->
            Path.join (Approve.ARCHIVE_DIR w) (Filename.filename (Approve.title req) j')
              = Approve.ARCHIVE_DIR w ++ lit "/" ++ Filename.filename (Approve.title req) j' /\
            Archive.traversal (Filename.filename (Approve.title req) j') = false).
  { intros j' Hj'. split; [|now apply filename_plain].
    rewrite (@ARCHIVE_DIR_absolute csegs Hc Hs).
    assert (Hs' : forallb Path.proper (csegs ++ [lit "archive"]) = true)
      by (rewrite forallb_app, Hs; reflexivity).
    rewrite join_proper; [apply absolute_snoc; now destruct csegs | exact Hs' |].
    apply filename_proper. eapply forallb_weaken; [apply plain_noslash|exact Hj']. }
  split; [|split; [|split; [|split; [|split]]]].
  - rewrite HP. eexists. split; reflexivity.
  - rewrite HP. cbn [trace fst]. apply in_or_app. left. unfold Approve.local_trace.
    apply in_or_app. right. apply in_or_app. right. now left.
  - apply Hplain.
  - intros now r Hr ->. apply Hplain, minted_plain, Hr.
  - intros Ht. apply traversal_spec in Ht. apply traversal_spec.
    unfold Filename.filename, Filename.filename_of.
    destruct Ht as [(a & b & ->) | [Ht | Ht]].
    + left. exists (Filename.safeTitle (Approve.title req) ++ lit "_" ++ a), (b ++ lit ".mp3").
      rewrite <- !app_assoc. reflexivity.
    + right. left. apply in_or_app. right. apply in_or_app. right.
      apply in_or_app. now left.
    + right. right. apply in_or_app. right. apply in_or_app. right.
      apply in_or_app. now left.
  - intros n Hn ->.
    assert (Hnp : Path.proper (n ++ lit ".mp3") = true)
      by (apply mp3_proper; eapply forallb_weaken; [apply plain_noslash|exact Hn]).
    assert (Hgoal : Path.join (Approve.ARCHIVE_DIR w)
                      (Filename.filename (Approve.title req) (lit "/../../" ++ n))
                    = Path.absolute (csegs ++ [n ++ lit ".mp3"])).
    { rewrite (@ARCHIVE_DIR_absolute csegs Hc Hs).
      assert (Hs' : forallb Path.proper (csegs ++ [lit "archive"]) = true)
        by (rewrite forallb_app, Hs; reflexivity).
      unfold Filename.filename, Filename.filename_of.
      change (Filename.safeTitle (Approve.title req) ++ lit "_" ++ (lit "/../../" ++ n) ++ lit ".mp3")
        with (Filename.safeTitle (Approve.title req) ++ lit "_"
                ++ Path.slash :: lit ".." ++ Path.slash :: lit ".."
                ++ Path.slash :: (n ++ lit ".mp3")).
      rewrite (app_assoc (Filename.safeTitle (Approve.title req)) (lit "_")).
      destruct (@proper_inv _ Hnp) as (Hne & _ & _ & Hns).
      rewrite join_absolute.
      - rewrite !segments_app_slash.
        rewrite (@segments_noslash (Filename.safeTitle (Approve.title req) ++ lit "_"))
          by (destruct (@proper_inv _ (slug_proper (Approve.title req))) as (_ & _ & _ & H);
              exact H).
        rewrite (@segments_noslash (lit "..")) by reflexivity.
        rewrite (@segments_noslash _ Hns).
        rewrite rev_app_distr. cbn [rev app fold_left].
        rewrite (@step_proper false _ _ (slug_proper (Approve.title req))).
        rewrite (@step_pop false _ _ (slug_proper (Approve.title req))).
        rewrite (@step_pop false (rev csegs) (lit "archive") eq_refl).
        rewrite (@step_proper false _ _ Hnp). cbn [rev]. now rewrite rev_involutive.
      - exact Hs'.
      - destruct (Filename.safeTitle (Approve.title req)); discriminate.
      - match goal with
        | |- endsWith ?x _ = false =>
            replace x with ((Filename.safeTitle (Approve.title req) ++ lit "_/../../" ++ n)
                              ++ lit ".mp3")
              by (now rewrite <- !app_assoc)
        end.
        now rewrite endsWith_slash_app by discriminate. }
    split; [|exact Hgoal]. rewrite Hgoal, Hc. symmetry. now apply join_proper.
Qed.

End ArtifactNames.

(** ** The further properties on the scenarios *)

Section Scenarios.

Import Examples Scenarios.

Lemma comma_free_dec (s : jsstring) :
  forallb (fun c => negb (N.eqb c Approve.comma)) s = true -> ApprovePlan.comma_free s.
Proof.
  intros H Hin. rewrite forallb_forall in H. specialize (H _ Hin).
  now rewrite N.eqb_refl in H.
Qed.

(** X4 on an example.  A full disk: the reply is 500 and nothing is uploaded. *)
Lemma approve_write_failure_witness :
  result (Approve.POST world_disk_full (request (Some true)))
    = inr (Approve.Failed (mkError 500 (lit "Failed to generate audio"))) /\
  forallb (fun ev => negb (Approve.is_remote ev))
          (trace (Approve.POST world_disk_full (request (Some true)))) = true.
Proof.
  apply (@approve_write_failure world_disk_full (request (Some true))
           {| Approve.speaker := lit "Speaker1"; Approve.text := lit "Hi" |}
           (tl turns) job audio (Error (lit "ENOSPC")));
    try reflexivity. discriminate.
Defined.

(** X6 on an example.  The empty title: the object is stored under
    [_job_1_a.mp3], the file under [podcast_job_1_a.mp3]. *)
Lemma stored_object_is_local_artifact_witness :
  In (Approve.FsWriteFile (lit "/app/archive/podcast_job_1_a.mp3") [65; 66; 67])
     (trace (Approve.POST world_public request_untitled)) /\
  lit "_job_1_a.mp3" <> Filename.filename (Approve.title request_untitled) job.
Proof.
  assert (Hin : In (Approve.PutObject (lit "podcast") (lit "_job_1_a.mp3") [65; 66; 67] 3)
                   (trace (Approve.POST world_public request_untitled))).
  { vm_compute. do 7 right. left. reflexivity. }
  destruct (@stored_object_is_local_artifact world_public request_untitled _ _ _ _ Hin)
    as (j & Hj & Hw & _ & _ & Hiff).
  injection Hj as <-. split; [exact Hw|].
  intros Heq. apply Hiff in Heq. now apply Heq.
Defined.

(** X7 on an example.  The store that hands back the installed policy: the direct URL. *)
Lemma installed_policy_reads_public_witness :
  Approve.readPolicy world_echo (lit "podcast") = Approve.PolicyPublic /\
  result (Approve.uploadToMinIOStorage world_echo audio (lit "My Podcast!") job)
    = inr {| Approve.upload_success := true;
             Approve.url := Some (lit "https://host:9443/podcast/My_Podcast__job_1_a.mp3");
             Approve.upload_error := None |} /\
  existsb Approve.is_presign
          (trace (Approve.uploadToMinIOStorage world_echo audio (lit "My Podcast!") job))
    = false.
Proof.
  apply (@installed_policy_reads_public world_echo audio (lit "My Podcast!") job
           installed_policy_text).
  - repeat split. now left.
  - reflexivity.
  - reflexivity.
Defined.

(** X8 on an example.  The bare wildcard as [Principal] is read as private. *)
Lemma string_principal_reads_private_witness :
  isPublic (JObject [ (lit "Statement", JArray [wildcard_statement]) ]) = inr false.
Proof.
  apply (@string_principal_reads_private
           [ (lit "Statement", JArray [wildcard_statement]) ] [wildcard_statement]).
  - reflexivity.
  - intros stmt [<- | []]. eexists _, _. split; reflexivity.
Defined.

(** X9 on an example.  A data URL. *)
Lemma base64Data_payload_witness :
  Approve.base64Data audio = audio /\
  Approve.base64Data (lit "data:audio/mpeg;base64" ++ lit "," ++ audio) = audio /\
  Approve.base64Data (lit "data:audio/mpeg;base64" ++ lit "," ++ audio ++ lit "," ++ lit "x")
    = audio.
Proof.
  apply (@base64Data_payload (lit "data:audio/mpeg;base64") audio (lit "x"));
    apply comma_free_dec; reflexivity.
Defined.

(** X10 on an example.  The two chunks of the example: the conversation of the second. *)
Lemma process_last_chunk_wins_witness :
  exists reply,
    result (Process.POST process_world (process_request None)) = inr (Process.Ok200 reply) /\
    Process.conversation reply
      = [ {| Process.speaker := lit "Speaker1"; Process.text := lit "Hi" |} ].
Proof.
  destruct (@process_last_chunk_wins process_world (process_request None)
              [ {| Process.chunk_conversation := None |};
                {| Process.chunk_conversation :=
                     Some [ {| Process.partial_speaker := Some (lit "Speaker1");
                               Process.partial_text := Some (lit "Hi") |} ] |} ])
    as (reply & HP & _ & Hlast & _).
  - repeat split. now right.
  - exists reply. split; [now rewrite HP|].
    apply (Hlast [ {| Process.chunk_conversation := None |} ] _ [] _ eq_refl eq_refl).
    constructor.
Defined.

(** X14 on an example.  The artifact of job [job_2_b] is found where it
    stands; that of the job [zadanie_] followed by U+0142 is read and
    not served. *)
Lemma download_finds_artifact_witness :
  result (Download.GET download_world (lit "job_2_b"))
    = inr (Download.Ok200
             {| Download.content := [1; 2];
                Download.contentType := lit "audio/mpeg";
                Download.contentDisposition :=
                  lit "attachment; filename=" ++ [34] ++ lit "Other_job_2_b.mp3" ++ [34];
                Download.contentLength := lit "2" |}) /\
  Download.GET download_world_l_stroke job_l_stroke
    = ([Download.Readdir; Download.ReadFile (lit "podcast_zadanie_" ++ [322] ++ lit ".mp3")],
       inr (Download.Failed (mkError 500 (lit "Failed to serve file")))).
Proof.
  split.
  - destruct (@download_finds_artifact download_world (Some (lit "Other")) (lit "job_2_b")
                (map fst archive) [1; 2]) as [Hserve _].
    + discriminate.
    + reflexivity.
    + now left.
    + intros other [<- | [<- | [<- | [<- | []]]]] H; try reflexivity; vm_compute in H;
        discriminate H.
    + reflexivity.
    + rewrite Hserve; reflexivity.
  - destruct (@download_finds_artifact download_world_l_stroke None job_l_stroke
                (map fst archive_l_stroke) [65; 66; 67]) as [_ Hfail].
    + discriminate.
    + reflexivity.
    + now left.
    + intros other [<- | []] _. reflexivity.
    + reflexivity.
    + rewrite Hfail; reflexivity.
Defined.

(** X15 on an example.  The job [job_1] is answered with the artifact of
    job [job_12]. *)
Lemma download_id_collision_witness :
  exists reply,
    result (Download.GET collision_world (lit "job_1")) = inr (Download.Ok200 reply) /\
    Download.content reply = [65; 66; 67] /\
    Download.contentDisposition reply
      = lit "attachment; filename=" ++ [34] ++ lit "My_Podcast__job_12.mp3" ++ [34].
Proof.
  destruct (@download_id_collision collision_world (Some (lit "My Podcast!"))
              (lit "job_1") (lit "job_12") [lit "Other_job_1.mp3"] [65; 66; 67])
    as (_ & Hserve & _).
  - discriminate.
  - left. reflexivity.
  - reflexivity.
  - reflexivity.
  - destruct (Hserve eq_refl) as (reply & Hr & Hc & Hd).
    exists reply. split; [exact Hr|]. split; [exact Hc|exact Hd].
Defined.

(** X17 on an example.  The three stages of the examples in sequence. *)
Lemma job_id_threads_the_stages_witness :
  exists r1,
    result (Transcript.POST receive_world receive_request) = inr (Transcript.Ok200 r1) /\
    forall r2,
      result (Process.POST process_world
                (Pipeline.process_request (Transcript.body (Transcript.nextStep r1))))
        = inr (Process.Ok200 r2) ->
      Process.processed_jobId r2 = Transcript.jobId r1 /\
      Process.processed_language r2 = lit "pl".
Proof.
  eexists. split; [reflexivity|].
  intros r2 H2.
  destruct (@job_id_threads_the_stages receive_world process_world world_public
              receive_request _ None None None eq_refl) as (_ & Hthread).
  destruct (Hthread r2 H2) as (Hj & Hl & _). split; [exact Hj|exact Hl].
Defined.

(** X19 on an example.  A saved file: its name, and the fetch of it. *)
Lemma saved_file_is_reachable_witness :
  exists reply,
    result (Archive.POST archive_world save_request) = inr (Archive.SaveOk reply) /\
    Archive.saved_filename reply = lit "My_Podcast__1700000000000.mp3" /\
    Archive.traversal (Archive.saved_filename reply) = false /\
    result (Archive.GET_file archive_world (Archive.saved_filename reply))
      = inr (Archive.FileOk
               {| Archive.content := [65; 66; 67];
                  Archive.contentType := lit "audio/mpeg";
                  Archive.contentDisposition :=
                    lit "attachment; filename=" ++ [34]
                      ++ lit "My_Podcast__1700000000000.mp3" ++ [34];
                  Archive.contentLength := lit "3" |}).
Proof.
  eexists. split; [reflexivity|].
  destruct (@saved_file_is_reachable archive_world save_request _ eq_refl)
    as (Hf & Hg & _ & _ & Hget).
  split; [reflexivity|]. split; [exact Hg|].
  rewrite (Hget [65; 66; 67] eq_refl eq_refl). reflexivity.
Defined.

(** X20 on an example.  The pair of a saved file is removed. *)
Lemma delete_removes_saved_pair_witness :
  Archive.DELETE archive_world (Some (lit "My_Podcast__1700000000000.mp3"))
    = ([Archive.Access (lit "/app/archive/My_Podcast__1700000000000.mp3");
        Archive.Unlink (lit "/app/archive/My_Podcast__1700000000000.mp3");
        Archive.Unlink (lit "/app/archive/My_Podcast__1700000000000.json")],
       inr (Archive.Deleted (lit "File deleted successfully"))).
Proof.
  apply (@delete_removes_saved_pair archive_world (Some (lit "My Podcast!")) 1700000000000);
    reflexivity.
Defined.

(** X22 on an example.  The listing of the example directory: the newer file first, the
    metadata file left out. *)
Lemma archive_listing_witness :
  exists entries,
    result (Archive.GET_list archive_world) = inr (Archive.Listing entries) /\
    Sorted.StronglySorted Archive.not_older entries /\
    Permutation.Permutation (map Archive.name entries) [lit "old_1.mp3"; lit "new_2.mp3"].
Proof.
  destruct (@archive_listing archive_world
              [lit "old_1.mp3"; lit "new_2.json"; lit "new_2.mp3"]
              (or_introl eq_refl) eq_refl) as (Hlist & _ & _).
  destruct Hlist as (entries & Hr & Hs & Hp & _).
  - intros f [<- | [<- | []]]; eexists; reflexivity.
  - exists entries. split; [exact Hr|]. split; [exact Hs|exact Hp].
Defined.

(** X23 on an example.  The endpoint [://x] with port 443: the test connects with TLS, the
    upload helper without. *)
Lemma test_target_agreement_witness :
  Approve.endPoint (TestMinio.parseEndpoint test_world)
    = Approve.endPoint (Approve.parseEndpoint world_not_a_url) /\
  Approve.useSSL (TestMinio.parseEndpoint test_world) = true /\
  Approve.useSSL (Approve.parseEndpoint world_not_a_url) = false /\
  TestMinio.parseEndpoint test_world <> Approve.parseEndpoint world_not_a_url.
Proof.
  destruct (@test_target_agreement test_world world_not_a_url eq_refl (fun _ => eq_refl))
    as (He & _ & _ & Hdiff).
  split; [exact He|]. split; [reflexivity|]. split; [reflexivity|].
  apply Hdiff. split; [reflexivity|]. split; [eexists; reflexivity|].
  split; [discriminate|]. right. reflexivity.
Defined.

(** X28 on an example.  The fifty-first item. *)
Lemma history_drops_the_new_item_witness :
  exists st,
    History.addToHistory browser (history_item "new") (History.Items full_history) = inr st /\
    History.loadHistory browser st = Some full_history.
Proof.
  destruct (@history_drops_the_new_item browser (history_item "new")
              (History.Items full_history) full_history eq_refl eq_refl eq_refl)
    as (st & Ha & new & Hl & _ & _ & _ & Hsame).
  exists st. split; [exact Ha|]. rewrite Hl. f_equal. apply Hsame. reflexivity.
Defined.

(** X29 on an example.  The artifact of the examples is written in the
    archive directory under a name the archive routes accept; that of
    the job id [/../../evil] is written as [/app/evil.mp3]. *)
Lemma artifact_name_and_archive_guard_witness :
  In (Approve.FsWriteFile (lit "/app/archive/My_Podcast__job_1_a.mp3") [65; 66; 67])
     (trace (Approve.POST world_public (request None))) /\
  Archive.traversal (lit "My_Podcast__job_1_a.mp3") = false /\
  In (Approve.FsWriteFile (lit "/app/evil.mp3") [65; 66; 67])
     (trace (Approve.POST world_public request_escape)).
Proof.
  split; [|split].
  - destruct (@artifact_name_and_archive_guard world_public (request None) turns job audio
                [lit "app"] (example_local_ok _ _ _ _) eq_refl eq_refl)
      as (_ & Hw & _). exact Hw.
  - destruct (@artifact_name_and_archive_guard world_public (request None) turns job audio
                [lit "app"] (example_local_ok _ _ _ _) eq_refl eq_refl)
      as (_ & _ & Hp & _). apply Hp. reflexivity.
  - assert (Hok : Approve.local_ok world_public request_escape turns (lit "/../../evil") audio)
      by (repeat split; try discriminate; now left).
    destruct (@artifact_name_and_archive_guard world_public request_escape turns
                (lit "/../../evil") audio [lit "app"] Hok eq_refl eq_refl)
      as (_ & Hw & _ & _ & _ & Hesc).
    destruct (Hesc (lit "evil") eq_refl eq_refl) as [_ Hpath].
    rewrite Hpath in Hw. exact Hw.
Defined.

End Scenarios.
